(** * V4Fire Client: component metadata compiler and lifecycle orchestrator

    A shallow embedding of the component runtime of [core/component]
    ([createMeta], [bindWatchers], [initDataObject], [runHook] and
    [createSyncPromise]) together with the properties its specification
    states about them.

    The file has three parts: the embedding of the TypeScript functions
    (Part I), the theorems the specification states about them (Part II)
    and further properties of the same functions (Part III). *)

From stdpp Require Import gmap strings list fin_maps.
From Stdlib Require Import ZArith Ascii.

Open Scope string_scope.
Open Scope list_scope.

Set Warnings "-clear-no-such-hyp".

(** * Part I. The embedding *)

(** ** JavaScript values

    Only the distinctions the runtime relies on are kept: [undefined]
    versus a defined value, truthiness, and the identity of objects.  An
    object (array, set, function, plain object) is a reference [VRef l];
    two references denote the same object exactly when their locations are
    equal, so a clone of an object is a reference to a different location. *)

Definition loc := positive.

Inductive val :=
| VUndefined
| VNull
| VBool (b : bool)
| VNum (n : Z)
| VStr (s : string)
| VRef (l : loc).

#[global] Instance val_eq_dec : EqDecision val.
Proof. solve_decision. Defined.

(** [v === undefined] *)
Definition is_undefined (v : val) : bool :=
  match v with VUndefined => true | _ => false end.

(** [!!v] *)
Definition truthy (v : val) : bool :=
  match v with
  | VUndefined | VNull => false
  | VBool b => b
  | VNum n => negb (n =? 0)%Z
  | VStr s => negb (String.eqb s "")
  | VRef _ => true
  end.

(** [obj[key]] on a dictionary kept in [Object.keys] order. *)
Fixpoint assoc {A : Type} (o : list (string * A)) (key : string) : option A :=
  match o with
  | [] => None
  | (k, v) :: rest => if String.eqb k key then Some v else assoc rest key
  end.

(** *** Objects and their prototype chain

    A property is looked up on the object itself and then along its
    prototype chain.  The own properties of an object are a dictionary;
    what the chain answers for a name is a function, [None] where no
    object of the chain has the property. *)

Definition Inherited : Type := string → option val.

(** [key in obj] *)
Definition has (chain : Inherited) (own : gmap string val) (key : string) : bool :=
  bool_decide (is_Some (own !! key)) || bool_decide (is_Some (chain key)).

(** [obj[key]] *)
Definition read (chain : Inherited) (own : gmap string val) (key : string) : val :=
  match own !! key with
  | Some v => v
  | None =>
      match chain key with
      | Some v => v
      | None => VUndefined
      end
  end.

(** The property names of [Object.prototype]. *)
Definition objectPrototypeNames : list string :=
  ["constructor"; "hasOwnProperty"; "isPrototypeOf"; "propertyIsEnumerable";
   "toLocaleString"; "toString"; "valueOf"; "__proto__";
   "__defineGetter__"; "__defineSetter__";
   "__lookupGetter__"; "__lookupSetter__"].

Fixpoint memberAt (key : string) (names : list string) (l : loc) : option val :=
  match names with
  | [] => None
  | name :: rest =>
      if String.eqb name key then Some (VRef l)
      else memberAt key rest (Pos.succ l)
  end.

(** The chain of an object literal: [Object.prototype], whose members
    are objects, each at a location of its own (from 1000 on). *)
Definition objectPrototype : Inherited :=
  λ key, memberAt key objectPrototypeNames 1000%positive.

(** ** Field initializer: [initDataObject] *)

Module Fields.

(** What a call [init(ctx, data)] ends with: the value it returns or the
    value it throws, and the data object as the callback leaves it (the
    callback is handed the object itself and may add, change and delete
    its properties). *)
Inductive InitResult :=
| InitReturn (v : val) (d : gmap string val)
| InitThrow (x : val) (d : gmap string val).

(** A field descriptor [{default, init, after, atom}].  [init] is the
    optional callback.  Of what a callback does, the function depends
    on the value it returns and on the data object it leaves: the
    callback is a function from the own properties of the data object at
    the call to its result.  [after] is the [Set] of awaited field names
    in its iteration (insertion) order. *)
Record ComponentField := {
  default : val;
  init : option (gmap string val → InitResult);
  after : list string;
  atom : bool
}.

(** The two errors thrown by the sweep, the [TypeError] raised when a
    descriptor is read from a key that has none, and the exception of a
    callback, which the sweep does not catch. *)
Inductive Error :=
| FieldNotDefined (waitFieldKey : string)
| AtomWaitsNonAtom (key waitFieldKey : string)
| TypeError
| InitThrew (x : val).

(** What the function is given besides its arguments.  [Object.fastClone]
    belongs to the core prelude, which is not part of these sources.
    [ctxIsData] tells whether [ctx] and [data] are one object, as in
    [initDataObject(meta.systemFields, ctx, instance, ctx)], or two, as in
    the [data()] factory.  The three objects [fields], [data] and
    [instance] have prototype chains: [fieldsInherits name] is [None]
    when [fields[name]] finds nothing truthy beyond the own keys of
    [fields], and else tells whether the [atom] of what it finds is
    truthy; [dataInherits] and [instanceInherits] are the chains of
    [data] and [instance]. *)
Record Env := {
  fastClone : val → val;
  ctxIsData : bool;
  fieldsInherits : string → option bool;
  dataInherits : Inherited;
  instanceInherits : Inherited
}.

(** The local state of the [while (true)] loop: the own properties of
    the data object, the two [Set]s [queue] and [atomQueue], and
    [ctx.$activeField].  [initialised] is no variable of the program: it
    records the keys for which the [if (canInit)] block has run, in
    order. *)
Record State := {
  data : gmap string val;
  queue : gset string;
  atomQueue : gset string;
  activeField : option string;
  initialised : list string
}.

(** What the loop over [el.after.values()] ends with: every awaited field
    is in [data], or the [break] on the first awaited field that is not,
    or a [throw]. *)
Inductive AfterScan :=
| Satisfied
| Waiting
| Raised (e : Error).

(** The result of a call: [return data]; a thrown error, with the data
    object as it is at the throw (it is filled in place); or a loop that
    is still sweeping when the fuel is spent. *)
Inductive Outcome :=
| Returned (d : gmap string val)
| Threw (e : Error) (d : gmap string val)
| OutOfFuel.

Definition isReturned (o : Outcome) : bool :=
  match o with Returned _ => true | _ => false end.

Section WithEnv.

Variable env : Env.

(** [key in data] and [data[key]] *)
Definition inData (d : gmap string val) (key : string) : bool :=
  has (dataInherits env) d key.

Definition dataGet (d : gmap string val) (key : string) : val :=
  read (dataInherits env) d key.

(** [fields[name]]: [None] when it is falsy, else the truthiness of its
    [atom]. *)
Definition fieldsGet (fields : list (string * ComponentField))
    (name : string) : option bool :=
  match assoc fields name with
  | Some waitField => Some (atom waitField)
  | None => fieldsInherits env name
  end.

(** The "Sorting atoms" loop: the test that decides between
    [fieldList.unshift(key)] and [fieldList.push(key)]. *)
Definition sortsFirst (instance : gmap string val) (key : string)
    (el : ComponentField) : bool :=
  atom el
  || (negb (bool_decide (is_Some (init el)))
      && (negb (is_undefined (default el))
          || has (instanceInherits env) instance key)).

Definition buildFieldList (fields : list (string * ComponentField))
    (instance : gmap string val) : list string :=
  fold_left
    (λ fieldList '(key, el),
       if sortsFirst instance key el then key :: fieldList
       else fieldList ++ [key])
    fields [].

(** The body of [for (let o = el.after.values(), ...)]. *)
Fixpoint scanAfter (fields : list (string * ComponentField))
    (d : gmap string val) (key : string) (el : ComponentField)
    (names : list string) : AfterScan :=
  match names with
  | [] => Satisfied
  | waitFieldKey :: rest =>
      match fieldsGet fields waitFieldKey with
      | None => Raised (FieldNotDefined waitFieldKey)
      | Some waitAtom =>
          if atom el && negb waitAtom
          then Raised (AtomWaitsNonAtom key waitFieldKey)
          else if inData d waitFieldKey
          then scanAfter fields d key el rest
          else Waiting
      end
  end.

(** [if (el.init) val = el.init(ctx, data)], on the data object [d]. *)
Definition initCall (el : ComponentField) (d : gmap string val) : InitResult :=
  match init el with
  | Some f => f d
  | None => InitReturn VUndefined d
  end.

(** [el.default !== undefined ? el.default : Object.fastClone(instance[key])] *)
Definition fallback (instance : gmap string val) (key : string)
    (el : ComponentField) : val :=
  if negb (is_undefined (default el)) then default el
  else fastClone env (read (instanceInherits env) instance key).

(** The data object when the callback is called: [ctx.$activeField = key]
    is a write to it when [ctx] is the data object. *)
Definition atCall (key : string) (d : gmap string val) : gmap string val :=
  if ctxIsData env then <["$activeField" := VStr key]> d else d.

(** What the block makes of the data object [d] the callback has left,
    given the value [v] it has returned. *)
Definition store (instance : gmap string val) (key : string)
    (el : ComponentField) (v : val) (d : gmap string val) : gmap string val :=
  if is_undefined v then
    if is_undefined (dataGet d key)
    then <[key := fallback instance key el]> d
    else d
  else <[key := v]> d.

(** The [if (canInit) { ... }] block. *)
Definition initField (instance : gmap string val) (key : string)
    (el : ComponentField) (s : State) : Error * State + State :=
  let after_call (d : gmap string val) : State :=
    {| data := d;
       queue := queue s ∖ {[key]};
       atomQueue := atomQueue s ∖ {[key]};
       activeField := Some key;
       initialised := initialised s ++ [key] |} in
  match initCall el (atCall key (data s)) with
  | InitReturn v d => inr (after_call (store instance key el v d))
  | InitThrow x d => inl (InitThrew x, after_call d)
  end.

(** One iteration of [for (let i = 0; i < fieldList.length; i++)]. *)
Definition visit (fields : list (string * ComponentField))
    (instance : gmap string val) (key : string) (s : State)
    : Error * State + State :=
  if inData (data s) key then inr s
  else
    match assoc fields key with
    | None => inl (TypeError, s)
    | Some el =>
        let canInit := atom el || bool_decide (size (atomQueue s) = 0) in
        match scanAfter fields (data s) key el (after el) with
        | Raised e => inl (e, s)
        | Waiting =>
            inr {| data := data s;
                   queue := {[key]} ∪ queue s;
                   atomQueue :=
                     if atom el then {[key]} ∪ atomQueue s else atomQueue s;
                   activeField := activeField s;
                   initialised := initialised s |}
        | Satisfied =>
            if canInit then initField instance key el s else inr s
        end
    end.

(** One sweep over (the rest of) [fieldList]. *)
Fixpoint sweep (fields : list (string * ComponentField))
    (instance : gmap string val) (fieldList : list string) (s : State)
    : Error * State + State :=
  match fieldList with
  | [] => inr s
  | key :: rest =>
      match visit fields instance key s with
      | inl e => inl e
      | inr s' => sweep fields instance rest s'
      end
  end.

(** [while (true) { sweep; if (!atomQueue.size && !queue.size) break; }] *)
Fixpoint sweepLoop (fuel : nat) (fields : list (string * ComponentField))
    (instance : gmap string val) (fieldList : list string) (s : State)
    : Outcome :=
  match fuel with
  | O => OutOfFuel
  | S fuel' =>
      match sweep fields instance fieldList s with
      | inl (e, s') => Threw e (data s')
      | inr s' =>
          if bool_decide (size (atomQueue s') = 0)
             && bool_decide (size (queue s') = 0)
          then Returned (data s')
          else sweepLoop fuel' fields instance fieldList s'
      end
  end.

(** The state the loop starts in. *)
Definition start (d : gmap string val) : State :=
  {| data := d; queue := ∅; atomQueue := ∅; activeField := None;
     initialised := [] |}.

Definition initDataObject (fuel : nat)
    (fields : list (string * ComponentField))
    (instance : gmap string val) (d : gmap string val) : Outcome :=
  sweepLoop fuel fields instance (buildFieldList fields instance) (start d).

(** The state after [n] turns of the loop, none of which threw or reached
    the [break]. *)
Fixpoint afterSweeps (n : nat) (fields : list (string * ComponentField))
    (instance : gmap string val) (fieldList : list string) (s : State)
    : option State :=
  match n with
  | O => Some s
  | S n' =>
      match sweep fields instance fieldList s with
      | inl _ => None
      | inr s' =>
          if bool_decide (size (atomQueue s') = 0)
             && bool_decide (size (queue s') = 0)
          then None
          else afterSweeps n' fields instance fieldList s'
      end
  end.

(** *** Vocabulary of the properties *)

(** The awaited name [w] lets the scan of [el] go on to the next name:
    [fields[w]] is truthy, it does not make an atom wait for a non-atom,
    and [w] is in [d]. *)
Definition passes (fields : list (string * ComponentField))
    (d : gmap string val) (el : ComponentField) (w : string) : Prop :=
  ∃ waitAtom, fieldsGet fields w = Some waitAtom
              ∧ atom el && negb waitAtom = false
              ∧ inData d w = true.

(** The awaited name [w] can never let the scan of [el] go on:
    [fields[w]] is falsy, or [el] is an atom and what [fields[w]] finds
    is none. *)
Definition refuses (fields : list (string * ComponentField))
    (el : ComponentField) (w : string) : Prop :=
  match fieldsGet fields w with
  | None => True
  | Some waitAtom => atom el && negb waitAtom = true
  end.

(** The cases of one visit that does not throw: the field is in [data]
    already; it waits; it could be initialised but atoms are pending; its
    block runs. *)
Inductive Visited (fields : list (string * ComponentField))
    (instance : gmap string val) (key : string) (s s' : State) : Prop :=
| VisitPresent :
    inData (data s) key = true → s' = s → Visited fields instance key s s'
| VisitWaiting el :
    inData (data s) key = false → assoc fields key = Some el →
    scanAfter fields (data s) key el (after el) = Waiting →
    s' = {| data := data s;
            queue := {[key]} ∪ queue s;
            atomQueue := if atom el then {[key]} ∪ atomQueue s else atomQueue s;
            activeField := activeField s;
            initialised := initialised s |} →
    Visited fields instance key s s'
| VisitHeld el :
    inData (data s) key = false → assoc fields key = Some el →
    scanAfter fields (data s) key el (after el) = Satisfied →
    atom el = false → size (atomQueue s) ≠ 0 → s' = s →
    Visited fields instance key s s'
| VisitInit el v d :
    inData (data s) key = false → assoc fields key = Some el →
    scanAfter fields (data s) key el (after el) = Satisfied →
    initCall el (atCall key (data s)) = InitReturn v d →
    s' = {| data := store instance key el v d;
            queue := queue s ∖ {[key]};
            atomQueue := atomQueue s ∖ {[key]};
            activeField := Some key;
            initialised := initialised s ++ [key] |} →
    Visited fields instance key s s'.

(** The queues hold declared fields that are not in [data], and the
    atomic queue holds atoms only. *)
Definition queuesPending (fields : list (string * ComponentField))
    (s : State) : Prop :=
  (∀ k, k ∈ queue s → inData (data s) k = false ∧ is_Some (assoc fields k))
  ∧ (∀ k, k ∈ atomQueue s →
          inData (data s) k = false
          ∧ ∃ el, assoc fields k = Some el ∧ atom el = true).

(** Every atom is in [d]. *)
Definition noAtomPending (fields : list (string * ComponentField))
    (d : gmap string val) : Prop :=
  ∀ k el, assoc fields k = Some el → atom el = true → inData d k = true.

(** The declared fields that are not in [d]. *)
Definition missing (fields : list (string * ComponentField))
    (d : gmap string val) : gset string :=
  filter (λ k, inData d k = false) (list_to_set fields.*1 : gset string).

End WithEnv.

(** Every callback of the field map returns, and leaves the data object
    as it has found it. *)
Definition quiet (fields : list (string * ComponentField)) : Prop :=
  ∀ key el f d, (key, el) ∈ fields → init el = Some f →
    ∃ v, f d = InitReturn v d.

(** The callbacks of the fields other than [key] leave the property
    [key] of the data object as they have found it. *)
Definition leaveAlone (fields : list (string * ComponentField))
    (key : string) : Prop :=
  ∀ k el f d, (k, el) ∈ fields → k ≠ key → init el = Some f →
    match f d with
    | InitReturn _ d' | InitThrow _ d' => d' !! key = d !! key
    end.

(** A valid dependency graph: every awaited name is declared, an atom
    awaits atoms only, and the names can be ranked so that a field ranks
    above what it awaits (there is no cycle). *)
Definition validGraph (fields : list (string * ComponentField)) : Prop :=
  ∃ rank : string → nat,
    ∀ key el w, (key, el) ∈ fields → w ∈ after el →
      ∃ waitField, assoc fields w = Some waitField
                   ∧ rank w < rank key
                   ∧ (atom el = true → atom waitField = true).

(** The call of the [data()] factory on object literals: [ctx] and
    [data] are two objects, and [fields], [data] and [instance] inherit
    from [Object.prototype], no member of which has an [atom]. *)
Definition literals (clone : val → val) : Env :=
  {| fastClone := clone;
     ctxIsData := false;
     fieldsInherits :=
       λ name, match objectPrototype name with
               | Some _ => Some false
               | None => None
               end;
     dataInherits := objectPrototype;
     instanceInherits := objectPrototype |}.

(** The call of [beforeCreate]: [ctx] is the data object; only what it
    inherits from [Object.prototype] is kept of its chain. *)
Definition onContext (clone : val → val) : Env :=
  {| fastClone := clone;
     ctxIsData := true;
     fieldsInherits := fieldsInherits (literals clone);
     dataInherits := objectPrototype;
     instanceInherits := objectPrototype |}.

End Fields.

(** ** Hook runner: [createSyncPromise] and [runHook] *)

Module Hooks.

(** *** The synchronous completion signal *)

(** The object returned by [createSyncPromise(val, err)]: its three
    methods close over [val] and [err], so the pair determines it. *)
Record SyncPromise := {
  sp_val : val;
  sp_err : val
}.

Definition createSyncPromise (v err : val) : SyncPromise :=
  {| sp_val := v; sp_err := err |}.

(** A callback handed to [then], [catch] or [finally]: it returns a value
    or throws one.  [cb_id] identifies it in the log of calls. *)
Inductive Completion :=
| Return (v : val)
| Throw (v : val).

Record Callback := {
  cb_id : string;
  cb_run : list val → Completion
}.

(** A call that was made: which callback, with which arguments. *)
Definition Call : Type := string * list val.

Definition invoke (cb : Callback) (args : list val) : list Call * Completion :=
  ([(cb_id cb, args)], cb_run cb args).

(** [reject ? reject(err) : err], wrapped by [createSyncPromise(undefined, _)];
    a throw of [reject] propagates. *)
Definition rejected (reject : option Callback) (err : val)
    : list Call * (SyncPromise + val) :=
  match reject with
  | Some r =>
      let '(calls, c) := invoke r [err] in
      (calls, match c with
              | Return v => inl (createSyncPromise VUndefined v)
              | Throw x => inr x
              end)
  | None => ([], inl (createSyncPromise VUndefined err))
  end.

(** [then: (resolve, reject) => { try { ... } catch (err) { ... } }].
    The result is the calls made and either the promise returned or the
    value thrown out of [then]. *)
Definition then_ (p : SyncPromise) (resolve reject : option Callback)
    : list Call * (SyncPromise + val) :=
  let '(calls, tried) :=
    if negb (is_undefined (sp_err p)) then rejected reject (sp_err p)
    else
      match resolve with
      | Some r =>
          let '(calls, c) := invoke r [sp_val p] in
          (calls, match c with
                  | Return v => inl (createSyncPromise v VUndefined)
                  | Throw x => inr x
                  end)
      | None => ([], inl (createSyncPromise (sp_val p) VUndefined))
      end in
  match tried with
  | inl p' => (calls, inl p')
  | inr caught =>
      let '(calls', r) := rejected reject caught in (calls ++ calls', r)
  end.

(** [catch: (cb) => createSyncPromise(undefined, cb(err))] *)
Definition catch_ (p : SyncPromise) (cb : Callback)
    : list Call * (SyncPromise + val) :=
  let '(calls, c) := invoke cb [sp_err p] in
  (calls, match c with
          | Return v => inl (createSyncPromise VUndefined v)
          | Throw x => inr x
          end).

(** [finally: (cb) => createSyncPromise(cb())] *)
Definition finally_ (p : SyncPromise) (cb : Callback)
    : list Call * (SyncPromise + val) :=
  let '(calls, c) := invoke cb [] in
  (calls, match c with
          | Return v => inl (createSyncPromise v VUndefined)
          | Throw x => inr x
          end).

(** *** Hooks *)

(** What [el.fn.apply(ctx, args)] gives back: a value that is not a
    promise, or a promise that is fulfilled at some later point.  Hook
    bodies that throw or reject are outside this model. *)
Inductive Body :=
| Plain
| Deferred.

(** A hook descriptor [{name, fn, after}].  [after] is a reference to a
    [Set] object (or [undefined]): the descriptor objects, and so their
    sets, are shared by every invocation that reads them from the meta
    object. *)
Record HookDescriptor := {
  name : option string;
  fn : Body;
  after : option loc
}.

(** What is observed of a stage invocation: the body of hook number [i]
    is applied ([Start i]); its result is available, which is the moment
    its inner [emit] runs ([Done i]). *)
Inductive Event :=
| Start (i : nat)
| Done (i : nat).

#[global] Instance Event_eq_dec : EqDecision Event.
Proof. solve_decision. Defined.

(** The mutable world around [runHook]: the [Set] objects (each in
    insertion order), [ctx.hook], the log channel, the observed events,
    the hooks whose promise is not fulfilled yet, and the number of
    [Math.random()] draws made so far. *)
Record World := {
  sets : gmap loc (list string);
  hook : option string;
  logged : list string;
  trace : list Event;
  pending : list nat;
  draws : nat
}.

Definition with_sets (w : World) (ss : gmap loc (list string)) : World :=
  {| sets := ss; hook := hook w; logged := logged w; trace := trace w;
     pending := pending w; draws := draws w |}.

Definition with_trace (w : World) (t : list Event) : World :=
  {| sets := sets w; hook := hook w; logged := logged w; trace := t;
     pending := pending w; draws := draws w |}.

Definition with_pending (w : World) (p : list nat) : World :=
  {| sets := sets w; hook := hook w; logged := logged w; trace := trace w;
     pending := p; draws := draws w |}.

Definition observe (ev : Event) (w : World) : World :=
  with_trace w (trace w ++ [ev]).

(** The list without the first occurrence of [i]. *)
Fixpoint removeFirst (i : nat) (l : list nat) : list nat :=
  match l with
  | [] => []
  | j :: rest => if bool_decide (i = j) then rest else j :: removeFirst i rest
  end.

(** The members of the [Set] at [l]. *)
Definition members (w : World) (l : loc) : list string :=
  match sets w !! l with Some names => names | None => [] end.

(** The local object [event]: [{queue, events}].  A callback is the
    index of the hook its closure captured; an entry [{event, cb}] of
    [events[name]] is the pair of the set reference and that index. *)
Record Emitter := {
  queue : list nat;
  events : gmap string (list (loc * nat))
}.

(** [on(event, cb)] *)
Definition on (w : World) (event : option loc) (cb : nat) (e : Emitter)
    : Emitter :=
  let push := {| queue := queue e ++ [cb]; events := events e |} in
  match event with
  | Some l =>
      if bool_decide (length (members w l) ≠ 0) then
        {| queue := queue e;
           events :=
             fold_left
               (λ evs v,
                  <[v := match evs !! v with
                         | Some o => o
                         | None => []
                         end ++ [(l, cb)]]> evs)
               (members w l) (events e) |}
      else push
  | None => push
  end.

(** The loop [for (let hooks = meta.hooks[hook], i = 0; ...) event.on(el.after, ...)],
    from hook number [i] on. *)
Fixpoint register (w : World) (i : nat) (hooks : list HookDescriptor)
    (e : Emitter) : Emitter :=
  match hooks with
  | [] => e
  | el :: rest => register w (S i) rest (on w (after el) i e)
  end.

(** [Set.prototype.delete] returns a boolean, and a boolean has no
    [size] property: [el.event.delete(event).size] is [undefined]. *)
Definition size_of_boolean (b : bool) : val := VUndefined.

Section Emit.

(** [el.cb()] / [this.queue[i]()]: the world it leaves and whether what
    it returned is a promise; [None] when the fuel is spent. *)
Variable run : nat → World → option (World * bool).

(** The loop of [emit(event)] over [o = this.events[event]]; [tasks]
    tells whether a task was pushed. *)
Fixpoint emitLoop (event : string) (o : list (loc * nat)) (w : World)
    (tasks : bool) : option (World * bool) :=
  match o with
  | [] => Some (w, tasks)
  | (l, cb) :: rest =>
      let deleted := bool_decide (event ∈ members w l) in
      let w1 := with_sets w (<[l := filter (λ v, v ≠ event) (members w l)]> (sets w)) in
      if negb (truthy (size_of_boolean deleted)) then
        match run cb w1 with
        | None => None
        | Some (w2, isPromise) => emitLoop event rest w2 (tasks || isPromise)
        end
      else emitLoop event rest w1 tasks
  end.

Definition emit (e : Emitter) (event : string) (w : World)
    : option (World * bool) :=
  match events e !! event with
  | None => Some (w, false)
  | Some o => emitLoop event o w false
  end.

(** The loop of [fire()] over [this.queue]. *)
Fixpoint fireLoop (q : list nat) (w : World) (tasks : bool)
    : option (World * bool) :=
  match q with
  | [] => Some (w, tasks)
  | cb :: rest =>
      match run cb w with
      | None => None
      | Some (w', isPromise) => fireLoop rest w' (tasks || isPromise)
      end
  end.

End Emit.

Section WithRandom.

(** [Math.random().toString()]: the string of the [n]-th draw. *)
Variable random : nat → string.

(** [el.name || Math.random().toString()] *)
Definition emittedName (el : HookDescriptor) (w : World) : string * World :=
  let drawn :=
    (random (draws w),
     {| sets := sets w; hook := hook w; logged := logged w;
        trace := trace w; pending := pending w; draws := S (draws w) |}) in
  match name el with
  | Some n => if String.eqb n "" then drawn else (n, w)
  | None => drawn
  end.

(** The closure passed to [event.on] for hook number [i]: apply the body,
    then [emit] its name, at once for a plain result and in [res.then]
    for a promise. *)
Fixpoint callback (fuel : nat) (hooks : list HookDescriptor) (e : Emitter)
    (i : nat) (w : World) : option (World * bool) :=
  match fuel with
  | O => None
  | S fuel' =>
      match hooks !! i with
      | None => None
      | Some el =>
          let w1 := observe (Start i) w in
          match fn el with
          | Deferred => Some (with_pending w1 (pending w1 ++ [i]), true)
          | Plain =>
              let '(ev, w2) := emittedName el (observe (Done i) w1) in
              emit (callback fuel' hooks e) e ev w2
          end
      end
  end.

(** The promise of the deferred hook number [i] is fulfilled: the
    continuation [res.then(emit)] runs. *)
Definition settle (fuel : nat) (hooks : list HookDescriptor) (e : Emitter)
    (i : nat) (w : World) : option (World * bool) :=
  match hooks !! i with
  | Some el =>
      if bool_decide (i ∈ pending w) then
        let w1 := observe (Done i) (with_pending w (removeFirst i (pending w))) in
        let '(ev, w2) := emittedName el w1 in
        emit (callback fuel hooks e) e ev w2
      else None
  | None => None
  end.

(** What [runHook] returns: the synchronous signal or a real promise. *)
Inductive Signal :=
| SyncSignal (p : SyncPromise)
| PromiseSignal.

Inductive Outcome :=
| Returned (sig : Signal) (e : Emitter) (w : World)
| ThrewTypeError
| OutOfFuel.

Definition signalOf (o : Outcome) : option Signal :=
  match o with
  | Returned sig _ _ => Some sig
  | _ => None
  end.

(** [runHook(hook, meta, ctx, ...args)], with [hooksOf] the object
    [meta.hooks]. *)
Definition runHook (fuel : nat) (stage : string)
    (hooksOf : gmap string (list HookDescriptor)) (w : World) : Outcome :=
  let w0 :=
    {| sets := sets w; hook := Some stage; logged := logged w ++ [stage];
       trace := trace w; pending := pending w; draws := draws w |} in
  match hooksOf !! stage with
  | None => ThrewTypeError
  | Some hooks =>
      if bool_decide (length hooks = 0) then
        Returned (SyncSignal (createSyncPromise VUndefined VUndefined))
          {| queue := []; events := ∅ |} w0
      else
        let e := register w0 0 hooks {| queue := []; events := ∅ |} in
        match fireLoop (callback fuel hooks e) (queue e) w0 false with
        | None => OutOfFuel
        | Some (w', true) => Returned PromiseSignal e w'
        | Some (w', false) =>
            Returned (SyncSignal (createSyncPromise VUndefined VUndefined)) e w'
        end
  end.

End WithRandom.

(** *** Vocabulary of the properties *)

(** The names hook [el] awaits, read in the world [w]. *)
Definition awaited (w : World) (el : HookDescriptor) : list string :=
  match after el with
  | Some l => members w l
  | None => []
  end.

(** In the trace [t], a hook named [n] has completed before position [k]. *)
Definition completedBefore (hooks : list HookDescriptor) (t : list Event)
    (k : nat) (n : string) : Prop :=
  ∃ k' j el, k' < k ∧ t !! k' = Some (Done j)
             ∧ hooks !! j = Some el ∧ name el = Some n.

(** Every hook of the trace [t] starts only after all the hooks it
    awaited, as read in the world [w] the invocation began in, have
    completed. *)
Definition respectsAfter (hooks : list HookDescriptor) (w : World)
    (t : list Event) : Prop :=
  ∀ k i el n, t !! k = Some (Start i) → hooks !! i = Some el →
              n ∈ awaited w el → completedBefore hooks t k n.

(** The world before any invocation, with the given [Set] objects. *)
Definition fresh_world (ss : gmap loc (list string)) : World :=
  {| sets := ss; hook := None; logged := []; trace := [];
     pending := []; draws := 0 |}.

End Hooks.

(** ** Metadata store: [createMeta] *)

Module Meta.

(** The heap of the objects that make up a meta record.  An object has a
    prototype link and its own properties in [Object.keys] order; an array
    has its items. *)
Inductive Cell :=
| Obj (proto : option loc) (props : list (string * val))
| Arr (items : list val).

(** Allocation of a new object: a location not used so far. *)
Definition alloc (h : gmap loc Cell) (c : Cell) : loc * gmap loc Cell :=
  let l := fresh (dom h) in (l, <[l := c]> h).

(** [o[key] = v] on a dictionary kept in [Object.keys] order. *)
Fixpoint assoc_set (o : list (string * val)) (key : string) (v : val)
    : list (string * val) :=
  match o with
  | [] => [(key, v)]
  | (k, x) :: rest =>
      if String.eqb k key then (k, v) :: rest
      else (k, x) :: assoc_set rest key v
  end.

(** [l[key]]: the own property, else the lookup goes up the prototype
    chain, by at most [hops] links. *)
Fixpoint get (hops : nat) (h : gmap loc Cell) (l : loc) (key : string) : val :=
  match h !! l with
  | Some (Obj proto props) =>
      match assoc props key with
      | Some v => v
      | None =>
          match proto, hops with
          | Some p, S n => get n h p key
          | _, _ => VUndefined
          end
      end
  | _ => VUndefined
  end.

(** [l[key] = v] where [l] is a plain object. *)
Definition set_prop (h : gmap loc Cell) (l : loc) (key : string) (v : val)
    : option (gmap loc Cell) :=
  match h !! l with
  | Some (Obj proto props) => Some (<[l := Obj proto (assoc_set props key v)]> h)
  | _ => None
  end.

(** [Object.keys(l)] of a plain object. *)
Definition ownKeys (h : gmap loc Cell) (l : loc) : option (list string) :=
  match h !! l with
  | Some (Obj _ props) => Some (props.*1)
  | _ => None
  end.

(** [v.slice()]: a new array with the same items; a string is its own
    copy; any other value has no [slice] method. *)
Definition slice (h : gmap loc Cell) (v : val) : option (val * gmap loc Cell) :=
  match v with
  | VRef a =>
      match h !! a with
      | Some (Arr items) =>
          let '(a', h') := alloc h (Arr items) in Some (VRef a', h')
      | _ => None
      end
  | VStr s => Some (VStr s, h)
  | _ => None
  end.

(** [a.push(x)] *)
Definition push (h : gmap loc Cell) (a : loc) (x : val)
    : option (gmap loc Cell) :=
  match h !! a with
  | Some (Arr items) => Some (<[a := Arr (items ++ [x])]> h)
  | _ => None
  end.

(** The loop [for (let o = ..., p = ..., keys = Object.keys(p), i = 0; ...)]
    of [createMeta]: [if (v) o[key] = v.slice()].  [None] is a
    [TypeError]. *)
Fixpoint copyLists (hops : nat) (keys : list string) (o p : loc)
    (h : gmap loc Cell) : option (gmap loc Cell) :=
  match keys with
  | [] => Some h
  | key :: rest =>
      let v := get hops h p key in
      if truthy v then
        match slice h v with
        | Some (v', h1) =>
            match set_prop h1 o key v' with
            | Some h2 => copyLists hops rest o p h2
            | None => None
            end
        | None => None
        end
      else copyLists hops rest o p h
  end.

(** One of the two loops, for the table named [table] ("hooks" or
    "watchers"). *)
Definition copyTable (hops : nat) (table : string) (meta parent : loc)
    (h : gmap loc Cell) : option (gmap loc Cell) :=
  match get hops h meta table, get hops h parent table with
  | VRef o, VRef p =>
      match ownKeys h p with
      | Some keys => copyLists hops keys o p h
      | None => None
      end
  | _, _ => None
  end.

(** [createMeta(parent)]: the new meta object and the heap it leaves. *)
Definition createMeta (hops : nat) (h : gmap loc Cell) (parent : loc)
    : option (loc * gmap loc Cell) :=
  let '(meta, h1) := alloc h (Obj (Some parent) []) in
  let '(watchers, h2) := alloc h1 (Obj None []) in
  let '(hooks, h3) := alloc h2 (Obj None []) in
  let h4 :=
    <[meta := Obj (Some parent)
                [("watchers", VRef watchers); ("hooks", VRef hooks)]]> h3 in
  match copyTable hops "hooks" meta parent h4 with
  | Some h5 =>
      match copyTable hops "watchers" meta parent h5 with
      | Some h6 => Some (meta, h6)
      | None => None
      end
  | None => None
  end.

(** The items of the list [m[table][key]], when there is one. *)
Definition listAt (hops : nat) (h : gmap loc Cell) (m : loc)
    (table key : string) : option (list val) :=
  match get hops h m table with
  | VRef o =>
      match get hops h o key with
      | VRef a =>
          match h !! a with
          | Some (Arr items) => Some items
          | _ => None
          end
      | _ => None
      end
  | _ => None
  end.

(** [m[table][key].push(x)] *)
Definition pushAt (hops : nat) (h : gmap loc Cell) (m : loc)
    (table key : string) (x : val) : option (gmap loc Cell) :=
  match get hops h m table with
  | VRef o =>
      match get hops h o key with
      | VRef a => push h a x
      | _ => None
      end
  | _ => None
  end.

(** *** Vocabulary of the properties *)

(** A cell refers to cells of the heap only: the prototype of an object
    and the objects its properties refer to are allocated. *)
Definition cellClosed (h : gmap loc Cell) (c : Cell) : bool :=
  match c with
  | Obj proto props =>
      match proto with
      | Some p => bool_decide (is_Some (h !! p))
      | None => true
      end
      && forallb
           (λ kv : string * val,
              match kv.2 with
              | VRef r => bool_decide (is_Some (h !! r))
              | _ => true
              end) props
  | Arr _ => true
  end.

(** A heap without dangling references. *)
Definition closed (h : gmap loc Cell) : Prop :=
  map_Forall (λ _ c, cellClosed h c = true) h.

(** Every list of the table [props] is an array that is not in the heap
    [h] and has, in the heap [hx], the items that the list of the same
    key of the table [p] has in [h]. *)
Definition copiedFrom (hops : nat) (h hx : gmap loc Cell) (p : loc)
    (props : list (string * val)) : Prop :=
  ∀ key a', assoc props key = Some (VRef a') →
    h !! a' = None
    ∧ ∃ a items, get hops h p key = VRef a
                 ∧ h !! a = Some (Arr items)
                 ∧ hx !! a' = Some (Arr items).

(** The table [p] is a dictionary of lists: it is a plain object and
    each of its truthy entries is an array (or a string, which also has a
    [slice] method). *)
Definition listTable (hops : nat) (h : gmap loc Cell) (p : loc) : Prop :=
  ∃ proto props, h !! p = Some (Obj proto props)
    ∧ ∀ key, key ∈ props.*1 → truthy (get hops h p key) = true →
        (∃ a items, get hops h p key = VRef a ∧ h !! a = Some (Arr items))
        ∨ (∃ str, get hops h p key = VStr str).

(** A meta object in a heap: an allocated object of a closed heap whose
    [hooks] and [watchers] are dictionaries of lists. *)
Definition metaObject (hops : nat) (h : gmap loc Cell) (m : loc) : Prop :=
  closed h ∧ is_Some (h !! m)
  ∧ (∃ p, get hops h m "hooks" = VRef p ∧ listTable hops h p)
  ∧ (∃ p, get hops h m "watchers" = VRef p ∧ listTable hops h p).

End Meta.

(** ** Watcher binder: [bindWatchers] *)

Module Watchers.

(** [[!?]]: one of the two stage markers. *)
Definition isMarker (c : ascii) : bool :=
  (Ascii.eqb c "!" || Ascii.eqb c "?")%char.

(** [[^!?:]] *)
Definition isNameChar (c : ascii) : bool :=
  negb (Ascii.eqb c "!" || Ascii.eqb c "?" || Ascii.eqb c ":")%char.

(** The second group, a greedy run of [[^!?:]]: the longest prefix of
    name characters, and what follows it. *)
Fixpoint spanName (s : string) : string * string :=
  match s with
  | String c rest =>
      if isNameChar c then
        let '(l, tail) := spanName rest in (String c l, tail)
      else (EmptyString, s)
  | EmptyString => (EmptyString, EmptyString)
  end.

(** The last group, any characters but line terminators: everything up
    to the first line terminator. *)
Fixpoint lineOf (s : string) : string :=
  match s with
  | String c rest =>
      if (Ascii.eqb c "010" || Ascii.eqb c "013")%char then EmptyString
      else String c (lineOf rest)
  | EmptyString => EmptyString
  end.

(** [customWatcherRgxp.exec(key)]: an optional marker, a run of name
    characters, a colon, and the rest of the line; the result is the
    three groups of the match, if any.  The name class excludes the
    markers and the colon, so no shorter choice of a group can match when
    the greedy one does not. *)
Definition customWatcherRgxp (key : string)
    : option (string * string * string) :=
  let '(m, s1) :=
    match key with
    | String c rest =>
        if isMarker c then (String c EmptyString, rest) else (EmptyString, key)
    | EmptyString => (EmptyString, EmptyString)
    end in
  let '(l, s2) := spanName s1 in
  match s2 with
  | String ":" rest => Some (m, l, lineOf rest)
  | _ => None
  end.

(** The property names every object literal inherits from
    [Object.prototype]. *)
Definition objectPrototypeKeys : list string :=
  ["constructor"; "hasOwnProperty"; "isPrototypeOf"; "propertyIsEnumerable";
   "toLocaleString"; "toString"; "valueOf"; "__proto__";
   "__defineGetter__"; "__defineSetter__";
   "__lookupGetter__"; "__lookupSetter__"].

(** [{beforeCreate: true, created: true, mounted: true}[hook]] is truthy. *)
Definition attachStage (hook : string) : bool :=
  bool_decide (hook ∈ ["beforeCreate"; "created"; "mounted"])
  || bool_decide (hook ∈ objectPrototypeKeys).

(** The stage names the component adapter gives to [ctx.hook]. *)
Definition lifecycleStages : list string :=
  ["beforeRuntime"; "beforeCreate"; "beforeDataCreate"; "created";
   "beforeMount"; "mounted"; "beforeUpdate"; "updated"; "activated";
   "deactivated"; "beforeDestroy"; "destroyed"; "errorCaptured"].

Section WithContext.

(** The type of watcher descriptors; the binder only passes them on. *)
Context {W : Type}.

(** The component context [ctx]; the lookups [$C(eventCtx).get] and
    [$C(GLOBAL).get] of collection.js; [String.prototype.dasherize] of
    the prelude; and whether [ctx] has an [on] or [addListener] method. *)
Variable ctx : val.
Variable ctxGet globalGet : string → val.
Variable dasherize : string → string.
Variable ctxIsEmitter : bool.

(** What the asynchronous block at the end of the inner loop asks for, for
    one watcher [el]: [ctx.$on(key, handler)],
    [$a.on(root, key, handler, eventParams, ...el.args)], or
    [ctx.$watch(key, {...})] followed by [$a.worker(unwatch, group)].
    [source] is the key of [meta.watchers] the watcher was read from. *)
Inductive Subscription :=
| CtxOn (source event : string) (el : W)
| AsyncOn (source : string) (root : val) (event : string) (el : W)
| Watch (source path : string) (el : W).

Definition sourceOf (s : Subscription) : string :=
  match s with
  | CtxOn k _ _ | AsyncOn k _ _ _ | Watch k _ _ => k
  end.

(** [l ? ctxObj.get(l) || globalObj.get(l) || ctx : ctx] *)
Definition rootOf (l : string) : val :=
  if negb (String.eqb l "") then
    if truthy (ctxGet l) then ctxGet l
    else if truthy (globalGet l) then globalGet l
    else ctx
  else ctx.

(** The body of the outer loop for one key of [meta.watchers]. *)
Definition bindKey (hook : string) (key : string) (watchers : option (list W))
    : list Subscription :=
  let isBeforeCreate := String.eqb hook "beforeCreate" in
  let isCreated := String.eqb hook "created" in
  let isMounted := String.eqb hook "mounted" in
  let customWatcher := customWatcherRgxp key in
  let '(onBeforeCreate, onMounted, root, key') :=
    match customWatcher with
    | Some (m, l, rest) =>
        (String.eqb m "!", String.eqb m "?", rootOf l,
         if negb (String.eqb l "") then rest else dasherize rest)
    | None => (false, false, ctx, key)
    end in
  match watchers with
  | Some ws =>
      if isBeforeCreate && negb onBeforeCreate
         || isCreated && (onMounted || onBeforeCreate)
         || isMounted && negb onMounted
      then []
      else
        (λ el,
           match customWatcher with
           | Some _ =>
               if bool_decide (root = ctx) && negb ctxIsEmitter
               then CtxOn key key' el
               else AsyncOn key root key' el
           | None => Watch key key' el
           end) <$> ws
  | None => []
  end.

(** [bindWatchers(ctx, eventCtx)]: the subscriptions it asks for, in
    order, given [ctx.hook] and [ctx.meta.watchers]. *)
Definition bindWatchers (hook : string)
    (watchers : list (string * option (list W))) : list Subscription :=
  if negb (attachStage hook) then []
  else watchers ≫= (λ '(key, ws), bindKey hook key ws).

Definition watcherOf (s : Subscription) : W :=
  match s with
  | CtxOn _ _ el | AsyncOn _ _ _ el | Watch _ _ el => el
  end.

End WithContext.

(** *** Vocabulary of the properties *)

(** The marker of a key of [meta.watchers]: [None] for an ordinary
    reactive watcher (the key is no custom key), else the first group of
    the match, which is "!", "?" or empty. *)
Definition markerOf (key : string) : option string :=
  match customWatcherRgxp key with
  | Some (m, _, _) => Some m
  | None => None
  end.

(** The stage the marker stands for: "!" for [beforeCreate], "?" for
    [mounted], and [created] for every other key. *)
Definition stageOf (key : string) : string :=
  match markerOf key with
  | Some m =>
      if String.eqb m "!" then "beforeCreate"
      else if String.eqb m "?" then "mounted"
      else "created"
  | None => "created"
  end.

End Watchers.

(** ** Sample inputs *)

Module Samples.

Import Fields.

(** A field without [init] callback. *)
Definition plain (dflt : val) (aft : list string) (a : bool) : ComponentField :=
  {| default := dflt; init := None; after := aft; atom := a |}.

(** Three atoms and, declared between two of them, a field with a
    default only: [c], [a] after [c], [x], [b] after [c]. *)
Definition interleaved : list (string * ComponentField) :=
  [("c", plain (VNum 0) [] true);
   ("a", plain (VNum 0) ["c"] true);
   ("x", plain (VNum 1) [] false);
   ("b", plain (VNum 0) ["c"] true)].

Definition interleavedRank (key : string) : nat :=
  if String.eqb key "c" then 0 else 1.

(** Two fields that await each other. *)
Definition cyclic : list (string * ComponentField) :=
  [("a", plain (VNum 0) ["b"] false);
   ("b", plain (VNum 0) ["a"] false)].

(** A field that awaits an undeclared name. *)
Definition ghost : ComponentField := plain (VNum 0) ["ghost"] false.

Definition awaitsGhost : list (string * ComponentField) := [("x", ghost)].

(** The undeclared name comes second, after a field that itself waits. *)
Definition ghostSecond : ComponentField := plain (VNum 0) ["b"; "ghost"] false.

Definition ghostBehindCycle : list (string * ComponentField) :=
  [("a", ghostSecond); ("b", plain (VNum 0) ["a"] false)].

(** A field that awaits [constructor], a name that is declared nowhere
    and that every object literal answers. *)
Definition awaitsConstructor : list (string * ComponentField) :=
  [("x", plain (VNum 0) ["constructor"] false)].

(** An atom whose callback gives the data object a property [x], and the
    field [x], which awaits an undeclared name. *)
Definition provider : ComponentField :=
  {| default := VNum 0;
     init := Some (λ d, InitReturn VUndefined (<["x" := VNum 1]> d));
     after := [];
     atom := true |}.

Definition ghostProvided : list (string * ComponentField) :=
  [("x", ghost); ("p", provider)].

(** An atom that awaits a field with an [init] callback, declared before
    a field that has a default only. *)
Definition hasty : ComponentField := plain VUndefined ["n"] true.

Definition computed : ComponentField :=
  {| default := VUndefined;
     init := Some (λ d, InitReturn (VNum 7) d);
     after := [];
     atom := false |}.

Definition atomAwaitsPlain : list (string * ComponentField) :=
  [("x", hasty); ("n", computed); ("d", plain (VNum 1) [] false)].

(** A clone is another object: a reference is moved to another location. *)
Definition cloneElsewhere (v : val) : val :=
  match v with
  | VRef l => VRef (l + 100)%positive
  | _ => v
  end.

(** A field whose default is an object and whose [init] returns
    [undefined]. *)
Definition silent : ComponentField :=
  {| default := VRef 1%positive;
     init := Some (λ d, InitReturn VUndefined d);
     after := [];
     atom := false |}.

Definition objectDefault : list (string * ComponentField) := [("f", silent)].

(** A field whose [init] sets the property of the field on the data
    object it is given and returns [undefined]. *)
Definition selfSetting : ComponentField :=
  {| default := VNum 5;
     init := Some (λ d, InitReturn VUndefined (<["f" := VNum 7]> d));
     after := [];
     atom := false |}.

Definition setsItself : list (string * ComponentField) := [("f", selfSetting)].

End Samples.

Module HookSamples.

Import Hooks.

Definition named (n : string) (b : Body) (aft : option loc) : HookDescriptor :=
  {| name := Some n; fn := b; after := aft |}.

(** [A] and [C] await nothing, [C] returns a promise, and [B] awaits both;
    the [Set] of [B] is the object at location 1. *)
Definition twoPredecessors : list HookDescriptor :=
  [named "A" Plain None; named "C" Deferred None;
   named "B" Plain (Some 1%positive)].

Definition twoPredecessorsWorld : World :=
  fresh_world {[ 1%positive := ["A"; "C"] ]}.

(** The hooks of the specification's scenario: [A] awaits nothing, [B]
    and [C] await [A]; the body of [A] is [body]. *)
Definition fanOut (body : Body) : list HookDescriptor :=
  [named "A" body None; named "B" Plain (Some 1%positive);
   named "C" Plain (Some 2%positive)].

Definition fanOutWorld : World :=
  fresh_world {[ 1%positive := ["A"]; 2%positive := ["A"] ]}.

(** A callback that returns its first argument. *)
Definition stderr : Callback :=
  {| cb_id := "stderr";
     cb_run := λ args, Return (match args with v :: _ => v | [] => VUndefined end) |}.

End HookSamples.

Module MetaSamples.

Import Meta.

(** A parent meta object at location 1, with one [created] hook list, one
    watcher list for [foo], and a [props] dictionary. *)
Definition parentHeap : gmap loc Cell :=
  {[ 1%positive := Obj None [("hooks", VRef 2%positive);
                             ("watchers", VRef 3%positive);
                             ("props", VRef 6%positive)];
     2%positive := Obj None [("created", VRef 4%positive)];
     3%positive := Obj None [("foo", VRef 5%positive)];
     4%positive := Arr [VStr "onCreated"];
     5%positive := Arr [VStr "onFoo"];
     6%positive := Obj None [("value", VNum 1)] ]}.

(** The child [createMeta] returns for it, and the heap it leaves. *)
Definition child : loc :=
  match createMeta 1 parentHeap 1%positive with
  | Some (m, _) => m
  | None => 1%positive
  end.

Definition childHeap : gmap loc Cell :=
  match createMeta 1 parentHeap 1%positive with
  | Some (_, h) => h
  | None => ∅
  end.

(** The heap after [child.hooks.created.push("extra")]. *)
Definition pushedHeap : gmap loc Cell :=
  match pushAt 2 childHeap child "hooks" "created" (VStr "extra") with
  | Some h => h
  | None => ∅
  end.

(** The heap after [parent.hooks.created.push("late")], the child being
    there already. *)
Definition parentPushedHeap : gmap loc Cell :=
  match pushAt 1 childHeap 1%positive "hooks" "created" (VStr "late") with
  | Some h => h
  | None => ∅
  end.

End MetaSamples.

Module WatcherSamples.

Import Watchers.

(** Keys of every kind, with watcher descriptors numbered 1 to 4: an
    ordinary reactive key, a key deferred to [mounted] on the object
    [remote], a key to bind at [beforeCreate], an unmarked custom key,
    and a key without watcher list. *)
Definition watchers : list (string * option (list nat)) :=
  [("foo", Some [1]);
   ("?remote:path.to.value", Some [2]);
   ("!:ready", Some [3]);
   ("bar:event", Some [4]);
   ("gone", None)].

(** The event context resolves [remote] to the object at location 2. *)
Definition lookupRemote (l : string) : val :=
  if String.eqb l "remote" then VRef 2%positive else VUndefined.

(** [bindWatchers] for a context at location 1 that is no emitter. *)
Definition bind (hook : string) (ws : list (string * option (list nat)))
    : list (Subscription (W:=nat)) :=
  bindWatchers (VRef 1%positive) lookupRemote (λ _, VUndefined)
    (λ str, str) false hook ws.

End WatcherSamples.

(** ** Further vocabulary and samples *)

Module MoreSamples.

Import Fields.

(** The specification's scenario, declared dependent first: [b] is
    computed from [a], which has a default only. *)
Definition successor : ComponentField :=
  {| default := VUndefined;
     init := Some (λ d, InitReturn
                          (match d !! "a" with
                           | Some (VNum n) => VNum (n + 1)
                           | _ => VUndefined
                           end) d);
     after := ["a"];
     atom := false |}.

Definition chain : list (string * ComponentField) :=
  [("b", successor); ("a", Samples.plain (VNum 1) [] false)].

Definition chainRank (key : string) : nat :=
  if String.eqb key "a" then 0 else 1.

End MoreSamples.

Module HookOrder.

Import Hooks.

(** The hook emits a name drawn at random: it has no name, or an empty
    one. *)
Definition anonymous (el : HookDescriptor) : bool :=
  match name el with
  | Some n => String.eqb n ""
  | None => true
  end.

(** The body of the hook returns a promise. *)
Definition deferred (el : HookDescriptor) : bool :=
  match fn el with
  | Deferred => true
  | Plain => false
  end.

(** The completion of [elj] can start [el]: the name [elj] emits is
    drawn at random, or it is one of the names [el] awaits in the world
    [w]. *)
Definition mayRelease (w : World) (elj el : HookDescriptor) : Prop :=
  anonymous elj = true ∨ ∃ n, name elj = Some n ∧ n ∈ awaited w el.

(** Every hook of the trace [t] that awaits something in the world [w]
    starts after the completion of a hook that can start it. *)
Definition gated (hooks : list HookDescriptor) (w : World)
    (t : list Event) : Prop :=
  ∀ k i el, t !! k = Some (Start i) → hooks !! i = Some el →
            awaited w el ≠ [] →
            ∃ k' j elj, k' < k ∧ t !! k' = Some (Done j)
                        ∧ hooks !! j = Some elj ∧ mayRelease w elj el.

(** Hook number [i] may start at the end of the trace [t]: if it awaits
    something in the world [w], a hook that can start it has completed
    in [t]. *)
Definition released (hooks : list HookDescriptor) (w : World)
    (t : list Event) (i : nat) : Prop :=
  ∀ el, hooks !! i = Some el → awaited w el ≠ [] →
        ∃ k' j elj, t !! k' = Some (Done j)
                    ∧ hooks !! j = Some elj ∧ mayRelease w elj el.

(** What is required of a callback: from a gated trace, for a hook that
    may start, it extends the trace to a gated one. *)
Definition keepsGated (hooks : list HookDescriptor) (w0 : World)
    (run : nat → World → option (World * bool)) : Prop :=
  ∀ i w w' b, run i w = Some (w', b) →
    gated hooks w0 (trace w) → released hooks w0 (trace w) i →
    gated hooks w0 (trace w') ∧ ∃ ext, trace w' = trace w ++ ext.

(** What hook number [i] adds to the trace when it is fired from the
    queue and nothing awaits it. *)
Definition firedEvents (hooks : list HookDescriptor) (i : nat) : list Event :=
  match hooks !! i with
  | Some el => if deferred el then [Start i] else [Start i; Done i]
  | None => []
  end.

(** The hook numbers of [ids] whose body returns a promise. *)
Definition deferredAt (hooks : list HookDescriptor) (i : nat) : bool :=
  match hooks !! i with
  | Some el => deferred el
  | None => false
  end.

Definition deferredOf (hooks : list HookDescriptor) (ids : list nat) : list nat :=
  filter (λ i, deferredAt hooks i = true) ids.

(** The promises of the hooks [ids] are fulfilled, one after the other. *)
Fixpoint settleAll (random : nat → string) (fuel : nat)
    (hooks : list HookDescriptor) (e : Emitter) (ids : list nat) (w : World)
    : option World :=
  match ids with
  | [] => Some w
  | i :: rest =>
      match settle random fuel hooks e i w with
      | Some (w', _) => settleAll random fuel hooks e rest w'
      | None => None
      end
  end.

End HookOrder.

Module WatcherKeys.

(** The watchers of [meta.watchers], each with the key it is declared
    under, in order. *)
Definition entries {W : Type} (watchers : list (string * option (list W)))
    : list (string * W) :=
  watchers ≫= (λ '(key, ws), (λ el, (key, el)) <$> default [] ws).

End WatcherKeys.

Module HookRuns.

Import Hooks.

(** The emitter and the world an invocation returns. *)
Definition emitterOf (o : Outcome) : Emitter :=
  match o with
  | Returned _ e _ => e
  | _ => {| queue := []; events := ∅ |}
  end.

Definition worldOf (o : Outcome) : World :=
  match o with
  | Returned _ _ w => w
  | _ => fresh_world ∅
  end.

Definition signalOf' (o : Outcome) : Signal :=
  match o with
  | Returned sig _ _ => sig
  | _ => PromiseSignal
  end.

(** Two hooks that await nothing; the second returns a promise. *)
Definition independent : list HookDescriptor :=
  [HookSamples.named "A" Plain None; HookSamples.named "C" Deferred None].

(** The invocation of [HookSamples.twoPredecessors], and the world after
    the promise of [C] has been fulfilled. *)
Definition twoPredecessorsRun : Outcome :=
  runHook (λ _, "0.5") 4 "created"
    {[ "created" := HookSamples.twoPredecessors ]}
    HookSamples.twoPredecessorsWorld.

Definition twoPredecessorsSettled : World :=
  default (worldOf twoPredecessorsRun)
    (HookOrder.settleAll (λ _, "0.5") 4 HookSamples.twoPredecessors
       (emitterOf twoPredecessorsRun) [1] (worldOf twoPredecessorsRun)).

(** [B] awaits [Z], a name that no hook of the stage carries. *)
Definition unknownPredecessor : list HookDescriptor :=
  [HookSamples.named "A" Plain None;
   HookSamples.named "B" Plain (Some 1%positive)].

Definition unknownPredecessorWorld : World :=
  fresh_world {[ 1%positive := ["Z"] ]}.

Definition unknownPredecessorRun : Outcome :=
  runHook (λ _, "0.5") 4 "created"
    {[ "created" := unknownPredecessor ]} unknownPredecessorWorld.

(** A callback that throws. *)
Definition thrower : Callback :=
  {| cb_id := "thrower"; cb_run := λ _, Throw (VStr "boom") |}.

End HookRuns.

(** * Part II. Properties *)

(** ** Dictionaries in key order *)

Lemma assoc_Some_elem {A : Type} (o : list (string * A)) key v :
  assoc o key = Some v → key ∈ o.*1.
Proof.
  induction o as [|[k x] o IH]; simpl; [done|].
  destruct (String.eqb_spec k key) as [->|Hne].
  - intros _. apply list_elem_of_here.
  - intros H. apply list_elem_of_further. by apply IH.
Qed.

(** ** Field initializer *)

Lemma assoc_Some_pair {A : Type} (o : list (string * A)) key v :
  assoc o key = Some v → (key, v) ∈ o.
Proof.
  induction o as [|[k x] o IH]; simpl; [done|].
  destruct (String.eqb_spec k key) as [->|Hne].
  - intros [= ->]. apply list_elem_of_here.
  - intros H. apply list_elem_of_further. by apply IH.
Qed.

Lemma assoc_elem_Some {A : Type} (o : list (string * A)) key :
  key ∈ o.*1 → is_Some (assoc o key).
Proof.
  induction o as [|[k x] o IH]; simpl; [by intros ?%elem_of_nil|].
  destruct (String.eqb_spec k key) as [->|Hne]; [by eexists|].
  intros [?|?]%elem_of_cons; [done|by apply IH].
Qed.

Section FieldsFacts.

Import Fields.

Variable env : Env.
Variable fields : list (string * ComponentField).
Variable instance : gmap string val.

Abbreviation inData := (inData env).
Abbreviation scanAfter := (scanAfter env fields).
Abbreviation visit := (visit env fields instance).
Abbreviation sweep := (sweep env fields instance).
Abbreviation sweepLoop fuel := (sweepLoop env fuel fields instance).
Abbreviation Visited := (Visited env fields instance).
Abbreviation passes := (passes env fields).
Abbreviation refuses := (refuses env fields).

Lemma buildFieldList_elem (key : string) :
  key ∈ buildFieldList env fields instance ↔ key ∈ fields.*1.
Proof.
  unfold buildFieldList.
  assert (G : ∀ (fs : list (string * ComponentField)) acc,
    key ∈ fold_left
      (λ fieldList '(key, el),
         if sortsFirst env instance key el then key :: fieldList
         else fieldList ++ [key]) fs acc
    ↔ key ∈ acc ∨ key ∈ fs.*1).
  { induction fs as [|[k el] fs IH]; intros acc; simpl.
    - set_solver.
    - rewrite IH. destruct (sortsFirst env instance k el); set_solver. }
  rewrite G. set_solver.
Qed.

(** *** The data object and its chain *)

Lemma inData_lookup (d d' : gmap string val) k :
  d' !! k = d !! k → inData d' k = inData d k.
Proof. unfold Fields.inData, has. by intros ->. Qed.

Lemma inData_insert (d : gmap string val) k v k' :
  inData (<[k := v]> d) k' = true ↔ k' = k ∨ inData d k' = true.
Proof.
  unfold Fields.inData, has. rewrite !orb_true_iff, !bool_decide_eq_true.
  destruct (decide (k' = k)) as [->|Hne].
  - rewrite lookup_insert_eq. split; [by left|]. intros _. left. by eexists.
  - rewrite lookup_insert_ne by done. naive_solver.
Qed.

Lemma inData_dom (d : gmap string val) k : k ∈ dom d → inData d k = true.
Proof.
  intros Hk. unfold Fields.inData, has. apply orb_true_iff. left.
  apply bool_decide_eq_true. by apply elem_of_dom.
Qed.

Lemma inData_false (d : gmap string val) k :
  inData d k = false ↔ d !! k = None ∧ dataInherits env k = None.
Proof.
  unfold Fields.inData, has. rewrite orb_false_iff, !bool_decide_eq_false.
  rewrite <- !eq_None_not_Some. done.
Qed.

Lemma inData_mono (d d' : gmap string val) k :
  d ⊆ d' → inData d k = true → inData d' k = true.
Proof.
  unfold Fields.inData, has. rewrite !orb_true_iff, !bool_decide_eq_true.
  intros Hsub [[v Hv]|Hk]; [left|by right].
  exists v. by eapply lookup_weaken.
Qed.

(** *** One visit *)

Lemma visit_inv key s s' : visit key s = inr s' → Visited key s s'.
Proof.
  unfold Fields.visit. destruct (Fields.inData env (data s) key) eqn:Hin.
  { intros [= <-]. by apply VisitPresent. }
  destruct (assoc fields key) as [el|] eqn:Hel; [|done].
  destruct (Fields.scanAfter env fields (data s) key el (after el)) eqn:Hscan;
    [| |done].
  - assert (Hblock : initField env instance key el s = inr s' → Visited key s s').
    { unfold initField.
      destruct (initCall el (atCall env key (data s))) as [v d|x d] eqn:Hcall;
        [|done].
      intros [= <-]. by eapply VisitInit. }
    destruct (atom el) eqn:Hatom; simpl; [done|].
    case_bool_decide as Hsz; simpl; [done|].
    intros [= <-]. by eapply VisitHeld.
  - intros [= <-]. by eapply VisitWaiting.
Qed.

Lemma visit_initialised key s s' :
  visit key s = inr s' →
  initialised s' = initialised s ∨ initialised s' = initialised s ++ [key].
Proof.
  intros Hv.
  destruct (visit_inv _ _ _ Hv) as [? ->|el ? ? ? ->|el ? ? ? ? ? ->|el v d ? ? ? ? ->];
    auto.
Qed.

Lemma sweep_initialised fieldList s s' :
  sweep fieldList s = inr s' → ∃ l, initialised s' = initialised s ++ l.
Proof.
  revert s. induction fieldList as [|key rest IH]; intros s; simpl.
  - intros [= <-]. exists []. by rewrite app_nil_r.
  - destruct (visit key s) as [[e se]|s1] eqn:Hv; [done|]. intros Hs.
    destruct (IH _ Hs) as [l Hl]. rewrite Hl.
    destruct (visit_initialised _ _ _ Hv) as [->| ->].
    + by exists l.
    + exists ([key] ++ l). by rewrite <- app_assoc.
Qed.

(** *** Sweeps that initialise nothing *)

Lemma visit_idle key s s1 :
  visit key s = inr s1 → initialised s1 = initialised s →
  data s1 = data s ∧ queue s ⊆ queue s1 ∧ atomQueue s ⊆ atomQueue s1 ∧
  ∀ t, data t = data s → queue s1 ⊆ queue t → atomQueue s1 ⊆ atomQueue t →
       visit key t = inr t.
Proof.
  intros Hv Hi.
  destruct (visit_inv _ _ _ Hv)
    as [Hin ->|el Hnot Hel Hscan ->|el Hnot Hel Hscan Hatom Hsz ->
        |el v d Hnot Hel Hscan Hcall ->].
  - split_and!; [done..|]. intros t Ht _ _.
    unfold Fields.visit. by rewrite Ht, Hin.
  - simpl. split_and!; [done|set_solver|destruct (atom el); set_solver|].
    intros t Ht Hq Ha. unfold Fields.visit. rewrite Ht, Hnot, Hel.
    rewrite Hscan.
    f_equal. destruct t as [td tq ta tf ti]; simpl in *. subst td. f_equal.
    + set_solver.
    + destruct (atom el); [set_solver|done].
  - split_and!; [done..|]. intros t Ht _ Ha.
    unfold Fields.visit. rewrite Ht, Hnot, Hel.
    rewrite Hscan, Hatom. simpl.
    rewrite bool_decide_eq_false_2; [done|].
    intros Hz. apply Hsz. apply size_empty_iff. apply size_empty_iff in Hz.
    set_solver.
  - simpl in Hi. apply (f_equal length) in Hi. rewrite length_app in Hi.
    simpl in Hi. lia.
Qed.

Lemma sweep_idle fieldList s s' :
  sweep fieldList s = inr s' → initialised s' = initialised s →
  data s' = data s ∧ queue s ⊆ queue s' ∧ atomQueue s ⊆ atomQueue s' ∧
  ∀ t, data t = data s → queue s' ⊆ queue t → atomQueue s' ⊆ atomQueue t →
       sweep fieldList t = inr t.
Proof.
  revert s. induction fieldList as [|key rest IH]; intros s; simpl.
  - intros [= <-] _. done.
  - destruct (visit key s) as [[e se]|s1] eqn:Hv; [done|]. intros Hs Hi.
    assert (Hi1 : initialised s1 = initialised s).
    { destruct (visit_initialised _ _ _ Hv) as [H1|H1]; [done|].
      destruct (sweep_initialised _ _ _ Hs) as [l Hl].
      rewrite Hl, H1 in Hi. apply (f_equal length) in Hi.
      rewrite !length_app in Hi. simpl in Hi. lia. }
    destruct (visit_idle _ _ _ Hv Hi1) as (Hd1 & Hq1 & Ha1 & Hfix1).
    destruct (IH s1 Hs) as (Hd2 & Hq2 & Ha2 & Hfix2); [congruence|].
    split_and!; [congruence|set_solver|set_solver|].
    intros t Ht Hq Ha. rewrite Hfix1; [|done|set_solver|set_solver].
    apply Hfix2; [congruence|done|done].
Qed.

(** A sweep during which no block runs while a queue is not empty is
    repeated without end. *)
Lemma sweepLoop_stalled fieldList s s' :
  sweep fieldList s = inr s' → initialised s' = initialised s →
  size (queue s') ≠ 0 ∨ size (atomQueue s') ≠ 0 →
  ∀ fuel, sweepLoop fuel fieldList s = OutOfFuel.
Proof.
  intros Hs Hi Hne.
  destruct (sweep_idle _ _ _ Hs Hi) as (Hd & _ & _ & Hfix).
  assert (Hs' : sweep fieldList s' = inr s') by (by apply Hfix).
  assert (Hgo : bool_decide (size (atomQueue s') = 0)
                && bool_decide (size (queue s') = 0) = false).
  { destruct Hne.
    - rewrite (bool_decide_eq_false_2 (size (queue s') = 0)) by done.
      by rewrite andb_false_r.
    - by rewrite (bool_decide_eq_false_2 (size (atomQueue s') = 0)) by done. }
  assert (Hloop : ∀ fuel, sweepLoop fuel fieldList s' = OutOfFuel).
  { induction fuel as [|fuel IH]; simpl; [done|]. by rewrite Hs', Hgo. }
  intros [|fuel]; simpl; [done|]. by rewrite Hs, Hgo.
Qed.

Lemma afterSweeps_fuel n fieldList s t fuel :
  afterSweeps env n fields instance fieldList s = Some t →
  (∀ k, sweepLoop k fieldList t = OutOfFuel) →
  sweepLoop fuel fieldList s = OutOfFuel.
Proof.
  revert s fuel. induction n as [|n IH]; intros s fuel; simpl.
  - intros [= ->] Ht. apply Ht.
  - destruct (sweep fieldList s) as [[e se]|s'] eqn:Hs; [done|].
    destruct (_ && _) eqn:Hb; [done|]. intros Hn Ht.
    destruct fuel as [|fuel]; simpl; [done|]. rewrite Hs, Hb. by eapply IH.
Qed.

(** *** Sweeps that throw *)

Lemma scanAfter_passes d key el pre rest :
  Forall (passes d el) pre →
  scanAfter d key el (pre ++ rest) = scanAfter d key el rest.
Proof.
  induction 1 as [|n pre (a & Hn & Hok & Hin) _ IH]; simpl; [done|].
  by rewrite Hn, Hok, Hin.
Qed.

(** The visit of a field that is not in [data] throws as soon as its
    scan comes to a name that refuses it. *)
Lemma visit_throws x el w pre post s :
  assoc fields x = Some el → after el = pre ++ w :: post →
  refuses el w → inData (data s) x = false →
  Forall (passes (data s) el) pre →
  visit x s
  = inl (match fieldsGet env fields w with
         | None => FieldNotDefined w
         | Some _ => AtomWaitsNonAtom x w
         end, s).
Proof.
  intros Hx Hafter Href Hnot Hpre. unfold Fields.visit.
  rewrite Hnot, Hx, Hafter.
  rewrite scanAfter_passes by done. simpl. unfold Fields.refuses in Href.
  destruct (fieldsGet env fields w) as [a|]; [|done]. by rewrite Href.
Qed.

Lemma sweep_app l1 l2 s :
  sweep (l1 ++ l2) s
  = match sweep l1 s with
    | inl err => inl err
    | inr s1 => sweep l2 s1
    end.
Proof.
  revert s. induction l1 as [|key l1 IH]; intros s; simpl; [done|].
  destruct (visit key s) as [[e se]|s1]; [done|]. apply IH.
Qed.

(** A sweep that throws, after [n] sweeps that have neither thrown nor
    reached the [break], is the end of the call. *)
Lemma afterSweeps_threw n fieldList s s0 e st fuel :
  afterSweeps env n fields instance fieldList s = Some s0 →
  sweep fieldList s0 = inl (e, st) → n < fuel →
  sweepLoop fuel fieldList s = Threw e (data st).
Proof.
  revert s fuel. induction n as [|n IH]; intros s fuel; simpl.
  - intros [= ->] Hs Hlt. destruct fuel as [|fuel]; [lia|]. simpl.
    by rewrite Hs.
  - destruct (sweep fieldList s) as [[e' se]|s'] eqn:Hs; [done|].
    destruct (_ && _) eqn:Hb; [done|]. intros Hn Ht Hlt.
    destruct fuel as [|fuel]; [lia|]. simpl. rewrite Hs, Hb.
    apply IH; [done|done|lia].
Qed.

(** The sweep throws where the visit of [x] does. *)
Lemma sweep_throws_at l1 x l2 s0 s e :
  sweep l1 s0 = inr s → visit x s = inl e →
  sweep (l1 ++ x :: l2) s0 = inl e.
Proof. intros H1 Hx. rewrite sweep_app, H1. simpl. by rewrite Hx. Qed.

(** *** The entry of one field *)

Lemma scanAfter_satisfied d key el names :
  scanAfter d key el names = Satisfied →
  Forall (λ w, inData d w = true) names.
Proof.
  induction names as [|n names IH]; simpl; [by constructor|].
  destruct (fieldsGet env fields n) as [a|]; [|done].
  destruct (atom el && negb a); [done|].
  destruct (Fields.inData env d n) eqn:Hn; [|done].
  intros Hrest. constructor; [done|by apply IH].
Qed.

Lemma initCall_leaveAlone key k el d :
  leaveAlone fields key → assoc fields k = Some el → k ≠ key →
  match initCall el d with
  | InitReturn _ d' | InitThrow _ d' => d' !! key = d !! key
  end.
Proof.
  intros Halone Hel Hne. unfold initCall.
  destruct (init el) as [f|] eqn:Hf; [|done].
  apply (Halone k el f d); [by apply assoc_Some_pair|done|done].
Qed.

Lemma atCall_other key k (d : gmap string val) :
  (ctxIsData env = true → key ≠ "$activeField") →
  atCall env k d !! key = d !! key.
Proof.
  intros Hkey. unfold atCall. destruct (ctxIsData env); [|done].
  rewrite lookup_insert_ne; [done|]. intros Heq. by apply Hkey.
Qed.

Lemma store_other key k el v (d : gmap string val) :
  k ≠ key → store env instance k el v d !! key = d !! key.
Proof.
  intros Hne. unfold store.
  destruct (is_undefined v); [destruct (is_undefined _)|];
    by rewrite ?lookup_insert_ne.
Qed.

Section Entry.

Variable key : string.
Variable el : ComponentField.
Variable P : option val → Prop.

Hypothesis declared : assoc fields key = Some el.
Hypothesis not_active : ctxIsData env = true → key ≠ "$activeField".
Hypothesis alone : leaveAlone fields key.
Hypothesis block :
  ∀ d v d2, inData d key = false →
    scanAfter d key el (after el) = Satisfied →
    initCall el (atCall env key d) = InitReturn v d2 →
    P (store env instance key el v d2 !! key).

Lemma visit_entry_inv k s s' :
  visit k s = inr s' →
  inData (data s) key = false ∨ P (data s !! key) →
  inData (data s') key = false ∨ P (data s' !! key).
Proof.
  intros Hv Hinv.
  destruct (visit_inv _ _ _ Hv)
    as [Hin ->|el' Hnot Hel Hscan ->|el' Hnot Hel Hscan Hatom Hsz ->
        |el' v d Hnot Hel Hscan Hcall ->]; [done..|].
  simpl. destruct (decide (k = key)) as [->|Hne].
  - right. assert (el' = el) as -> by congruence. by apply (block (data s)).
  - assert (Hsame : store env instance k el' v d !! key = data s !! key).
    { rewrite store_other by done.
      pose proof (initCall_leaveAlone key k el' (atCall env k (data s))
                    alone Hel Hne) as Hd.
      rewrite Hcall in Hd. rewrite Hd. by apply atCall_other. }
    rewrite Hsame, (inData_lookup _ _ _ Hsame). done.
Qed.

Lemma sweep_entry_inv fieldList s s' :
  sweep fieldList s = inr s' →
  inData (data s) key = false ∨ P (data s !! key) →
  inData (data s') key = false ∨ P (data s' !! key).
Proof.
  revert s. induction fieldList as [|k rest IH]; intros s; simpl.
  - by intros [= <-].
  - destruct (visit k s) as [[e se]|s1] eqn:Hv; [done|]. intros Hs Hinv.
    eapply IH; [done|]. by eapply visit_entry_inv.
Qed.

Lemma sweepLoop_entry_inv fuel fieldList s d' :
  sweepLoop fuel fieldList s = Returned d' →
  inData (data s) key = false ∨ P (data s !! key) →
  inData d' key = false ∨ P (d' !! key).
Proof.
  revert s. induction fuel as [|fuel IH]; intros s; simpl; [done|].
  destruct (sweep fieldList s) as [[e se]|s'] eqn:Hs; [done|].
  destruct (_ && _).
  - intros [= <-] Hinv. by eapply sweep_entry_inv.
  - intros Hl Hinv. eapply IH; [done|]. by eapply sweep_entry_inv.
Qed.

End Entry.

End FieldsFacts.

(** *** Callbacks that leave the data object alone *)

Section FieldsCalm.

Import Fields.

Variable env : Env.
Variable fields : list (string * ComponentField).
Variable instance : gmap string val.

Hypothesis callbacks_quiet : quiet fields.
Hypothesis ctx_apart : ctxIsData env = false.

Abbreviation inData := (inData env).
Abbreviation scanAfter := (scanAfter env fields).
Abbreviation visit := (visit env fields instance).
Abbreviation sweep := (sweep env fields instance).
Abbreviation sweepLoop fuel := (sweepLoop env fuel fields instance).

Lemma initCall_quiet key el d :
  assoc fields key = Some el → ∃ v, initCall el d = InitReturn v d.
Proof.
  intros Hel. unfold initCall. destruct (init el) as [f|] eqn:Hf.
  - apply (callbacks_quiet key el f d); [by apply assoc_Some_pair|done].
  - by eexists.
Qed.

(** The block of a field that is not in [data] adds its entry and
    nothing else. *)
Lemma store_quiet key el v (d : gmap string val) :
  Fields.inData env d key = false →
  store env instance key el v d
  = <[key := if is_undefined v then fallback env instance key el else v]> d.
Proof.
  intros [Hown Hchain]%inData_false. unfold store, dataGet, read.
  rewrite Hown, Hchain. simpl. by destruct (is_undefined v).
Qed.

(** What the block stores when the callback has returned. *)
Lemma block_calm key el v d (s : State) :
  Fields.inData env (data s) key = false → assoc fields key = Some el →
  initCall el (atCall env key (data s)) = InitReturn v d →
  store env instance key el v d
  = <[key := if is_undefined v then fallback env instance key el else v]> (data s).
Proof.
  intros Hnot Hel Hcall. unfold atCall in Hcall. rewrite ctx_apart in Hcall.
  destruct (initCall_quiet key el (data s) Hel) as [v' Hq].
  rewrite Hq in Hcall. injection Hcall as <- <-. by apply store_quiet.
Qed.

(** The cases of a visit: nothing changes but the queues, or the field,
    whose awaited names are all in [data], gets its entry. *)
Lemma visit_calm key s s' :
  visit key s = inr s' →
  data s' = data s
  ∨ (inData (data s) key = false
     ∧ (∃ el, assoc fields key = Some el
              ∧ Forall (λ w, inData (data s) w = true) (after el))
     ∧ ∃ v, data s' = <[key := v]> (data s)).
Proof.
  intros Hv.
  destruct (visit_inv _ _ _ _ _ _ Hv)
    as [Hin ->|el Hnot Hel Hscan ->|el Hnot Hel Hscan Hatom Hsz ->
        |el v d Hnot Hel Hscan Hcall ->]; [by left..|].
  right. split; [done|]. split.
  { exists el. split; [done|]. by eapply scanAfter_satisfied. }
  simpl. rewrite (block_calm key el v d s) by done. by eexists.
Qed.

Lemma visit_data_mono key s s' : visit key s = inr s' → data s ⊆ data s'.
Proof.
  intros Hv. destruct (visit_calm _ _ _ Hv) as [->|(Hnot & _ & v & ->)]; [done|].
  apply insert_subseteq. by apply inData_false in Hnot as [? _].
Qed.

Lemma sweep_data_mono fieldList s s' :
  sweep fieldList s = inr s' → data s ⊆ data s'.
Proof.
  revert s. induction fieldList as [|key rest IH]; intros s; simpl.
  - by intros [= <-].
  - destruct (visit key s) as [[e se]|s1] eqn:Hv; [done|].
    intros H. etrans; [by eapply visit_data_mono|by apply IH].
Qed.

Lemma sweepLoop_data_mono fuel fieldList s d' :
  sweepLoop fuel fieldList s = Returned d' → data s ⊆ d'.
Proof.
  revert s. induction fuel as [|fuel IH]; intros s; simpl; [done|].
  destruct (sweep fieldList s) as [[e se]|s'] eqn:Hs; [done|].
  pose proof (sweep_data_mono _ _ _ Hs).
  destruct (_ && _).
  - by intros [= <-].
  - intros H'. etrans; [done|by apply IH].
Qed.

(** A sweep that leaves the data object as it was has run no block. *)
Lemma sweep_same_data fieldList s s' :
  sweep fieldList s = inr s' → data s' = data s →
  initialised s' = initialised s.
Proof.
  revert s. induction fieldList as [|key rest IH]; intros s; simpl.
  - by intros [= <-].
  - destruct (visit key s) as [[e se]|s1] eqn:Hv; [done|]. intros Hs Hd.
    assert (Hd1 : data s1 = data s).
    { apply (anti_symm (⊆)).
      - rewrite <- Hd. by eapply sweep_data_mono.
      - by eapply visit_data_mono. }
    rewrite (IH _ Hs) by congruence.
    destruct (visit_inv _ _ _ _ _ _ Hv)
      as [Hin ->|el Hnot Hel Hscan ->|el Hnot Hel Hscan Hatom Hsz ->
          |el v d Hnot Hel Hscan Hcall ->]; [done..|].
    exfalso. simpl in Hd1. rewrite (block_calm key el v d s) in Hd1 by done.
    apply inData_false in Hnot as [Hown _].
    apply (f_equal (λ m : gmap string val, m !! key)) in Hd1.
    rewrite lookup_insert_eq in Hd1. congruence.
Qed.

(** An entry a sweep adds is that of a declared field whose awaited
    names were all in [data] when it was added. *)
Lemma sweep_entry fieldList s s' k :
  sweep fieldList s = inr s' →
  inData (data s) k = false → inData (data s') k = true →
  ∃ el d, assoc fields k = Some el ∧ data s ⊆ d ∧ d ⊆ data s'
    ∧ inData d k = false ∧ Forall (λ w, inData d w = true) (after el).
Proof.
  revert s. induction fieldList as [|key rest IH]; intros s; simpl.
  - intros [= <-] ? ?. congruence.
  - destruct (visit key s) as [[e se]|s1] eqn:Hv; [done|]. intros Hs Hnot Hin.
    destruct (Fields.inData env (data s1) k) eqn:Hin1.
    + destruct (visit_calm _ _ _ Hv) as [Heq|(Hnotk & (el & Hel & Hdeps) & v & Heq)].
      { rewrite Heq in Hin1. congruence. }
      rewrite Heq in Hin1. apply inData_insert in Hin1 as [->|Hin1]; [|congruence].
      exists el, (data s). split_and!; [done|done| |done|done].
      etrans; [by eapply visit_data_mono|by eapply sweep_data_mono].
    + destruct (IH _ Hs Hin1 Hin) as (el & d & ? & ? & ? & ? & ?).
      exists el, d. split_and!; try done.
      etrans; [by eapply visit_data_mono|done].
Qed.

Lemma sweepLoop_entry fuel fieldList s d' k :
  sweepLoop fuel fieldList s = Returned d' →
  inData (data s) k = false → inData d' k = true →
  ∃ el d, assoc fields k = Some el ∧ data s ⊆ d ∧ d ⊆ d'
    ∧ inData d k = false ∧ Forall (λ w, inData d w = true) (after el).
Proof.
  revert s. induction fuel as [|fuel IH]; intros s; simpl; [done|].
  destruct (sweep fieldList s) as [[e se]|s'] eqn:Hs; [done|].
  destruct (_ && _).
  - intros [= <-] Hnot Hin. by eapply sweep_entry.
  - intros Hl Hnot Hin.
    destruct (Fields.inData env (data s') k) eqn:Hin1.
    + destruct (sweep_entry _ _ _ _ Hs Hnot Hin1) as (el & d & ? & ? & ? & ? & ?).
      exists el, d. split_and!; try done.
      etrans; [done|by eapply sweepLoop_data_mono].
    + destruct (IH _ Hl Hin1 Hin) as (el & d & ? & ? & ? & ? & ?).
      exists el, d. split_and!; try done.
      etrans; [by eapply sweep_data_mono|done].
Qed.

(** *** Valid dependency graphs *)

Variable rank : string → nat.
Hypothesis ranked :
  ∀ key el w, (key, el) ∈ fields → w ∈ after el →
    ∃ waitField, assoc fields w = Some waitField
                 ∧ rank w < rank key
                 ∧ (atom el = true → atom waitField = true).

(** The scan of a declared field never throws, and it succeeds once
    every awaited field is in [data]. *)
Lemma scanAfter_valid d key el names :
  (key, el) ∈ fields → names ⊆ after el →
  (∀ e, scanAfter d key el names ≠ Raised e)
  ∧ (Forall (λ w, inData d w = true) names →
     scanAfter d key el names = Satisfied).
Proof.
  intros Hel. induction names as [|w names IH]; intros Hsub; simpl; [done|].
  destruct (ranked key el w Hel) as (wf & Hwf & _ & Hatom); [set_solver|].
  unfold fieldsGet. rewrite Hwf.
  assert (atom el && negb (atom wf) = false) as ->.
  { destruct (atom el); [by rewrite Hatom|done]. }
  destruct IH as [IH1 IH2]; [set_solver|].
  split.
  - intros e. destruct (Fields.inData env d w); [apply IH1|done].
  - intros [Hw Hnames]%Forall_cons. by rewrite Hw, IH2.
Qed.

Lemma visit_valid key s :
  key ∈ fields.*1 → ∃ s', visit key s = inr s'.
Proof.
  intros [el Hel]%assoc_elem_Some. unfold Fields.visit.
  destruct (Fields.inData env (data s) key); [by eexists|]. rewrite Hel.
  destruct (scanAfter_valid (data s) key el (after el)) as [Hno _];
    [by apply assoc_Some_pair|done|].
  destruct (Fields.scanAfter _ _ _ _ _ _) as [| |e];
    [|by eexists|by destruct (Hno e)].
  assert (Hblock : ∃ s', initField env instance key el s = inr s').
  { unfold initField.
    destruct (initCall_quiet key el (atCall env key (data s)) Hel) as [v ->].
    by eexists. }
  destruct (_ || _); [done|by eexists].
Qed.

Lemma sweep_valid fieldList s :
  fieldList ⊆ fields.*1 → ∃ s', sweep fieldList s = inr s'.
Proof.
  revert s. induction fieldList as [|key rest IH]; intros s Hsub; simpl.
  - by eexists.
  - destruct (visit_valid key s) as [s1 ->]; [set_solver|].
    apply IH. set_solver.
Qed.

Lemma visit_queuesPending key s s' :
  visit key s = inr s' →
  queuesPending env fields s → queuesPending env fields s'.
Proof.
  intros Hv [Hq Ha].
  destruct (visit_inv _ _ _ _ _ _ Hv)
    as [Hin ->|el Hnot Hel Hscan ->|el Hnot Hel Hscan Hatom Hsz ->
        |el v d Hnot Hel Hscan Hcall ->]; [done| |done|].
  - split; simpl.
    + intros k [->%elem_of_singleton|Hk]%elem_of_union; [by rewrite Hel|by apply Hq].
    + intros k Hk. destruct (atom el) eqn:Hatom; [|by apply Ha].
      apply elem_of_union in Hk as [->%elem_of_singleton|Hk]; [|by apply Ha].
      split; [done|by exists el].
  - destruct (visit_calm _ _ _ Hv) as [Heq|(_ & _ & v' & Heq)]; simpl in Heq;
      rewrite Heq; (split; simpl; intros k Hk;
        apply elem_of_difference in Hk as [Hk Hne]).
    + by apply Hq.
    + by apply Ha.
    + destruct (Hq k Hk) as [Hnotk Hdecl]. split; [|done].
      destruct (Fields.inData env (<[key:=v']> (data s)) k) eqn:Hin; [|done].
      apply inData_insert in Hin as [->|Hin]; [set_solver|congruence].
    + destruct (Ha k Hk) as [Hnotk Hdecl]. split; [|done].
      destruct (Fields.inData env (<[key:=v']> (data s)) k) eqn:Hin; [|done].
      apply inData_insert in Hin as [->|Hin]; [set_solver|congruence].
Qed.

Lemma sweep_queuesPending fieldList s s' :
  sweep fieldList s = inr s' →
  queuesPending env fields s → queuesPending env fields s'.
Proof.
  revert s. induction fieldList as [|key rest IH]; intros s; simpl.
  - by intros [= <-].
  - destruct (visit key s) as [[e se]|s1] eqn:Hv; [done|]. intros Hs Hinv.
    eapply IH; [done|]. by eapply visit_queuesPending.
Qed.

(** While every atom is in [data], the atomic queue stays empty. *)
Lemma visit_no_atom key s s' :
  visit key s = inr s' → noAtomPending env fields (data s) → atomQueue s = ∅ →
  noAtomPending env fields (data s') ∧ atomQueue s' = ∅.
Proof.
  intros Hv Hno Hempty. split.
  - intros k el Hk Hatom. eapply inData_mono; [by eapply visit_data_mono|].
    by eapply Hno.
  - destruct (visit_inv _ _ _ _ _ _ Hv)
      as [Hin ->|el Hnot Hel Hscan ->|el Hnot Hel Hscan Hatom Hsz ->
          |el v d Hnot Hel Hscan Hcall ->]; [done| |done|].
    + simpl. destruct (atom el) eqn:Hatom; [|done].
      rewrite (Hno key el) in Hnot; done.
    + simpl. set_solver.
Qed.

(** A field that is not in [data] and whose awaited fields all are gets
    its entry in the sweep, if it is an atom or no atom is pending. *)
Lemma sweep_initialises fieldList s s' g el :
  sweep fieldList s = inr s' → g ∈ fieldList →
  assoc fields g = Some el → Forall (λ w, inData (data s) w = true) (after el) →
  atom el = true ∨ (noAtomPending env fields (data s) ∧ atomQueue s = ∅) →
  inData (data s') g = true.
Proof.
  intros Hs Hg Hel. revert s Hs Hg.
  induction fieldList as [|key rest IH]; intros s Hs Hg Hdeps Hcan;
    [by apply elem_of_nil in Hg|].
  simpl in Hs. destruct (visit key s) as [[e se]|s1] eqn:Hv; [done|].
  pose proof (visit_data_mono _ _ _ Hv) as Hmono.
  pose proof (sweep_data_mono _ _ _ Hs) as Hmono'.
  destruct (Fields.inData env (data s1) g) eqn:Hin1;
    [by eapply inData_mono|].
  destruct (decide (key = g)) as [->|Hne].
  - exfalso.
    destruct (visit_inv _ _ _ _ _ _ Hv)
      as [Hin ->|el' Hnot' Hel' Hscan ->|el' Hnot' Hel' Hscan Hatom Hsz ->
          |el' v d Hnot' Hel' Hscan Hcall ->].
    + congruence.
    + assert (el' = el) as -> by congruence.
      destruct (scanAfter_valid (data s) g el (after el)) as [_ Hsat];
        [by apply assoc_Some_pair|done|].
      rewrite Hsat in Hscan by done. done.
    + assert (el' = el) as -> by congruence.
      destruct Hcan as [?|[_ Hempty]]; [congruence|].
      rewrite Hempty in Hsz. by rewrite size_empty in Hsz.
    + simpl in Hin1. rewrite (block_calm g el' v d s) in Hin1 by done.
      assert (Fields.inData env
                (<[g := if is_undefined v
                        then fallback env instance g el' else v]> (data s)) g
              = true) by (apply inData_insert; by left).
      congruence.
  - apply (IH s1); [done|set_solver| |].
    + eapply Forall_impl; [exact Hdeps|]. simpl. intros w Hw.
      by eapply inData_mono.
    + destruct Hcan as [?|[Hno Hempty]]; [by left|right].
      by eapply visit_no_atom.
Qed.

(** Among the fields that are not in [data] there is one whose awaited
    fields all are; it is an atom if the field one starts from is. *)
Lemma ready_field (d : gmap string val) n g el :
  rank g < n → assoc fields g = Some el → inData d g = false →
  ∃ g' el', assoc fields g' = Some el' ∧ inData d g' = false
    ∧ Forall (λ w, inData d w = true) (after el')
    ∧ (atom el = true → atom el' = true).
Proof.
  revert g el. induction n as [|n IH]; intros g el Hrank Hel Hnot; [lia|].
  destruct (decide (Forall (λ w, Fields.inData env d w = true) (after el)))
    as [Hall|Hnall].
  - by exists g, el.
  - apply not_Forall_Exists in Hnall; [|apply _].
    apply Exists_exists in Hnall as (w & Hw & Hwnot). simpl in Hwnot.
    apply not_true_is_false in Hwnot.
    destruct (ranked g el w) as (wf & Hwf & Hlt & Hatom);
      [by apply assoc_Some_pair|done|].
    destruct (IH w wf) as (g' & el' & ? & ? & ? & Hatom'); [lia|done|done|].
    exists g', el'. split_and!; [done|done|done|]. auto.
Qed.

(** A sweep that leaves a queue non-empty has given an entry to a field
    that had none. *)
Lemma sweep_progress fieldList s s' :
  (∀ k, k ∈ fieldList ↔ k ∈ fields.*1) →
  queuesPending env fields s → sweep fieldList s = inr s' →
  size (atomQueue s') ≠ 0 ∨ size (queue s') ≠ 0 →
  ∃ g, g ∈ fields.*1 ∧ inData (data s) g = false ∧ inData (data s') g = true.
Proof.
  intros Hfl Hinv Hs Hne.
  pose proof (sweep_queuesPending _ _ _ Hs Hinv) as [Hq' Ha'].
  pose proof (sweep_data_mono _ _ _ Hs) as Hmono.
  assert (Hback : ∀ k, Fields.inData env (data s') k = false →
                       Fields.inData env (data s) k = false).
  { intros k Hk. destruct (Fields.inData env (data s) k) eqn:Hk0; [|done].
    rewrite (inData_mono _ _ _ _ Hmono Hk0) in Hk. done. }
  assert (Hpend : ∃ k el, assoc fields k = Some el
                          ∧ Fields.inData env (data s) k = false).
  { destruct Hne as [Hne|Hne]; apply size_non_empty_iff in Hne;
      apply set_choose in Hne as [k Hk].
    - destruct (Ha' k Hk) as (Hnot & el & Hel & _). exists k, el. auto.
    - destruct (Hq' k Hk) as (Hnot & el & Hel). exists k, el. auto. }
  destruct (decide (Exists
              (λ k, match assoc fields k with
                    | Some el => atom el && negb (Fields.inData env (data s) k)
                    | None => false
                    end = true) fields.*1)) as [Hatom|Hnoatom].
  - (* an atom is pending *)
    apply Exists_exists in Hatom as (k & Hin & Hk).
    destruct (assoc fields k) as [el|] eqn:Hel; [|done].
    apply andb_prop in Hk as [Hatom Hnot]. apply negb_true_iff in Hnot.
    destruct (ready_field (data s) (S (rank k)) k el)
      as (g & el' & Hg & Hgnot & Hdeps & Hatom'); [lia|done|done|].
    exists g. split_and!; [by eapply assoc_Some_elem|done|].
    eapply sweep_initialises; [exact Hs| |exact Hg|done|left; auto].
    apply Hfl. by eapply assoc_Some_elem.
  - (* no atom is pending *)
    assert (Hno : noAtomPending env fields (data s)).
    { intros k el Hk Hatom.
      destruct (Fields.inData env (data s) k) eqn:Hk0; [done|].
      destruct Hnoatom. apply Exists_exists. exists k.
      split; [by eapply assoc_Some_elem|].
      by rewrite Hk, Hatom, Hk0. }
    assert (Hempty : atomQueue s = ∅).
    { apply set_eq. intros k. split; [|set_solver]. intros Hk.
      destruct Hinv as [_ Ha]. destruct (Ha k Hk) as (Hnot & el & Hel & Hatom).
      rewrite (Hno k el) in Hnot; done. }
    destruct Hpend as (k & el & Hel & Hnot).
    destruct (ready_field (data s) (S (rank k)) k el)
      as (g & el' & Hg & Hgnot & Hdeps & _); [lia|done|done|].
    exists g. split_and!; [by eapply assoc_Some_elem|done|].
    eapply sweep_initialises; [exact Hs| |exact Hg|done|by right].
    apply Hfl. by eapply assoc_Some_elem.
Qed.

Lemma sweepLoop_S fuel fieldList s :
  sweepLoop (S fuel) fieldList s
  = match sweep fieldList s with
    | inl (e, s') => Threw e (data s')
    | inr s' =>
        if bool_decide (size (atomQueue s') = 0)
           && bool_decide (size (queue s') = 0)
        then Returned (data s')
        else sweepLoop fuel fieldList s'
    end.
Proof. done. Qed.

Abbreviation missing := (missing env fields).

Lemma missing_shrinks (d d' : gmap string val) g :
  d ⊆ d' → g ∈ fields.*1 →
  Fields.inData env d g = false → Fields.inData env d' g = true →
  (size (missing d') < size (missing d))%nat.
Proof.
  intros Hmono Hg Hnot Hin. apply subset_size. unfold Fields.missing. split.
  - intros k [Hk Hkin]%elem_of_filter. apply elem_of_filter. split; [|done].
    destruct (Fields.inData env d k) eqn:Hk0; [|done].
    by rewrite (inData_mono _ _ _ _ Hmono Hk0) in Hk.
  - intros Hsub. specialize (Hsub g).
    rewrite !elem_of_filter, elem_of_list_to_set in Hsub.
    destruct Hsub as [Hcontra _]; [done|congruence].
Qed.

(** The loop ends after at most one sweep more than there are fields
    that are not in [data]. *)
Lemma sweepLoop_valid_returns fieldList n s :
  (∀ k, k ∈ fieldList ↔ k ∈ fields.*1) → queuesPending env fields s →
  (size (missing (data s)) ≤ n)%nat →
  ∃ d, sweepLoop (S n) fieldList s = Returned d.
Proof.
  intros Hfl. revert s. induction n as [|n IH]; intros s Hinv Hsize;
    rewrite sweepLoop_S;
    (destruct (sweep_valid fieldList s) as [s' Hs]; [intros k; apply Hfl|]);
    rewrite Hs;
    (destruct (bool_decide (size (atomQueue s') = 0)
               && bool_decide (size (queue s') = 0)) eqn:Hb; [by eexists|]);
    (assert (Hne : size (atomQueue s') ≠ 0 ∨ size (queue s') ≠ 0);
     [apply andb_false_iff in Hb as [Hb|Hb];
      apply bool_decide_eq_false_1 in Hb; auto|]);
    destruct (sweep_progress fieldList s s' Hfl Hinv Hs Hne) as (g & Hg & Hnot & Hin);
    pose proof (sweep_data_mono _ _ _ Hs) as Hmono;
    pose proof (missing_shrinks _ _ g Hmono Hg Hnot Hin) as Hlt.
  - lia.
  - apply IH; [by eapply sweep_queuesPending|lia].
Qed.

End FieldsCalm.

(** Supporting fact for C2: on every field map with a valid dependency
    graph whose callbacks leave the data object alone,
    [initDataObject] returns, whatever the data object it is given. *)
Lemma initDataObject_valid_returns env fields instance
    (d0 : gmap string val) :
  Fields.quiet fields → Fields.ctxIsData env = false →
  Fields.validGraph fields →
  ∃ fuel d, Fields.initDataObject env fuel fields instance d0
            = Fields.Returned d.
Proof.
  intros Hquiet Hapart [rank Hrank].
  destruct (sweepLoop_valid_returns env fields instance Hquiet Hapart rank Hrank
              (Fields.buildFieldList env fields instance)
              (size (Fields.missing env fields d0))
              (Fields.start d0)) as [d Hd].
  - apply buildFieldList_elem.
  - split; intros k Hk; simpl in Hk; set_solver.
  - done.
  - by eexists _, d.
Qed.

(** *** The field initializer: statements *)

Section FieldsClaims.

Import Fields.

(** Supporting fact for C2: the field map [Samples.interleaved] has a
    valid dependency graph. *)
Lemma interleaved_validGraph : validGraph Samples.interleaved.
Proof.
  exists Samples.interleavedRank. intros key el w Hin Hw.
  unfold Samples.interleaved in Hin.
  repeat (apply elem_of_cons in Hin as [[= -> ->]|Hin]);
    [..|by apply elem_of_nil in Hin]; simpl in Hw.
  - by apply elem_of_nil in Hw.
  - apply list_elem_of_singleton in Hw as ->.
    eexists. split; [reflexivity|]. split; [vm_compute; lia|done].
  - by apply elem_of_nil in Hw.
  - apply list_elem_of_singleton in Hw as ->.
    eexists. split; [reflexivity|]. split; [vm_compute; lia|done].
Qed.

(** C2 (the code departs from the claim).  The claim: for a valid field
    map [initDataObject] ends with one entry for every field.  On the
    valid field map [c], [a] after [c], [x], [b] after [c] (three atoms
    and the defaulted field [x]) the call returns after two sweeps with
    the entries of [a], [b] and [c] only: the field [x], held back while
    atoms are pending, is never put in a queue and is left without
    entry. *)
Theorem initDataObject_leaves_held_field_out (fastClone : val → val) (fuel : nat) :
  initDataObject (literals fastClone) (S (S fuel)) Samples.interleaved ∅ ∅
  = Returned {[ "a" := VNum 0; "b" := VNum 0; "c" := VNum 0 ]}
  ∧ ({[ "a" := VNum 0; "b" := VNum 0; "c" := VNum 0 ]} : gmap string val) !! "x" = None.
Proof. split; vm_compute; reflexivity. Qed.

(** Supporting fact for C2: when the callbacks leave the data object
    alone, a field is given its entry only when every name of its
    [after] set is in [data] already. *)
Lemma initDataObject_entries_after_dependencies env fields instance
    (d0 d' : gmap string val) fuel key :
  quiet fields → ctxIsData env = false →
  initDataObject env fuel fields instance d0 = Returned d' →
  inData env d0 key = false → inData env d' key = true →
  ∃ el d, assoc fields key = Some el ∧ d0 ⊆ d ∧ d ⊆ d'
          ∧ inData env d key = false
          ∧ Forall (λ w, inData env d w = true) (after el).
Proof.
  intros Hquiet Hapart Hret Hnot Hin.
  exact (sweepLoop_entry env fields instance Hquiet Hapart fuel _ (start d0)
           d' key Hret Hnot Hin).
Qed.

(** C3 (amended).  A dependency cycle is not detected: when, after any
    number of sweeps, a sweep initialises no field (the block of no field
    runs) while the dependency queue or the atomic queue is not empty,
    [initDataObject] neither fails nor returns; whatever the fuel, it is
    still sweeping. *)
Theorem initDataObject_stalled_sweep_never_ends env fields instance
    (d : gmap string val) n s s' fuel :
  afterSweeps env n fields instance (buildFieldList env fields instance) (start d)
  = Some s →
  sweep env fields instance (buildFieldList env fields instance) s = inr s' →
  initialised s' = initialised s →
  size (queue s') ≠ 0 ∨ size (atomQueue s') ≠ 0 →
  initDataObject env fuel fields instance d = OutOfFuel.
Proof.
  intros Hn Hs Hi Hq. unfold initDataObject.
  eapply afterSweeps_fuel; [exact Hn|].
  by eapply sweepLoop_stalled.
Qed.

Lemma initDataObject_stalled_sweep_never_ends_witness :
  initDataObject (literals id) 5 Samples.cyclic ∅ ∅ = OutOfFuel.
Proof.
  apply (initDataObject_stalled_sweep_never_ends (literals id) Samples.cyclic
           ∅ ∅ 0 (start ∅)
           {| data := ∅; queue := {["a"; "b"]}; atomQueue := ∅;
              activeField := None; initialised := [] |} 5).
  - reflexivity.
  - vm_compute. reflexivity.
  - reflexivity.
  - left. vm_compute. lia.
Defined.

(** Supporting fact for C3: when the callbacks leave the data object
    alone, a sweep initialises no field exactly when it leaves the data
    object as it was; the statement then reads with the data object. *)
Lemma initDataObject_stalled_same_data env fields instance
    (d : gmap string val) n s s' fuel :
  quiet fields → ctxIsData env = false →
  afterSweeps env n fields instance (buildFieldList env fields instance) (start d)
  = Some s →
  sweep env fields instance (buildFieldList env fields instance) s = inr s' →
  data s' = data s →
  size (queue s') ≠ 0 ∨ size (atomQueue s') ≠ 0 →
  initDataObject env fuel fields instance d = OutOfFuel.
Proof.
  intros Hquiet Hapart Hn Hs Hd Hq. unfold initDataObject.
  eapply afterSweeps_fuel; [exact Hn|].
  eapply sweepLoop_stalled; [exact Hs| |exact Hq].
  by eapply sweep_same_data.
Qed.

(** C3 (counterexample).  On two fields that await each other no fuel
    makes [initDataObject] fail with an error. *)
Lemma initDataObject_cycle_no_error :
  ¬ ∃ fuel e d, initDataObject (literals id) fuel Samples.cyclic ∅ ∅ = Threw e d.
Proof.
  intros (fuel & e & d & H).
  assert (Hloop : initDataObject (literals id) fuel Samples.cyclic ∅ ∅ = OutOfFuel).
  { unfold initDataObject.
    apply (sweepLoop_stalled (literals id) Samples.cyclic ∅ _ (start ∅)
             {| data := ∅; queue := {["a"; "b"]}; atomQueue := ∅;
                activeField := None; initialised := [] |}).
    - vm_compute. reflexivity.
    - reflexivity.
    - left. vm_compute. lia. }
  congruence.
Qed.

(** C6 (amended).  Let [key] be a declared field that is not in [data]
    at the call, and let the callbacks of the other fields leave the
    property [key] alone.  If the returned object has the property, the
    block of the field has run: its callback was called on a data object
    [d1] without the property, in which every awaited name was, and has
    left the object [d2].  When the callback has returned a defined
    value, the entry is that value as it is.  When it has returned
    [undefined] (or there is none) and [d2[key]] is [undefined], the
    entry is the static default itself, not a clone of it, if the
    default is defined, and otherwise the deep clone of the value the
    instance has for the key.  When it has returned [undefined] and has
    itself given [d2[key]] a value, that value stays. *)
Theorem initDataObject_entry_value env fields instance
    (d0 d' : gmap string val) fuel key el :
  assoc fields key = Some el →
  inData env d0 key = false →
  (ctxIsData env = true → key ≠ "$activeField") →
  leaveAlone fields key →
  initDataObject env fuel fields instance d0 = Returned d' →
  inData env d' key = true →
  ∃ d1, inData env d1 key = false
    ∧ Forall (λ w, inData env d1 w = true) (after el)
    ∧ match initCall el d1 with
      | InitReturn v d2 =>
          (v ≠ VUndefined → d' !! key = Some v)
          ∧ (v = VUndefined → dataGet env d2 key = VUndefined →
             default el ≠ VUndefined → d' !! key = Some (default el))
          ∧ (v = VUndefined → dataGet env d2 key = VUndefined →
             default el = VUndefined →
             d' !! key
             = Some (fastClone env (read (instanceInherits env) instance key)))
          ∧ (v = VUndefined → dataGet env d2 key ≠ VUndefined →
             d' !! key = d2 !! key)
      | InitThrow _ _ => False
      end.
Proof.
  intros Hel Hnot Hactive Halone Hret Hin.
  set (P := λ x : option val,
    ∃ d1, inData env d1 key = false
      ∧ Forall (λ w, inData env d1 w = true) (after el)
      ∧ match initCall el d1 with
        | InitReturn v d2 =>
            (v ≠ VUndefined → x = Some v)
            ∧ (v = VUndefined → dataGet env d2 key = VUndefined →
               default el ≠ VUndefined → x = Some (default el))
            ∧ (v = VUndefined → dataGet env d2 key = VUndefined →
               default el = VUndefined →
               x = Some (fastClone env (read (instanceInherits env) instance key)))
            ∧ (v = VUndefined → dataGet env d2 key ≠ VUndefined →
               x = d2 !! key)
        | InitThrow _ _ => False
        end).
  assert (Hblock : ∀ d v d2, inData env d key = false →
            scanAfter env fields d key el (after el) = Satisfied →
            initCall el (atCall env key d) = InitReturn v d2 →
            P (store env instance key el v d2 !! key)).
  { intros d v d2 Hd Hscan Hcall. exists (atCall env key d). split_and!.
    - rewrite (inData_lookup env d (atCall env key d) key); [done|].
      by apply atCall_other.
    - apply scanAfter_satisfied in Hscan.
      eapply Forall_impl; [exact Hscan|]. simpl. intros w Hw.
      unfold atCall. destruct (ctxIsData env); [|done].
      apply inData_insert. by right.
    - rewrite Hcall. unfold store, fallback. split_and!.
      + intros Hv. destruct v; try done; simpl; by rewrite lookup_insert_eq.
      + intros -> Hd2 Hdef. simpl. rewrite Hd2. simpl.
        rewrite lookup_insert_eq. by destruct (default el).
      + intros -> Hd2 Hdef. simpl. rewrite Hd2, Hdef. simpl.
        by rewrite lookup_insert_eq.
      + intros -> Hd2. simpl. by destruct (dataGet env d2 key). }
  destruct (sweepLoop_entry_inv env fields instance key el P Hel Hactive
              Halone Hblock fuel _ (start d0) d' Hret) as [Hno|HP].
  - by left.
  - congruence.
  - exact HP.
Qed.

Lemma initDataObject_entry_value_witness :
  ∃ d1, inData (literals Samples.cloneElsewhere) d1 "f" = false
    ∧ Forall (λ w, inData (literals Samples.cloneElsewhere) d1 w = true)
        (after Samples.silent)
    ∧ match initCall Samples.silent d1 with
      | InitReturn v d2 =>
          (v ≠ VUndefined →
           ({[ "f" := VRef 1%positive ]} : gmap string val) !! "f" = Some v)
          ∧ (v = VUndefined →
             dataGet (literals Samples.cloneElsewhere) d2 "f" = VUndefined →
             default Samples.silent ≠ VUndefined →
             ({[ "f" := VRef 1%positive ]} : gmap string val) !! "f"
             = Some (default Samples.silent))
          ∧ (v = VUndefined →
             dataGet (literals Samples.cloneElsewhere) d2 "f" = VUndefined →
             default Samples.silent = VUndefined →
             ({[ "f" := VRef 1%positive ]} : gmap string val) !! "f"
             = Some (fastClone (literals Samples.cloneElsewhere)
                       (read (instanceInherits (literals Samples.cloneElsewhere))
                          ∅ "f")))
          ∧ (v = VUndefined →
             dataGet (literals Samples.cloneElsewhere) d2 "f" ≠ VUndefined →
             ({[ "f" := VRef 1%positive ]} : gmap string val) !! "f" = d2 !! "f")
      | InitThrow _ _ => False
      end.
Proof.
  apply (initDataObject_entry_value (literals Samples.cloneElsewhere)
           Samples.objectDefault ∅ ∅ {[ "f" := VRef 1%positive ]} 1 "f"
           Samples.silent).
  - reflexivity.
  - reflexivity.
  - discriminate.
  - intros k el f d Hin Hne. unfold Samples.objectDefault in Hin.
    apply list_elem_of_singleton in Hin. injection Hin as -> _. done.
  - vm_compute. reflexivity.
  - reflexivity.
Defined.

(** C6 (counterexample).  The default of [f] is the object at location 1
    and its [init] returns [undefined]: the entry is that very object,
    and not its clone. *)
Lemma initDataObject_default_not_cloned :
  initDataObject (literals Samples.cloneElsewhere) 1 Samples.objectDefault ∅ ∅
  = Returned {[ "f" := VRef 1%positive ]}
  ∧ VRef 1%positive ≠ Samples.cloneElsewhere (VRef 1%positive).
Proof. split; [vm_compute; reflexivity|discriminate]. Qed.

(** Supporting fact for C6: the test [data[key] === undefined] is made
    after the callback.  The [init] of [f] sets [data.f] to 7 and returns
    [undefined]; the default of [f] is 5; the entry is 7. *)
Lemma initDataObject_callback_entry_kept :
  initDataObject (literals id) 1 Samples.setsItself ∅ ∅
  = Returned {[ "f" := VNum 7 ]}.
Proof. vm_compute. reflexivity. Qed.

(** Supporting fact for C6: when [ctx] is the data object, the write of
    [ctx.$activeField] is a write to the data object. *)
Lemma initDataObject_on_context :
  initDataObject (onContext id) 1 [("f", Samples.plain (VNum 1) [] false)] ∅ ∅
  = Returned {[ "$activeField" := VStr "f"; "f" := VNum 1 ]}.
Proof. vm_compute. reflexivity. Qed.

(** C7 (amended).  Let the field [x] name [w] in its [after] set, where
    [fields[w]] is [undefined]: [w] is not declared in the field map and
    the prototype chain of the map does not answer it.  A sweep that
    visits [x] while [x] is not in [data] and the names before [w] in
    the set are declared, make no atom wait for a non-atom, and are in
    [data], is the end of the call: [initDataObject] throws the
    missing-field error for [w], the data object being as the earlier
    sweeps and visits have left it. *)
Theorem initDataObject_undeclared_after env fields instance
    (d0 : gmap string val) n s0 l1 l2 s x el w pre post fuel :
  assoc fields x = Some el →
  after el = pre ++ w :: post →
  fieldsGet env fields w = None →
  afterSweeps env n fields instance (buildFieldList env fields instance) (start d0)
  = Some s0 →
  buildFieldList env fields instance = l1 ++ x :: l2 →
  sweep env fields instance l1 s0 = inr s →
  inData env (data s) x = false →
  Forall (passes env fields (data s) el) pre →
  n < fuel →
  initDataObject env fuel fields instance d0
  = Threw (FieldNotDefined w) (data s).
Proof.
  intros Hx Hafter Hw Hn Hlist Hl1 Hnot Hpre Hfuel.
  assert (Href : refuses env fields el w) by (unfold refuses; by rewrite Hw).
  pose proof (visit_throws env fields instance x el w pre post s
                Hx Hafter Href Hnot Hpre) as Hvisit.
  rewrite Hw in Hvisit. unfold initDataObject. rewrite Hlist.
  eapply afterSweeps_threw; [by rewrite <- Hlist| |done].
  by eapply sweep_throws_at.
Qed.

Lemma initDataObject_undeclared_after_witness :
  initDataObject (literals id) 1 Samples.awaitsGhost ∅ ∅
  = Threw (FieldNotDefined "ghost") (data (start ∅)).
Proof.
  apply (initDataObject_undeclared_after (literals id) Samples.awaitsGhost ∅ ∅
           0 (start ∅) [] [] (start ∅) "x" Samples.ghost "ghost" [] [] 1).
  - reflexivity.
  - reflexivity.
  - reflexivity.
  - reflexivity.
  - reflexivity.
  - reflexivity.
  - reflexivity.
  - constructor.
  - lia.
Defined.

(** C7 (counterexample).  [x] awaits [constructor], which is declared
    nowhere.  The field map is an object literal, so [fields.constructor]
    is the function it inherits, and ["constructor" in data] holds as
    well: no error is thrown, [x] is initialised and the call returns. *)
Lemma initDataObject_inherited_name_no_error :
  assoc Samples.awaitsConstructor "constructor" = None
  ∧ initDataObject (literals id) 1 Samples.awaitsConstructor ∅ ∅
    = Returned {[ "x" := VNum 0 ]}.
Proof. split; [reflexivity|vm_compute; reflexivity]. Qed.

(** Supporting fact for C7: [a] awaits [b] and then the undeclared
    [ghost], and [b] awaits [a]: no fuel makes [initDataObject] fail,
    with the missing-field error or any other. *)
Lemma ghost_behind_cycle_never_throws :
  ¬ ∃ fuel e d,
      initDataObject (literals id) fuel Samples.ghostBehindCycle ∅ ∅ = Threw e d.
Proof.
  intros (fuel & e & d & H).
  assert (Hloop : initDataObject (literals id) fuel Samples.ghostBehindCycle ∅ ∅
                  = OutOfFuel).
  { unfold initDataObject.
    apply (sweepLoop_stalled (literals id) Samples.ghostBehindCycle ∅ _ (start ∅)
             {| data := ∅; queue := {["a"; "b"]}; atomQueue := ∅;
                activeField := None; initialised := [] |}).
    - vm_compute. reflexivity.
    - reflexivity.
    - left. vm_compute. lia. }
  congruence.
Qed.

(** Supporting fact for C7: a field that is in [data] before the call
    is never scanned, and the call returns normally. *)
Lemma present_field_is_not_scanned :
  initDataObject (literals id) 1 Samples.awaitsGhost ∅ {[ "x" := VNum 1 ]}
  = Returned {[ "x" := VNum 1 ]}.
Proof. vm_compute. reflexivity. Qed.

(** Supporting fact for C7: neither is a field that a callback has put
    in [data].  The atom [p] is visited first and its callback sets
    [data.x]; [x], which awaits the undeclared [ghost], is then skipped
    and the call returns normally. *)
Lemma provided_field_is_not_scanned :
  initDataObject (literals id) 1 Samples.ghostProvided ∅ ∅
  = Returned {[ "p" := VNum 0; "x" := VNum 1 ]}.
Proof. vm_compute. reflexivity. Qed.

(** C8 (amended).  Let the atomic field [x] name [w] in its [after] set,
    where [fields[w]] is no atom.  A sweep that visits [x] while [x] is
    not in [data] and the names before [w] in the set are atoms that are
    in [data] is the end of the call: [initDataObject] throws the
    ordering error for [x] and [w].  The data object is then as the
    earlier sweeps and visits have left it: fields visited before [x] may
    have been initialised. *)
Theorem initDataObject_atom_awaits_non_atom env fields instance
    (d0 : gmap string val) n s0 l1 l2 s x el w pre post fuel :
  assoc fields x = Some el →
  atom el = true →
  after el = pre ++ w :: post →
  fieldsGet env fields w = Some false →
  afterSweeps env n fields instance (buildFieldList env fields instance) (start d0)
  = Some s0 →
  buildFieldList env fields instance = l1 ++ x :: l2 →
  sweep env fields instance l1 s0 = inr s →
  inData env (data s) x = false →
  Forall (passes env fields (data s) el) pre →
  n < fuel →
  initDataObject env fuel fields instance d0
  = Threw (AtomWaitsNonAtom x w) (data s).
Proof.
  intros Hx Hatom Hafter Hw Hn Hlist Hl1 Hnot Hpre Hfuel.
  assert (Href : refuses env fields el w).
  { unfold refuses. by rewrite Hw, Hatom. }
  pose proof (visit_throws env fields instance x el w pre post s
                Hx Hafter Href Hnot Hpre) as Hvisit.
  rewrite Hw in Hvisit. unfold initDataObject. rewrite Hlist.
  eapply afterSweeps_threw; [by rewrite <- Hlist| |done].
  by eapply sweep_throws_at.
Qed.

Lemma initDataObject_atom_awaits_non_atom_witness :
  initDataObject (literals id) 1 Samples.atomAwaitsPlain ∅ ∅
  = Threw (AtomWaitsNonAtom "x" "n")
      (data {| data := {[ "d" := VNum 1 ]}; queue := ∅; atomQueue := ∅;
               activeField := Some "d"; initialised := ["d"] |}).
Proof.
  apply (initDataObject_atom_awaits_non_atom (literals id)
           Samples.atomAwaitsPlain ∅ ∅ 0 (start ∅) ["d"] ["n"]
           {| data := {[ "d" := VNum 1 ]}; queue := ∅; atomQueue := ∅;
              activeField := Some "d"; initialised := ["d"] |}
           "x" Samples.hasty "n" [] [] 1).
  - reflexivity.
  - reflexivity.
  - reflexivity.
  - reflexivity.
  - reflexivity.
  - vm_compute. reflexivity.
  - vm_compute. reflexivity.
  - vm_compute. reflexivity.
  - constructor.
  - lia.
Defined.

(** C8 (counterexample).  The defaulted field [d] is declared after the
    atom [x], so it is visited first: when the ordering error for [x] is
    thrown, [d] has its entry already. *)
Lemma initDataObject_atom_error_after_init :
  initDataObject (literals id) 1 Samples.atomAwaitsPlain ∅ ∅
  = Threw (AtomWaitsNonAtom "x" "n") {[ "d" := VNum 1 ]}
  ∧ ({[ "d" := VNum 1 ]} : gmap string val) ≠ ∅.
Proof.
  split; [vm_compute; reflexivity|].
  intros H. apply (f_equal (λ m : gmap string val, m !! "d")) in H.
  vm_compute in H. discriminate.
Qed.

End FieldsClaims.


(** ** Hook runner *)

Section HooksClaims.

Import Hooks.

(** C1 (the code departs from the claim).  The claim: a hook runs only
    after every hook named in its [after] set has completed.  With [A]
    and the deferred [C] awaiting nothing and [B] awaiting both, the
    synchronous part of [runHook] already starts [B], right after [A] has
    completed, while [C] is still pending: the test in [emit] reads the
    [size] of the boolean that [Set.prototype.delete] returns, so it
    holds whatever is left in the set. *)
Theorem runHook_starts_before_all_predecessors (random : nat → string)
    (fuel : nat) :
  ∃ e w',
    runHook random (S (S fuel)) "created"
      {[ "created" := HookSamples.twoPredecessors ]}
      HookSamples.twoPredecessorsWorld
    = Returned PromiseSignal e w'
    ∧ trace w' = [Start 0; Done 0; Start 2; Done 2; Start 1]
    ∧ pending w' = [1]
    ∧ ¬ respectsAfter HookSamples.twoPredecessors
          HookSamples.twoPredecessorsWorld (trace w').
Proof.
  eexists _, _. split; [vm_compute; reflexivity|].
  split; [reflexivity|]. split; [reflexivity|].
  intros Hresp.
  destruct (Hresp 2 2 (HookSamples.named "B" Plain (Some 1%positive)) "C")
    as (k' & j & el & Hlt & Hk' & Hj & Hname).
  - reflexivity.
  - reflexivity.
  - vm_compute. set_solver.
  - destruct k' as [|[|k']]; [| |lia]; simpl in Hk'.
    + done.
    + injection Hk' as <-. simpl in Hj. injection Hj as <-. done.
Qed.

(** Supporting fact for C1: in the specification's scenario ([B] and
    [C] await [A]) with a plain [A], the first invocation runs the three
    hooks in order and completes synchronously. *)
Lemma runHook_fanOut_plain (random : nat → string) (fuel : nat) :
  ∃ e w',
    runHook random (S (S fuel)) "created"
      {[ "created" := HookSamples.fanOut Plain ]} HookSamples.fanOutWorld
    = Returned (SyncSignal (createSyncPromise VUndefined VUndefined)) e w'
    ∧ trace w' = [Start 0; Done 0; Start 1; Done 1; Start 2; Done 2]
    ∧ pending w' = [].
Proof. eexists _, _. split; [vm_compute; reflexivity|done]. Qed.

(** Supporting fact for C1: with a deferred [A], the first invocation
    starts [A] alone and returns a promise; [B] and [C] run when the
    promise of [A] is fulfilled. *)
Lemma runHook_fanOut_deferred (random : nat → string) (fuel : nat) :
  ∃ e w' w'',
    runHook random (S fuel) "created"
      {[ "created" := HookSamples.fanOut Deferred ]} HookSamples.fanOutWorld
    = Returned PromiseSignal e w'
    ∧ trace w' = [Start 0] ∧ pending w' = [0]
    ∧ settle random (S fuel) (HookSamples.fanOut Deferred) e 0 w'
      = Some (w'', false)
    ∧ trace w'' = [Start 0; Done 0; Start 1; Done 1; Start 2; Done 2]
    ∧ pending w'' = [].
Proof.
  eexists _, _, _. split; [vm_compute; reflexivity|].
  split; [reflexivity|]. split; [reflexivity|].
  split; [vm_compute; reflexivity|done].
Qed.

(** Supporting fact for C1: the [Set] objects that [emit] empties are
    those of the descriptors, which every invocation shares.  In the
    world the first invocation of the scenario leaves behind, [B] and
    [C] await nothing any more: the second invocation starts them at
    once, before the deferred [A] has completed. *)
Lemma runHook_fanOut_second_invocation (random : nat → string) (fuel : nat) :
  ∃ e w' w'' e2 w2,
    runHook random (S fuel) "updated"
      {[ "updated" := HookSamples.fanOut Deferred ]} HookSamples.fanOutWorld
    = Returned PromiseSignal e w'
    ∧ settle random (S fuel) (HookSamples.fanOut Deferred) e 0 w'
      = Some (w'', false)
    ∧ runHook random (S fuel) "updated"
        {[ "updated" := HookSamples.fanOut Deferred ]}
        (fresh_world (sets w''))
      = Returned PromiseSignal e2 w2
    ∧ trace w2 = [Start 0; Start 1; Done 1; Start 2; Done 2]
    ∧ pending w2 = [0].
Proof.
  eexists _, _, _, _, _. split; [vm_compute; reflexivity|].
  split; [vm_compute; reflexivity|].
  split; [vm_compute; reflexivity|done].
Qed.

(** C9.  For a stage with an empty hook list [runHook] returns at once,
    whatever the fuel, the synchronous signal of [createSyncPromise()]:
    no hook is started, nothing is pending, no [Set] is touched; only
    [ctx.hook] and the log change.  The signal answers [then], [catch]
    and [finally]: each calls the callback it is given, synchronously. *)
Theorem runHook_no_hooks (random : nat → string) (fuel : nat) (stage : string)
    (hooksOf : gmap string (list HookDescriptor)) (w : World)
    (cb : Callback) :
  hooksOf !! stage = Some [] →
  let p := createSyncPromise VUndefined VUndefined in
  runHook random fuel stage hooksOf w
  = Returned (SyncSignal p) {| queue := []; events := ∅ |}
      {| sets := sets w; hook := Some stage; logged := logged w ++ [stage];
         trace := trace w; pending := pending w; draws := draws w |}
  ∧ (then_ p (Some cb) None).1 = [(cb_id cb, [VUndefined])]
  ∧ (catch_ p cb).1 = [(cb_id cb, [VUndefined])]
  ∧ (finally_ p cb).1 = [(cb_id cb, [])].
Proof.
  intros Hempty p. split.
  - unfold runHook. by rewrite Hempty.
  - unfold then_, catch_, finally_, invoke. simpl.
    by destruct (cb_run cb [VUndefined]), (cb_run cb []).
Qed.

Lemma runHook_no_hooks_witness :
  let p := createSyncPromise VUndefined VUndefined in
  runHook (λ _, "0.5") 0 "mounted" {[ "mounted" := [] ]} (fresh_world ∅)
  = Returned (SyncSignal p) {| queue := []; events := ∅ |}
      {| sets := sets (fresh_world ∅); hook := Some "mounted";
         logged := logged (fresh_world ∅) ++ ["mounted"];
         trace := trace (fresh_world ∅); pending := pending (fresh_world ∅);
         draws := draws (fresh_world ∅) |}
  ∧ (then_ p (Some HookSamples.stderr) None).1
    = [(cb_id HookSamples.stderr, [VUndefined])]
  ∧ (catch_ p HookSamples.stderr).1 = [(cb_id HookSamples.stderr, [VUndefined])]
  ∧ (finally_ p HookSamples.stderr).1 = [(cb_id HookSamples.stderr, [])].
Proof.
  apply (runHook_no_hooks (λ _, "0.5") 0 "mounted" {[ "mounted" := [] ]}
           (fresh_world ∅) HookSamples.stderr).
  reflexivity.
Defined.

(** C10.  The [catch] method of the synchronous signal calls its
    callback exactly once, with [undefined], although no error occurred:
    for any value the signal was created with, and so for the signal of
    every stage run that [runHook] completes synchronously. *)
Theorem syncPromise_catch_calls_without_error (random : nat → string)
    (fuel : nat) (stage : string)
    (hooksOf : gmap string (list HookDescriptor)) (w : World)
    (p : SyncPromise) (cb : Callback) (v : val) :
  signalOf (runHook random fuel stage hooksOf w) = Some (SyncSignal p) →
  (catch_ (createSyncPromise v VUndefined) cb).1 = [(cb_id cb, [VUndefined])]
  ∧ p = createSyncPromise VUndefined VUndefined
  ∧ (catch_ p cb).1 = [(cb_id cb, [VUndefined])].
Proof.
  intros Hsig.
  assert (Hcatch : ∀ v', (catch_ (createSyncPromise v' VUndefined) cb).1
                         = [(cb_id cb, [VUndefined])]).
  { intros v'. unfold catch_, invoke. simpl. by destruct (cb_run cb [VUndefined]). }
  assert (Hp : p = createSyncPromise VUndefined VUndefined).
  { unfold runHook in Hsig. destruct (hooksOf !! stage) as [hooks|]; [|done].
    case_bool_decide; [by injection Hsig as <-|].
    destruct (fireLoop _ _ _ _) as [[w' [|]]|]; simpl in Hsig; try done.
    by injection Hsig as <-. }
  split; [apply Hcatch|]. split; [done|]. rewrite Hp. apply Hcatch.
Qed.

Lemma syncPromise_catch_calls_without_error_witness :
  (catch_ (createSyncPromise (VNum 3) VUndefined) HookSamples.stderr).1
  = [(cb_id HookSamples.stderr, [VUndefined])]
  ∧ createSyncPromise VUndefined VUndefined
    = createSyncPromise VUndefined VUndefined
  ∧ (catch_ (createSyncPromise VUndefined VUndefined) HookSamples.stderr).1
    = [(cb_id HookSamples.stderr, [VUndefined])].
Proof.
  apply (syncPromise_catch_calls_without_error (λ _, "0.5") 2 "created"
           {[ "created" := HookSamples.fanOut Plain ]} HookSamples.fanOutWorld
           (createSyncPromise VUndefined VUndefined) HookSamples.stderr (VNum 3)).
  vm_compute. reflexivity.
Defined.

End HooksClaims.

(** ** Metadata store *)

Section MetaFacts.

Import Meta.

Lemma assoc_forallb {A : Type} (f : string * A → bool) (o : list (string * A)) key v :
  forallb f o = true → assoc o key = Some v → f (key, v) = true.
Proof.
  induction o as [|[k x] o IH]; simpl; [done|].
  intros [Hk Ho]%andb_prop.
  destruct (String.eqb_spec k key) as [->|Hne].
  - by intros [= <-].
  - by apply IH.
Qed.

Lemma closed_proto h l p props :
  closed h → h !! l = Some (Obj (Some p) props) → is_Some (h !! p).
Proof.
  intros Hc Hl. apply (map_Forall_lookup_1 _ _ _ _ Hc) in Hl.
  simpl in Hl. apply andb_prop in Hl as [Hp _]. by apply bool_decide_eq_true_1 in Hp.
Qed.

Lemma closed_prop h l proto props key r :
  closed h → h !! l = Some (Obj proto props) → assoc props key = Some (VRef r) →
  is_Some (h !! r).
Proof.
  intros Hc Hl Hk. apply (map_Forall_lookup_1 _ _ _ _ Hc) in Hl.
  simpl in Hl. apply andb_prop in Hl as [_ Hprops].
  pose proof (assoc_forallb _ _ _ _ Hprops Hk) as Hr. simpl in Hr.
  by apply bool_decide_eq_true_1 in Hr.
Qed.

(** In a closed heap a lookup stays inside the heap, and cells allocated
    later do not change it. *)
Lemma get_closed n h l key r :
  closed h → get n h l key = VRef r → is_Some (h !! r).
Proof.
  intros Hc. revert l. induction n as [|n IH]; intros l; simpl;
    destruct (h !! l) as [[proto props|]|] eqn:Hl; try done;
    destruct (assoc props key) as [v|] eqn:Hk;
    try (intros ->; by eapply closed_prop).
  - by destruct proto.
  - destruct proto as [p|]; [apply IH|done].
Qed.

Lemma get_mono n h h' l key :
  closed h → h ⊆ h' → is_Some (h !! l) → get n h' l key = get n h l key.
Proof.
  intros Hc Hsub. revert l. induction n as [|n IH]; intros l [c Hl]; simpl;
    rewrite Hl, (lookup_weaken _ _ _ _ Hl Hsub);
    destruct c as [[p|] props|]; try done;
    destruct (assoc props key); try done.
  apply IH. by eapply closed_proto.
Qed.

Lemma listAt_mono n h h' m table key :
  closed h → h ⊆ h' → is_Some (h !! m) →
  listAt n h' m table key = listAt n h m table key.
Proof.
  intros Hc Hsub Hm. unfold listAt. rewrite (get_mono n h h' m) by done.
  destruct (get n h m table) as [| | | | |o] eqn:Ho; try done.
  pose proof (get_closed _ _ _ _ _ Hc Ho) as Hoin.
  rewrite (get_mono n h h' o) by done.
  destruct (get n h o key) as [| | | | |a] eqn:Ha; try done.
  destruct (get_closed _ _ _ _ _ Hc Ha) as [c Hc'].
  by rewrite Hc', (lookup_weaken _ _ _ _ Hc' Hsub).
Qed.

Lemma alloc_spec h c l h' :
  alloc h c = (l, h') → h !! l = None ∧ h' = <[l := c]> h.
Proof.
  unfold alloc. intros [= <- <-]. split; [|done].
  apply not_elem_of_dom, is_fresh.
Qed.

Lemma assoc_set_lookup props key v k :
  assoc (assoc_set props key v) k
  = if String.eqb key k then Some v else assoc props k.
Proof.
  induction props as [|[k' x] props IH]; simpl.
  - done.
  - destruct (String.eqb_spec k' key) as [->|Hne]; simpl.
    + by destruct (String.eqb_spec key k).
    + destruct (String.eqb_spec k' k) as [->|Hne'].
      * destruct (String.eqb_spec key k) as [->|]; done.
      * apply IH.
Qed.

(** The copying loop writes to the new table [o] and to arrays it
    allocates, and to nothing else. *)
Lemma copyLists_spec hops h o p keys :
  closed h → h !! o = None → is_Some (h !! p) →
  ∀ hc props ho,
    h ⊆ hc → hc !! o = Some (Obj None props) → copiedFrom hops h hc p props →
    copyLists hops keys o p hc = Some ho →
    h ⊆ ho
    ∧ (∃ props', ho !! o = Some (Obj None props') ∧ copiedFrom hops h ho p props')
    ∧ (∀ l, l ≠ o → is_Some (hc !! l) → ho !! l = hc !! l).
Proof.
  intros Hc Ho Hp. induction keys as [|key keys IH]; intros hc props ho Hsub Hoc Hcop; simpl.
  - intros [= <-]. split_and!; [done|by exists props|done].
  - rewrite (get_mono hops h hc p key) by done.
    destruct (truthy (get hops h p key)) eqn:Htr; [|by eapply IH].
    destruct (get hops h p key) as [| | | |str|a] eqn:Hget; simpl; try done.
    + (* a string is its own copy *)
      unfold set_prop. rewrite Hoc. intros Hrest.
      eapply IH in Hrest as (Hsub' & Hprops' & Hframe).
      * split_and!; [done|done|]. intros l Hl Hin. rewrite Hframe; [|done|].
        -- by rewrite lookup_insert_ne.
        -- by rewrite lookup_insert_ne.
      * by apply insert_subseteq_r.
      * by rewrite lookup_insert_eq.
      * intros key2 a2. rewrite assoc_set_lookup.
        destruct (String.eqb key key2); [done|]. intros Hk2.
        destruct (Hcop _ _ Hk2) as (Hfresh & a0 & items & ? & ? & Ha2).
        split; [done|]. exists a0, items. split_and!; [done|done|].
        rewrite lookup_insert_ne; [done|]. intros <-. congruence.
    + (* an array is copied to a new one *)
      destruct (get_closed _ _ _ _ _ Hc Hget) as [c Ha].
      rewrite (lookup_weaken _ _ _ _ Ha Hsub).
      destruct c as [|items]; [done|].
      assert (Ha' : hc !! fresh (dom hc) = None)
        by (apply not_elem_of_dom, is_fresh).
      revert Ha'. generalize (fresh (dom hc)). intros a' Ha'.
      assert (Hne : a' ≠ o) by (intros ->; congruence).
      unfold set_prop. rewrite lookup_insert_ne by done. rewrite Hoc.
      intros Hrest.
      eapply IH in Hrest as (Hsub' & Hprops' & Hframe).
      * split_and!; [done|done|]. intros l Hl [cl Hin]. rewrite Hframe; [|done|].
        -- rewrite lookup_insert_ne by done.
           rewrite lookup_insert_ne; [done|]. intros <-. congruence.
        -- rewrite lookup_insert_ne by done.
           rewrite lookup_insert_ne; [by eexists|]. intros <-. congruence.
      * apply insert_subseteq_r; [done|].
        apply insert_subseteq_r; [|done].
        by eapply lookup_weaken_None.
      * by rewrite lookup_insert_eq.
      * intros key2 a2. rewrite assoc_set_lookup.
        destruct (String.eqb_spec key key2) as [<-|Hk].
        -- intros [= <-]. split; [by eapply lookup_weaken_None|].
           exists a, items. split_and!; [done|done|].
           rewrite lookup_insert_ne by done. by rewrite lookup_insert_eq.
        -- intros Hk2.
           destruct (Hcop _ _ Hk2) as (Hfresh & a0 & items0 & ? & ? & Ha2).
           split; [done|]. exists a0, items0. split_and!; [done|done|].
           rewrite lookup_insert_ne by (intros <-; congruence).
           rewrite lookup_insert_ne by (intros <-; congruence). done.
Qed.

Lemma get_own n h l proto props key v :
  h !! l = Some (Obj proto props) → assoc props key = Some v →
  get n h l key = v.
Proof. intros Hl Hk. destruct n; simpl; by rewrite Hl, Hk. Qed.

Lemma get_inherit n h l p props key :
  h !! l = Some (Obj (Some p) props) → assoc props key = None →
  get (S n) h l key = get n h p key.
Proof. intros Hl Hk. simpl. by rewrite Hl, Hk. Qed.

Lemma get_own_only n h l props key :
  h !! l = Some (Obj None props) →
  get n h l key = match assoc props key with Some v => v | None => VUndefined end.
Proof. intros Hl. destruct n; simpl; rewrite Hl; by destruct (assoc props key). Qed.

(** One of the two copying loops of [createMeta], run on a heap [hc]
    that extends the closed heap [h] of the caller. *)
Lemma copyTable_spec hops h table meta parent o hc ho proto mprops :
  closed h → is_Some (h !! parent) → h ⊆ hc →
  hc !! meta = Some (Obj proto mprops) → assoc mprops table = Some (VRef o) →
  h !! o = None → hc !! o = Some (Obj None []) →
  copyTable hops table meta parent hc = Some ho →
  h ⊆ ho
  ∧ (∃ p props, get hops h parent table = VRef p
                ∧ ho !! o = Some (Obj None props)
                ∧ copiedFrom hops h ho p props)
  ∧ (∀ l, l ≠ o → is_Some (hc !! l) → ho !! l = hc !! l).
Proof.
  intros Hc Hparent Hsub Hmeta Htable Ho Hoc. unfold copyTable.
  rewrite (get_own _ _ _ _ _ _ _ Hmeta Htable).
  rewrite (get_mono hops h hc parent table) by done.
  destruct (get hops h parent table) as [| | | | |p] eqn:Hp; try done.
  pose proof (get_closed _ _ _ _ _ Hc Hp) as Hpin.
  unfold ownKeys. destruct (hc !! p) as [[pproto pprops|]|]; try done.
  intros Hcopy.
  eapply (copyLists_spec hops h o p _ Hc Ho Hpin hc [] ho) in Hcopy
    as (Hsub' & (props' & Hprops' & Hcop') & Hframe); [|done|done|done].
  split_and!; [done| |done]. by exists p, props'.
Qed.

(** The heap [createMeta] leaves: the caller's heap is unchanged, the
    child has the parent as prototype and two own tables, and every list
    of a table is a new array with the items of the parent's list. *)
Lemma createMeta_shape hops h parent child h' :
  closed h → is_Some (h !! parent) →
  createMeta hops h parent = Some (child, h') →
  h ⊆ h' ∧ h !! child = None
  ∧ ∃ ow oh,
      h' !! child
      = Some (Obj (Some parent) [("watchers", VRef ow); ("hooks", VRef oh)])
      ∧ (∃ p props, get hops h parent "watchers" = VRef p
                    ∧ h' !! ow = Some (Obj None props)
                    ∧ copiedFrom hops h h' p props)
      ∧ (∃ p props, get hops h parent "hooks" = VRef p
                    ∧ h' !! oh = Some (Obj None props)
                    ∧ copiedFrom hops h h' p props).
Proof.
  intros Hc Hparent. unfold createMeta.
  destruct (alloc h _) as [meta h1] eqn:E1. apply alloc_spec in E1 as [Hm ->].
  destruct (alloc _ (Obj None [])) as [ow h2] eqn:E2.
  apply alloc_spec in E2 as [Hw ->].
  destruct (alloc _ (Obj None [])) as [oh h3] eqn:E3.
  apply alloc_spec in E3 as [Hh ->].
  apply lookup_insert_None in Hw as [Hw Hmw].
  apply lookup_insert_None in Hh as [Hh Hwh].
  apply lookup_insert_None in Hh as [Hh Hmh].
  set (M := Obj (Some parent) [("watchers", VRef ow); ("hooks", VRef oh)]).
  set (h4 := <[meta := M]> _).
  assert (Hsub4 : h ⊆ h4).
  { unfold h4. repeat (apply insert_subseteq_r; [done|]). done. }
  assert (Hmeta4 : h4 !! meta = Some M) by (unfold h4; by rewrite lookup_insert_eq).
  assert (Hoh4 : h4 !! oh = Some (Obj None [])).
  { unfold h4. rewrite lookup_insert_ne by done. by rewrite lookup_insert_eq. }
  assert (How4 : h4 !! ow = Some (Obj None [])).
  { unfold h4. rewrite !lookup_insert_ne by done. by rewrite lookup_insert_eq. }
  destruct (copyTable hops "hooks" meta parent h4) as [h5|] eqn:E5; [|done].
  eapply (copyTable_spec hops h "hooks" meta parent oh h4 h5) in E5
    as (Hsub5 & (ph & hprops & Hph & Hoh5 & Hcoph) & Hframe5); try done.
  assert (Hmeta5 : h5 !! meta = Some M).
  { rewrite Hframe5; [done|congruence|by rewrite Hmeta4]. }
  assert (How5 : h5 !! ow = Some (Obj None [])).
  { rewrite Hframe5; [done|congruence|by rewrite How4]. }
  destruct (copyTable hops "watchers" meta parent h5) as [h6|] eqn:E6; [|done].
  eapply (copyTable_spec hops h "watchers" meta parent ow h5 h6) in E6
    as (Hsub6 & (pw & wprops & Hpw & How6 & Hcopw) & Hframe6); try done.
  intros [= <- <-]. split_and!; [done|done|].
  exists ow, oh. split_and!.
  - rewrite Hframe6; [done|congruence|by rewrite Hmeta5].
  - by exists pw, wprops.
  - exists ph, hprops. split_and!; [done| |].
    + rewrite Hframe6; [done|congruence|by rewrite Hoh5].
    + intros key a' Hk.
      destruct (Hcoph _ _ Hk) as (Hfresh & a & items & ? & ? & Ha').
      split; [done|]. exists a, items. split_and!; [done|done|].
      rewrite Hframe6; [done| |by rewrite Ha']. intros ->. congruence.
Qed.

Lemma copyLists_total hops h o p keys :
  closed h → h !! o = None → is_Some (h !! p) →
  (∀ key, key ∈ keys → truthy (get hops h p key) = true →
     (∃ a items, get hops h p key = VRef a ∧ h !! a = Some (Arr items))
     ∨ (∃ str, get hops h p key = VStr str)) →
  ∀ hc props, h ⊆ hc → hc !! o = Some (Obj None props) →
    is_Some (copyLists hops keys o p hc).
Proof.
  intros Hc Ho Hp. induction keys as [|key keys IH]; intros Hkeys hc props Hsub Hoc; simpl.
  - by eexists.
  - assert (Hkeys' : ∀ k, k ∈ keys → truthy (get hops h p k) = true →
       (∃ a items, get hops h p k = VRef a ∧ h !! a = Some (Arr items))
       ∨ (∃ str, get hops h p k = VStr str)).
    { intros k Hk. apply Hkeys. by apply list_elem_of_further. }
    rewrite (get_mono hops h hc p key) by done.
    destruct (truthy (get hops h p key)) eqn:Htr; [|by eapply IH].
    destruct (Hkeys key (list_elem_of_here _ _) Htr)
      as [(a & items & -> & Ha)|(str & ->)]; simpl.
    + rewrite (lookup_weaken _ _ _ _ Ha Hsub).
      assert (Ha' : hc !! fresh (dom hc) = None)
        by (apply not_elem_of_dom, is_fresh).
      revert Ha'. generalize (fresh (dom hc)). intros a' Ha'.
      assert (Hne : a' ≠ o) by (intros ->; congruence).
      unfold set_prop. rewrite lookup_insert_ne by done. rewrite Hoc.
      eapply IH; [done| |by rewrite lookup_insert_eq].
      apply insert_subseteq_r; [done|].
      apply insert_subseteq_r; [|done]. by eapply lookup_weaken_None.
    + unfold set_prop. rewrite Hoc.
      eapply IH; [done| |by rewrite lookup_insert_eq].
      by apply insert_subseteq_r.
Qed.

Lemma copyTable_total hops h table meta parent o hc proto mprops :
  closed h → is_Some (h !! parent) → h ⊆ hc →
  hc !! meta = Some (Obj proto mprops) → assoc mprops table = Some (VRef o) →
  h !! o = None → hc !! o = Some (Obj None []) →
  (∃ p, get hops h parent table = VRef p ∧ listTable hops h p) →
  is_Some (copyTable hops table meta parent hc).
Proof.
  intros Hc Hparent Hsub Hmeta Htable Ho Hoc (p & Hp & pproto & pprops & Hpl & Hlists).
  unfold copyTable.
  rewrite (get_own _ _ _ _ _ _ _ Hmeta Htable).
  rewrite (get_mono hops h hc parent table) by done. rewrite Hp.
  unfold ownKeys. rewrite (lookup_weaken _ _ _ _ Hpl Hsub).
  eapply copyLists_total; done.
Qed.

(** [createMeta] returns a child for every meta object. *)
Lemma createMeta_total hops h parent :
  metaObject hops h parent → is_Some (createMeta hops h parent).
Proof.
  intros (Hc & Hparent & Hhooks & Hwatchers). unfold createMeta.
  destruct (alloc h _) as [meta h1] eqn:E1. apply alloc_spec in E1 as [Hm ->].
  destruct (alloc _ (Obj None [])) as [ow h2] eqn:E2.
  apply alloc_spec in E2 as [Hw ->].
  destruct (alloc _ (Obj None [])) as [oh h3] eqn:E3.
  apply alloc_spec in E3 as [Hh ->].
  apply lookup_insert_None in Hw as [Hw Hmw].
  apply lookup_insert_None in Hh as [Hh Hwh].
  apply lookup_insert_None in Hh as [Hh Hmh].
  set (M := Obj (Some parent) [("watchers", VRef ow); ("hooks", VRef oh)]).
  set (h4 := <[meta := M]> _).
  assert (Hsub4 : h ⊆ h4).
  { unfold h4. repeat (apply insert_subseteq_r; [done|]). done. }
  assert (Hmeta4 : h4 !! meta = Some M) by (unfold h4; by rewrite lookup_insert_eq).
  assert (Hoh4 : h4 !! oh = Some (Obj None [])).
  { unfold h4. rewrite lookup_insert_ne by done. by rewrite lookup_insert_eq. }
  assert (How4 : h4 !! ow = Some (Obj None [])).
  { unfold h4. rewrite !lookup_insert_ne by done. by rewrite lookup_insert_eq. }
  destruct (copyTable_total hops h "hooks" meta parent oh h4 _ _
              Hc Hparent Hsub4 Hmeta4 eq_refl Hh Hoh4 Hhooks) as [h5 E5].
  rewrite E5.
  eapply (copyTable_spec hops h "hooks" meta parent oh h4 h5) in E5
    as (Hsub5 & _ & Hframe5); try done.
  assert (Hmeta5 : h5 !! meta = Some M).
  { rewrite Hframe5; [done|congruence|by rewrite Hmeta4]. }
  assert (How5 : h5 !! ow = Some (Obj None [])).
  { rewrite Hframe5; [done|congruence|by rewrite How4]. }
  destruct (copyTable_total hops h "watchers" meta parent ow h5 _ _
              Hc Hparent Hsub5 Hmeta5 eq_refl Hw How5 Hwatchers) as [h6 E6].
  rewrite E6. by eexists.
Qed.

End MetaFacts.

(** *** The metadata store: statement *)

Section MetaClaims.

Import Meta.

(** C4.  Let [createMeta] return the child meta object for a parent in
    a closed heap.  After appending [x] to one of the child's hook lists
    or watcher lists, every hook list and watcher list of the parent has
    the items it had before the call, while the child's list, a copy of
    the parent's, has [x] appended.  Any other property ([props],
    [fields], [methods], [computed], [accessors], [mods], ...) read on
    the child is the parent's value, before and after the append. *)
Theorem createMeta_lists_independent_props_inherited hops
    (h : gmap loc Cell) parent child (h' : gmap loc Cell)
    table key x (h'' : gmap loc Cell) table' key' prop :
  closed h → is_Some (h !! parent) →
  createMeta hops h parent = Some (child, h') →
  table ∈ ["hooks"; "watchers"] →
  pushAt (S hops) h' child table key x = Some h'' →
  prop ≠ "hooks" → prop ≠ "watchers" →
  listAt hops h'' parent table' key' = listAt hops h parent table' key'
  ∧ (∃ items, listAt hops h parent table key = Some items
              ∧ listAt (S hops) h' child table key = Some items
              ∧ listAt (S hops) h'' child table key = Some (items ++ [x]))
  ∧ get (S hops) h' child prop = get hops h parent prop
  ∧ get (S hops) h'' child prop = get hops h parent prop.
Proof.
  intros Hc Hparent Hcreate Htable Hpush Hp1 Hp2.
  destruct (createMeta_shape _ _ _ _ _ Hc Hparent Hcreate)
    as (Hsub & Hchild & ow & oh & Hmeta & Hw & Hh).
  assert (Hprop : assoc [("watchers", VRef ow); ("hooks", VRef oh)] prop = None).
  { cbn [assoc]. destruct (String.eqb_spec "watchers" prop) as [<-|_]; [done|].
    by destruct (String.eqb_spec "hooks" prop) as [<-|_]. }
  assert (Htab : ∃ o p props, assoc [("watchers", VRef ow); ("hooks", VRef oh)] table
                              = Some (VRef o)
            ∧ get hops h parent table = VRef p
            ∧ h' !! o = Some (Obj None props) ∧ copiedFrom hops h h' p props).
  { apply elem_of_cons in Htable as [->|Htable].
    - destruct Hh as (p & props & ? & ? & ?). by exists oh, p, props.
    - apply list_elem_of_singleton in Htable as ->.
      destruct Hw as (p & props & ? & ? & ?). by exists ow, p, props. }
  destruct Htab as (o & p & props & Ho & Hp & Hoprops & Hcop).
  unfold pushAt in Hpush. rewrite (get_own _ _ _ _ _ _ _ Hmeta Ho) in Hpush.
  rewrite (get_own_only _ _ _ _ _ Hoprops) in Hpush.
  destruct (assoc props key) as [[| | | | |a']|] eqn:Hkey; try done.
  destruct (Hcop _ _ Hkey) as (Hfresh & a & items & Hget & Ha & Ha').
  unfold push in Hpush. rewrite Ha' in Hpush. injection Hpush as <-.
  assert (Hsub' : h ⊆ <[a' := Arr (items ++ [x])]> h') by by apply insert_subseteq_r.
  assert (Hne : a' ≠ child) by (intros ->; congruence).
  assert (Hneo : a' ≠ o) by (intros ->; congruence).
  assert (Hmeta' : <[a' := Arr (items ++ [x])]> h' !! child
                   = Some (Obj (Some parent)
                             [("watchers", VRef ow); ("hooks", VRef oh)]))
    by by rewrite lookup_insert_ne.
  assert (Hoprops' : <[a' := Arr (items ++ [x])]> h' !! o = Some (Obj None props))
    by by rewrite lookup_insert_ne.
  split_and!.
  - by apply listAt_mono.
  - exists items. split_and!.
    + unfold listAt. by rewrite Hp, Hget, Ha.
    + unfold listAt. rewrite (get_own _ _ _ _ _ _ _ Hmeta Ho).
      rewrite (get_own_only _ _ _ _ _ Hoprops), Hkey. by rewrite Ha'.
    + unfold listAt. rewrite (get_own _ _ _ _ _ _ _ Hmeta' Ho).
      rewrite (get_own_only _ _ _ _ _ Hoprops'), Hkey.
      by rewrite lookup_insert_eq.
  - rewrite (get_inherit _ _ _ _ _ _ Hmeta Hprop). by apply get_mono.
  - rewrite (get_inherit _ _ _ _ _ _ Hmeta' Hprop). by apply get_mono.
Qed.

Lemma parentHeap_closed : closed MetaSamples.parentHeap.
Proof. apply (bool_decide_unpack _). vm_compute. exact I. Qed.

Lemma createMeta_lists_independent_props_inherited_witness :
  listAt 1 MetaSamples.pushedHeap 1%positive "hooks" "created"
  = listAt 1 MetaSamples.parentHeap 1%positive "hooks" "created"
  ∧ (∃ items, listAt 1 MetaSamples.parentHeap 1%positive "hooks" "created"
              = Some items
              ∧ listAt 2 MetaSamples.childHeap MetaSamples.child "hooks" "created"
                = Some items
              ∧ listAt 2 MetaSamples.pushedHeap MetaSamples.child "hooks" "created"
                = Some (items ++ [VStr "extra"]))
  ∧ get 2 MetaSamples.childHeap MetaSamples.child "props"
    = get 1 MetaSamples.parentHeap 1%positive "props"
  ∧ get 2 MetaSamples.pushedHeap MetaSamples.child "props"
    = get 1 MetaSamples.parentHeap 1%positive "props".
Proof.
  apply (createMeta_lists_independent_props_inherited 1
           MetaSamples.parentHeap 1%positive MetaSamples.child
           MetaSamples.childHeap "hooks" "created" (VStr "extra")
           MetaSamples.pushedHeap "hooks" "created" "props").
  - apply (bool_decide_unpack _). vm_compute. exact I.
  - vm_compute. eauto.
  - vm_compute. reflexivity.
  - set_solver.
  - vm_compute. reflexivity.
  - discriminate.
  - discriminate.
Defined.

End MetaClaims.

(** ** Watcher binder *)

Section WatchersClaims.

Import Watchers.

Context {W : Type}.
Variable ctx : val.
Variable ctxGet globalGet : string → val.
Variable dasherize : string → string.
Variable ctxIsEmitter : bool.

Abbreviation bindKey := (bindKey (W:=W) ctx ctxGet globalGet dasherize ctxIsEmitter).
Abbreviation bindWatchers :=
  (bindWatchers (W:=W) ctx ctxGet globalGet dasherize ctxIsEmitter).

Lemma attachStage_other hook :
  hook ∈ lifecycleStages → hook ∉ ["beforeCreate"; "created"; "mounted"] →
  attachStage hook = false.
Proof.
  unfold lifecycleStages. intros Hin Hnot.
  repeat (apply elem_of_cons in Hin as [->|Hin]);
    try (by apply elem_of_nil in Hin);
    try (exfalso; apply Hnot; set_solver);
    by vm_compute.
Qed.

(** What one key contributes: subscriptions for its own watchers, and
    only at the stage of its marker. *)
Lemma bindKey_elem hook key ws sub :
  hook ∈ ["beforeCreate"; "created"; "mounted"] →
  sub ∈ bindKey hook key ws →
  sourceOf sub = key ∧ stageOf key = hook
  ∧ ∃ els, ws = Some els ∧ watcherOf sub ∈ els.
Proof.
  intros Hhook Hsub. unfold Watchers.bindKey in Hsub.
  unfold stageOf, markerOf.
  destruct ws as [els|];
    [|destruct (customWatcherRgxp key) as [[[m l] rest]|];
      by apply elem_of_nil in Hsub].
  destruct (customWatcherRgxp key) as [[[m l] rest]|]; simpl in Hsub.
  - repeat (apply elem_of_cons in Hhook as [->|Hhook]);
      [..|by apply elem_of_nil in Hhook];
      (destruct (String.eqb_spec m "!") as [->|_];
       [|destruct (String.eqb m "?")]); simpl in Hsub |- *;
      try (by apply elem_of_nil in Hsub);
      apply list_elem_of_fmap in Hsub as (el & -> & Hel);
      (split_and!; [by case_match|done|exists els; split; [done|by case_match]]).
  - repeat (apply elem_of_cons in Hhook as [->|Hhook]);
      [..|by apply elem_of_nil in Hhook]; simpl in Hsub;
      try (by apply elem_of_nil in Hsub);
      apply list_elem_of_fmap in Hsub as (el & -> & Hel);
      (split_and!; [done|done|by exists els]).
Qed.

Lemma bindKey_complete key els el :
  el ∈ els →
  ∃ sub, sub ∈ bindKey (stageOf key) key (Some els)
         ∧ sourceOf sub = key ∧ watcherOf sub = el.
Proof.
  intros Hel. unfold Watchers.bindKey, stageOf, markerOf.
  destruct (customWatcherRgxp key) as [[[m l] rest]|]; simpl.
  - destruct (String.eqb m "!") eqn:E1; simpl.
    + eexists. split; [apply list_elem_of_fmap; eexists; split; [reflexivity|exact Hel]|].
      by case_match.
    + destruct (String.eqb m "?") eqn:E2; simpl;
        (eexists; split; [apply list_elem_of_fmap; eexists; split; [reflexivity|exact Hel]|];
         by case_match).
  - eexists. split; [apply list_elem_of_fmap; eexists; split; [reflexivity|exact Hel]|].
    done.
Qed.

Lemma stageOf_attach key : attachStage (stageOf key) = true.
Proof.
  unfold stageOf. destruct (markerOf key) as [m|]; [|done].
  destruct (String.eqb m "!"); [done|]. by destruct (String.eqb m "?").
Qed.

(** C5 (amended).  [bindWatchers] asks for no subscription when the
    stage is none of [beforeCreate], [created] and [mounted].  At one of
    these three stages it activates exactly the watchers of the keys
    whose marker stands for that stage: the keys marked "!" at
    [beforeCreate], the keys marked "?" at [mounted], and every other key
    at [created], among them the ordinary reactive watchers, which are
    therefore not bound at [mounted].  So no watcher is bound at two
    different stages. *)
Theorem bindWatchers_stage_filter (watchers : list (string * option (list W))) :
  (∀ hook, hook ∈ lifecycleStages →
           hook ∉ ["beforeCreate"; "created"; "mounted"] →
           bindWatchers hook watchers = [])
  ∧ (∀ hook sub, hook ∈ ["beforeCreate"; "created"; "mounted"] →
                 sub ∈ bindWatchers hook watchers →
                 stageOf (sourceOf sub) = hook
                 ∧ ∃ els, (sourceOf sub, Some els) ∈ watchers
                          ∧ watcherOf sub ∈ els)
  ∧ (∀ key els el, (key, Some els) ∈ watchers → el ∈ els →
                   ∃ sub, sub ∈ bindWatchers (stageOf key) watchers
                          ∧ sourceOf sub = key ∧ watcherOf sub = el)
  ∧ (∀ key, markerOf key = None → stageOf key = "created")
  ∧ (∀ hook hook' sub sub',
       hook ∈ ["beforeCreate"; "created"; "mounted"] →
       hook' ∈ ["beforeCreate"; "created"; "mounted"] →
       sub ∈ bindWatchers hook watchers →
       sub' ∈ bindWatchers hook' watchers →
       sourceOf sub = sourceOf sub' → hook = hook').
Proof.
  assert (Hsound : ∀ hook sub, hook ∈ ["beforeCreate"; "created"; "mounted"] →
                 sub ∈ bindWatchers hook watchers →
                 stageOf (sourceOf sub) = hook
                 ∧ ∃ els, (sourceOf sub, Some els) ∈ watchers
                          ∧ watcherOf sub ∈ els).
  { intros hook sub Hhook. unfold Watchers.bindWatchers.
    destruct (attachStage hook); simpl; [|by intros ?%elem_of_nil].
    intros ([key ws] & Hsub & Hin)%list_elem_of_bind.
    destruct (bindKey_elem _ _ _ _ Hhook Hsub) as (-> & <- & els & -> & Hel).
    split; [done|]. by exists els. }
  split_and!.
  - intros hook Hstage Hnot. unfold Watchers.bindWatchers.
    by rewrite attachStage_other.
  - exact Hsound.
  - intros key els el Hin Hel. unfold Watchers.bindWatchers.
    rewrite stageOf_attach. simpl.
    destruct (bindKey_complete key els el Hel) as (sub & Hsub & Hsrc & Hw).
    exists sub. split; [|done]. apply list_elem_of_bind. by exists (key, Some els).
  - intros key Hm. unfold stageOf. by rewrite Hm.
  - intros hook hook' sub sub' Hh Hh' Hsub Hsub' Hsrc.
    destruct (Hsound _ _ Hh Hsub) as [<- _].
    destruct (Hsound _ _ Hh' Hsub') as [<- _]. by rewrite Hsrc.
Qed.

End WatchersClaims.

Lemma bindWatchers_stage_filter_witness :
  WatcherSamples.bind "updated" WatcherSamples.watchers = []
  ∧ Watchers.stageOf "?remote:path.to.value" = "mounted"
  ∧ (∃ sub, sub ∈ WatcherSamples.bind (Watchers.stageOf "foo") WatcherSamples.watchers
            ∧ Watchers.sourceOf sub = "foo" ∧ Watchers.watcherOf sub = 1)
  ∧ Watchers.stageOf "foo" = "created".
Proof.
  destruct (bindWatchers_stage_filter (W:=nat) (VRef 1%positive)
              WatcherSamples.lookupRemote (λ _, VUndefined) (λ str, str) false
              WatcherSamples.watchers) as (Hnone & Hsound & Hcomplete & Hplain & _).
  split_and!.
  - apply Hnone.
    + apply (bool_decide_unpack _). vm_compute. exact I.
    + apply (bool_decide_unpack _). vm_compute. exact I.
  - apply (Hsound "mounted"
             (Watchers.AsyncOn "?remote:path.to.value" (VRef 2%positive)
                "path.to.value" 2)).
    + apply (bool_decide_unpack _). vm_compute. exact I.
    + vm_compute. apply list_elem_of_here.
  - apply (Hcomplete "foo" [1] 1).
    + apply (bool_decide_unpack _). vm_compute. exact I.
    + apply (bool_decide_unpack _). vm_compute. exact I.
  - apply Hplain. reflexivity.
Defined.

(** C5 (counterexample).  The key [foo] is an ordinary reactive key: its
    watcher is bound at [created], and [bindWatchers] at [mounted] asks
    for nothing. *)
Lemma bindWatchers_mounted_skips_reactive :
  Watchers.markerOf "foo" = None
  ∧ WatcherSamples.bind "mounted" [("foo", Some [1])] = []
  ∧ WatcherSamples.bind "created" [("foo", Some [1])]
    = [Watchers.Watch "foo" "foo" 1].
Proof. split_and!; vm_compute; reflexivity. Qed.

(** Supporting fact for C5: the key of the specification's scenario is
    bound at [mounted] only, on the object [remote] resolves to and not
    on the context. *)
Lemma bindWatchers_remote_scenario :
  Watchers.customWatcherRgxp "?remote:path.to.value"
  = Some ("?", "remote", "path.to.value")
  ∧ WatcherSamples.bind "created" [("?remote:path.to.value", Some [2])] = []
  ∧ WatcherSamples.bind "mounted" [("?remote:path.to.value", Some [2])]
    = [Watchers.AsyncOn "?remote:path.to.value" (VRef 2%positive)
         "path.to.value" 2].
Proof. split_and!; vm_compute; reflexivity. Qed.

(** * Part III. Further properties of the runtime *)

(** ** Field initializer *)

Lemma size_list_to_set_le (l : list string) :
  (size (list_to_set l : gset string) ≤ length l)%nat.
Proof.
  induction l as [|x l IH].
  - vm_compute. lia.
  - rewrite list_to_set_cons, size_union_alt, size_singleton. simpl.
    pose proof (subseteq_size (list_to_set l ∖ {[x]}) (list_to_set l : gset string)) as H.
    assert (list_to_set l ∖ {[x]} ⊆ (list_to_set l : gset string)) by set_solver.
    specialize (H ltac:(done)). lia.
Qed.

Section FieldsMore.

Import Fields.

Variable env : Env.
Variable fields : list (string * ComponentField).
Variable instance : gmap string val.

Abbreviation inData := (inData env).
Abbreviation visit := (visit env fields instance).
Abbreviation sweep := (sweep env fields instance).
Abbreviation sweepLoop fuel := (sweepLoop env fuel fields instance).

Lemma buildFieldList_fold (fs : list (string * ComponentField)) front back :
  fold_left
    (λ fieldList '(key, el),
       if sortsFirst env instance key el then key :: fieldList
       else fieldList ++ [key])
    fs (reverse front ++ back)
  = reverse (front ++ (filter (λ kv, sortsFirst env instance kv.1 kv.2 = true) fs).*1)
    ++ (back ++ (filter (λ kv, sortsFirst env instance kv.1 kv.2 = false) fs).*1).
Proof.
  revert front back. induction fs as [|[k el] fs IH]; intros front back; simpl.
  - by rewrite !app_nil_r.
  - rewrite !filter_cons. simpl.
    destruct (sortsFirst env instance k el) eqn:Hk; simpl.
    + replace (k :: reverse front ++ back) with (reverse (front ++ [k]) ++ back)
        by (by rewrite reverse_app).
      rewrite IH. by rewrite <- !app_assoc.
    + rewrite <- app_assoc. rewrite IH. by rewrite <- !app_assoc.
Qed.

Lemma sweepLoop_more_fuel fuel fuel' fieldList s d :
  sweepLoop fuel fieldList s = Returned d → (fuel ≤ fuel')%nat →
  sweepLoop fuel' fieldList s = Returned d.
Proof.
  revert fuel' s. induction fuel as [|fuel IH]; intros fuel' s; simpl; [done|].
  destruct fuel' as [|fuel']; [lia|]. simpl.
  destruct (sweep fieldList s) as [[e se]|s']; [done|].
  destruct (_ && _); [done|]. intros H Hle. apply IH; [done|lia].
Qed.

(** *** Callbacks that leave the data object alone *)

Hypothesis callbacks_quiet : quiet fields.
Hypothesis ctx_apart : ctxIsData env = false.

Lemma visit_error key s e se : visit key s = inl (e, se) → se = s.
Proof.
  unfold Fields.visit. destruct (Fields.inData env (data s) key); [done|].
  destruct (assoc fields key) as [el|] eqn:Hel; [|by intros [= _ <-]].
  destruct (scanAfter _ _ _ _ _ _); [|done|by intros [= _ <-]].
  assert (Hblock : ∀ x, initField env instance key el s ≠ inl x).
  { intros x. unfold initField.
    destruct (initCall_quiet fields callbacks_quiet key el
                (atCall env key (data s)) Hel) as [v ->]. done. }
  destruct (_ || _); [|done]. intros H. by apply Hblock in H.
Qed.

Lemma sweep_error_mono fieldList s e se :
  sweep fieldList s = inl (e, se) → data s ⊆ data se.
Proof.
  revert s. induction fieldList as [|key rest IH]; intros s; simpl; [done|].
  destruct (visit key s) as [[e' se']|s1] eqn:Hv.
  - intros [= -> ->]. by apply visit_error in Hv as ->.
  - intros Hs.
    etrans; [by eapply (visit_data_mono env fields instance)|by apply IH].
Qed.

Lemma visit_dom key s s' :
  visit key s = inr s' → dom (data s') ⊆ dom (data s) ∪ {[key]}.
Proof.
  intros Hv.
  destruct (visit_calm env fields instance callbacks_quiet ctx_apart _ _ _ Hv)
    as [->|(_ & _ & v & ->)]; [set_solver|].
  rewrite dom_insert_L. set_solver.
Qed.

Lemma sweep_dom fieldList s :
  match sweep fieldList s with
  | inl (_, s') | inr s' =>
      dom (data s') ⊆ dom (data s) ∪ list_to_set fieldList
  end.
Proof.
  revert s. induction fieldList as [|key rest IH]; intros s; simpl; [set_solver|].
  destruct (visit key s) as [[e se]|s1] eqn:Hv.
  - apply visit_error in Hv as ->. set_solver.
  - apply visit_dom in Hv. specialize (IH s1).
    destruct (sweep rest s1) as [[e se]|s']; set_solver.
Qed.

(** What a call leaves in the data object, on return or at a throw. *)
Lemma sweepLoop_frame fuel fieldList s :
  match sweepLoop fuel fieldList s with
  | Returned d | Threw _ d =>
      data s ⊆ d ∧ dom d ⊆ dom (data s) ∪ list_to_set fieldList
  | OutOfFuel => True
  end.
Proof.
  revert s. induction fuel as [|fuel IH]; intros s; simpl; [done|].
  pose proof (sweep_dom fieldList s) as Hdom.
  destruct (sweep fieldList s) as [[e se]|s'] eqn:Hs.
  - split; [by eapply sweep_error_mono|done].
  - pose proof (sweep_data_mono env fields instance callbacks_quiet ctx_apart
                  _ _ _ Hs) as Hmono.
    destruct (_ && _); [done|].
    specialize (IH s').
    destruct (Fields.sweepLoop _ _ _ _ _ s') as [d|e d|]; [..|done];
      (destruct IH as [IH1 IH2]; split; [by etrans|set_solver]).
Qed.

(** While the atomic queue is empty and atoms await nothing, a visited
    field gets its entry or is put in the queue, and the atomic queue
    stays empty. *)
Lemma visit_entry_or_queued key s s' :
  (∀ k el, (k, el) ∈ fields → atom el = true → after el = []) →
  visit key s = inr s' → atomQueue s = ∅ →
  atomQueue s' = ∅ ∧ (inData (data s') key = true ∨ key ∈ queue s').
Proof.
  intros Hfree Hv Hempty.
  destruct (visit_inv _ _ _ _ _ _ Hv)
    as [Hin ->|el Hnot Hel Hscan ->|el Hnot Hel Hscan Hatom Hsz ->
        |el v d Hnot Hel Hscan Hcall ->].
  - auto.
  - simpl. destruct (atom el) eqn:Hatom.
    + apply assoc_Some_pair in Hel. rewrite (Hfree _ _ Hel Hatom) in Hscan. done.
    + split; [done|]. right. set_solver.
  - rewrite Hempty, size_empty in Hsz. done.
  - split; [simpl; set_solver|]. left. simpl.
    rewrite (block_calm env fields instance callbacks_quiet ctx_apart
               key el v d s) by done.
    apply inData_insert. by left.
Qed.

Lemma visit_stays_queued key s s' k :
  visit key s = inr s' → inData (data s) k = true ∨ k ∈ queue s →
  inData (data s') k = true ∨ k ∈ queue s'.
Proof.
  intros Hv [Hk|Hk].
  - left. eapply inData_mono; [|done].
    by eapply (visit_data_mono env fields instance).
  - destruct (visit_inv _ _ _ _ _ _ Hv)
      as [Hin ->|el Hnot Hel Hscan ->|el Hnot Hel Hscan Hatom Hsz ->
          |el v d Hnot Hel Hscan Hcall ->];
      [by right|right; simpl; set_solver|by right|].
    destruct (decide (k = key)) as [->|Hne].
    + left. simpl.
      rewrite (block_calm env fields instance callbacks_quiet ctx_apart
                 key el v d s) by done.
      apply inData_insert. by left.
    + right. simpl. set_solver.
Qed.

Lemma sweep_entry_or_queued fieldList s s' :
  (∀ k el, (k, el) ∈ fields → atom el = true → after el = []) →
  sweep fieldList s = inr s' → atomQueue s = ∅ →
  atomQueue s' = ∅
  ∧ ∀ k, k ∈ fieldList ∨ inData (data s) k = true ∨ k ∈ queue s →
         inData (data s') k = true ∨ k ∈ queue s'.
Proof.
  intros Hfree. revert s. induction fieldList as [|key rest IH]; intros s; simpl.
  - intros [= <-] Hempty. split; [done|]. intros k [?%elem_of_nil|?]; done.
  - destruct (visit key s) as [[e se]|s1] eqn:Hv; [done|]. intros Hs Hempty.
    destruct (visit_entry_or_queued _ _ _ Hfree Hv Hempty) as [Hempty1 Hkey].
    destruct (IH _ Hs Hempty1) as [Hempty' Hall]. split; [done|].
    intros k [[->|Hk]%elem_of_cons|Hk].
    + apply Hall. by right.
    + apply Hall. by left.
    + apply Hall. right. by eapply visit_stays_queued.
Qed.

Lemma sweepLoop_complete fuel fieldList s d :
  (∀ k el, (k, el) ∈ fields → atom el = true → after el = []) →
  sweepLoop fuel fieldList s = Returned d → atomQueue s = ∅ →
  ∀ k, k ∈ fieldList → inData d k = true.
Proof.
  intros Hfree. revert s. induction fuel as [|fuel IH]; intros s; simpl; [done|].
  destruct (sweep fieldList s) as [[e se]|s'] eqn:Hs; [done|].
  intros Hret Hempty.
  destruct (sweep_entry_or_queued _ _ _ Hfree Hs Hempty) as [Hempty' Hall].
  destruct (bool_decide (size (atomQueue s') = 0)
            && bool_decide (size (queue s') = 0)) eqn:Hb.
  - injection Hret as <-. intros k Hk.
    apply andb_prop in Hb as [_ Hq]. apply bool_decide_eq_true_1 in Hq.
    apply size_empty_iff in Hq. destruct (Hall k); [by left|done|set_solver].
  - by eapply IH.
Qed.

End FieldsMore.

(** X1.  When the callbacks leave the data object alone and [ctx] is
    another object, [initDataObject] only adds entries, and only for
    declared fields: whether it returns or throws, the data object it
    leaves contains every entry it was given, unchanged, and its other
    keys are keys of the field map. *)
Theorem initDataObject_frame env fields instance (d0 : gmap string val) fuel :
  Fields.quiet fields → Fields.ctxIsData env = false →
  match Fields.initDataObject env fuel fields instance d0 with
  | Fields.Returned d | Fields.Threw _ d =>
      d0 ⊆ d ∧ dom d ⊆ dom d0 ∪ list_to_set fields.*1
  | Fields.OutOfFuel => True
  end.
Proof.
  intros Hquiet Hapart. unfold Fields.initDataObject.
  pose proof (sweepLoop_frame env fields instance Hquiet Hapart fuel
                (Fields.buildFieldList env fields instance) (Fields.start d0)) as H.
  destruct (Fields.sweepLoop _ _ _ _ _ _) as [d|e d|]; [..|done];
    (destruct H as [H1 H2]; split; [done|]);
    (intros k Hk; apply H2 in Hk; simpl in Hk;
     apply elem_of_union in Hk as [Hk|Hk]; [set_solver|];
     apply elem_of_list_to_set, buildFieldList_elem in Hk; set_solver).
Qed.

(** X2.  The list the sweeps go through holds every key of the field
    map once: first the fields that sort first (atoms, and fields
    without [init] that have a default or an instance value) in the
    reverse of their declaration order, then the other fields in
    declaration order. *)
Theorem buildFieldList_order env
    (fields : list (string * Fields.ComponentField))
    (instance : gmap string val) :
  Fields.buildFieldList env fields instance
  = reverse (filter (λ kv, Fields.sortsFirst env instance kv.1 kv.2 = true) fields).*1
    ++ (filter (λ kv, Fields.sortsFirst env instance kv.1 kv.2 = false) fields).*1
  ∧ Fields.buildFieldList env fields instance ≡ₚ fields.*1.
Proof.
  assert (Heq : Fields.buildFieldList env fields instance
    = reverse (filter (λ kv, Fields.sortsFirst env instance kv.1 kv.2 = true) fields).*1
      ++ (filter (λ kv, Fields.sortsFirst env instance kv.1 kv.2 = false) fields).*1).
  { unfold Fields.buildFieldList.
    exact (buildFieldList_fold env instance fields [] []). }
  split; [done|]. rewrite Heq, reverse_Permutation.
  clear Heq. induction fields as [|[k el] fs IH]; [done|].
  rewrite !filter_cons. simpl.
  destruct (Fields.sortsFirst env instance k el) eqn:Hk.
  - simpl. apply perm_skip, IH.
  - simpl. rewrite <- Permutation_middle. apply perm_skip, IH.
Qed.

(** X3.  When the dependency graph is valid, no atom awaits anything and
    the callbacks leave the data object alone, [initDataObject] returns
    a data object in which every field of the map is. *)
Theorem initDataObject_complete env fields instance (d0 : gmap string val) :
  Fields.quiet fields → Fields.ctxIsData env = false →
  Fields.validGraph fields →
  (∀ k el, (k, el) ∈ fields → Fields.atom el = true → Fields.after el = []) →
  ∃ fuel d, Fields.initDataObject env fuel fields instance d0
            = Fields.Returned d
            ∧ ∀ key, key ∈ fields.*1 → Fields.inData env d key = true.
Proof.
  intros Hquiet Hapart Hvalid Hfree.
  destruct (initDataObject_valid_returns env fields instance d0
              Hquiet Hapart Hvalid) as (fuel & d & Hret).
  exists fuel, d. split; [done|]. intros key Hkey.
  eapply (sweepLoop_complete env fields instance Hquiet Hapart);
    [done|exact Hret|done|].
  by apply buildFieldList_elem.
Qed.

(** X4.  On a valid dependency graph whose callbacks leave the data
    object alone, [initDataObject] returns after at most one sweep more
    than there are fields, and more fuel does not change what it
    returns. *)
Theorem initDataObject_sweep_bound env fields instance (d0 : gmap string val) :
  Fields.quiet fields → Fields.ctxIsData env = false →
  Fields.validGraph fields →
  ∃ d, ∀ fuel, length fields < fuel →
         Fields.initDataObject env fuel fields instance d0
         = Fields.Returned d.
Proof.
  intros Hquiet Hapart [rank Hrank].
  destruct (sweepLoop_valid_returns env fields instance Hquiet Hapart rank Hrank
              (Fields.buildFieldList env fields instance) (length fields)
              (Fields.start d0)) as [d Hd].
  - apply buildFieldList_elem.
  - split; intros k Hk; simpl in Hk; set_solver.
  - simpl. etrans; [apply subseteq_size|].
    + unfold Fields.missing. intros k [_ Hk]%elem_of_filter. exact Hk.
    + etrans; [apply size_list_to_set_le|]. by rewrite length_fmap.
  - exists d. intros fuel Hfuel. unfold Fields.initDataObject.
    eapply sweepLoop_more_fuel; [exact Hd|lia].
Qed.

(** ** Hook runner *)

Section HooksMore.

Import Hooks HookOrder.

Variable random : nat → string.

Lemma on_no_deps w el i e :
  awaited w el = [] →
  on w (after el) i e = {| queue := queue e ++ [i]; events := events e |}.
Proof.
  unfold awaited, on. destruct (after el) as [l|]; [|done].
  intros ->. done.
Qed.

Lemma register_no_deps w i hooks e :
  Forall (λ el, awaited w el = []) hooks →
  register w i hooks e
  = {| queue := queue e ++ seq i (length hooks); events := events e |}.
Proof.
  intros Hall. revert i e. induction Hall as [|el hooks Hel _ IH]; intros i e; simpl.
  - rewrite app_nil_r. by destruct e.
  - rewrite on_no_deps by done. rewrite IH. simpl. by rewrite <- app_assoc.
Qed.

Lemma emittedName_world el w :
  trace (emittedName random el w).2 = trace w
  ∧ pending (emittedName random el w).2 = pending w
  ∧ sets (emittedName random el w).2 = sets w.
Proof.
  unfold emittedName. destruct (name el) as [n|]; [|done].
  by destruct (String.eqb n "").
Qed.

(** With no listener registered, a callback runs its hook and nothing
    else. *)
Lemma callback_no_events fuel hooks e i w el :
  events e = ∅ → hooks !! i = Some el →
  ∃ w', callback random (S fuel) hooks e i w = Some (w', deferred el)
    ∧ trace w' = trace w ++ firedEvents hooks i
    ∧ pending w' = pending w ++ (if deferred el then [i] else [])
    ∧ sets w' = sets w.
Proof.
  intros He Hi. unfold firedEvents, deferred. simpl. setoid_rewrite Hi.
  destruct (fn el).
  - destruct (emittedName random el (observe (Done i) (observe (Start i) w)))
      as [ev w2] eqn:Hname.
    pose proof (emittedName_world el (observe (Done i) (observe (Start i) w))) as Hw.
    rewrite Hname in Hw. simpl in Hw. destruct Hw as (Ht & Hp & Hs).
    unfold emit. rewrite He, lookup_empty. exists w2.
    split_and!; [done| |by rewrite app_nil_r|done].
    rewrite Ht. by rewrite <- app_assoc.
  - eexists. split_and!; done.
Qed.

Lemma fireLoop_no_events fuel hooks e q :
  events e = ∅ → Forall (λ i, i < length hooks) q →
  ∀ w tasks, ∃ w',
    fireLoop (callback random (S fuel) hooks e) q w tasks
    = Some (w', tasks || bool_decide (deferredOf hooks q ≠ []))
    ∧ trace w' = trace w ++ (q ≫= firedEvents hooks)
    ∧ pending w' = pending w ++ deferredOf hooks q
    ∧ sets w' = sets w.
Proof.
  intros He Hq. induction Hq as [|i q Hi _ IH]; intros w tasks.
  - exists w. simpl. rewrite orb_false_r, !app_nil_r. done.
  - apply lookup_lt_is_Some in Hi as [el Hel].
    destruct (callback_no_events fuel hooks e i w el He Hel)
      as (w1 & Hcb & Ht1 & Hp1 & Hs1).
    cbn [fireLoop]. rewrite Hcb.
    destruct (IH w1 (tasks || deferred el)) as (w' & Hfire & Ht & Hp & Hs).
    exists w'. rewrite Hfire.
    assert (Hd : deferredAt hooks i = deferred el)
      by (unfold deferredAt; by rewrite Hel).
    unfold deferredOf in *. rewrite filter_cons, Hd.
    split_and!.
    + f_equal. f_equal. destruct (deferred el); simpl.
      * by rewrite orb_true_r.
      * by rewrite orb_false_r.
    + rewrite Ht, Ht1. by rewrite <- app_assoc.
    + rewrite Hp, Hp1. destruct (deferred el); simpl.
      * by rewrite <- app_assoc.
      * by rewrite app_nil_r.
    + congruence.
Qed.

End HooksMore.


Section HooksGated.

Import Hooks HookOrder.

Variable random : nat → string.
Variable hooks : list HookDescriptor.
Variable w0 : World.

Abbreviation released := (released hooks w0).
Abbreviation keepsGated := (keepsGated hooks w0).

Lemma released_app t ext i : released t i → released (t ++ ext) i.
Proof.
  intros Hrel el Hel Hne. destruct (Hrel el Hel Hne) as (k' & j & elj & Hk & ? & ?).
  exists k', j, elj. split_and!; [|done|done]. by apply lookup_app_l_Some.
Qed.

Lemma gated_app_done t i : gated hooks w0 t → gated hooks w0 (t ++ [Done i]).
Proof.
  intros Hg k i' el Hk Hel Hne.
  destruct (decide (k < length t)) as [Hlt|Hge].
  - rewrite lookup_app_l in Hk by done.
    destruct (Hg k i' el Hk Hel Hne) as (k' & j & elj & ? & Hk' & ? & ?).
    exists k', j, elj. split_and!; [done| |done|done]. by apply lookup_app_l_Some.
  - rewrite lookup_app_r in Hk by lia.
    destruct (k - length t) as [|n]; simpl in Hk; [done|].
    by rewrite lookup_nil in Hk.
Qed.

Lemma gated_app_start t i :
  gated hooks w0 t → released t i → gated hooks w0 (t ++ [Start i]).
Proof.
  intros Hg Hrel k i' el Hk Hel Hne.
  destruct (decide (k < length t)) as [Hlt|Hge].
  - rewrite lookup_app_l in Hk by done.
    destruct (Hg k i' el Hk Hel Hne) as (k' & j & elj & ? & Hk' & ? & ?).
    exists k', j, elj. split_and!; [done| |done|done]. by apply lookup_app_l_Some.
  - rewrite lookup_app_r in Hk by lia.
    destruct (k - length t) as [|n] eqn:Hn; simpl in Hk;
      [|by rewrite lookup_nil in Hk].
    injection Hk as <-.
    destruct (Hrel el Hel Hne) as (k' & j & elj & Hk' & ? & ?).
    exists k', j, elj. split_and!; [|by apply lookup_app_l_Some|done|done].
    apply lookup_lt_Some in Hk'. lia.
Qed.

Lemma emittedName_name el w ev w2 :
  emittedName random el w = (ev, w2) →
  trace w2 = trace w ∧ (anonymous el = true ∨ name el = Some ev).
Proof.
  unfold emittedName, anonymous. destruct (name el) as [n|].
  - destruct (String.eqb n ""); intros [= <- <-]; auto.
  - intros [= <- <-]. auto.
Qed.

Variable e : Emitter.
Hypothesis listeners_await :
  ∀ ev o l cb, events e !! ev = Some o → (l, cb) ∈ o →
    ∃ el, hooks !! cb = Some el ∧ after el = Some l ∧ ev ∈ members w0 l.

Lemma emitLoop_gated run ev o :
  keepsGated run →
  ∀ w tasks w' b, emitLoop run ev o w tasks = Some (w', b) →
    gated hooks w0 (trace w) →
    (∀ l cb, (l, cb) ∈ o → released (trace w) cb) →
    gated hooks w0 (trace w') ∧ ∃ ext, trace w' = trace w ++ ext.
Proof.
  intros Hrun. induction o as [|[l cb] o IH]; intros w tasks w' b; simpl.
  - intros [= <- <-] Hg _. split; [done|]. exists []. by rewrite app_nil_r.
  - set (w1 := with_sets w _).
    destruct (run cb w1) as [[w2 p]|] eqn:Hcb; [|done].
    intros Hrest Hg Hrel.
    destruct (Hrun cb w1 w2 p Hcb) as (Hg2 & ext & Hext); [done| |].
    { eapply Hrel. apply list_elem_of_here. }
    simpl in Hext.
    destruct (IH _ _ _ _ Hrest Hg2) as (Hg' & ext' & Hext').
    { intros l' cb' Hin. rewrite Hext. apply released_app.
      eapply Hrel. by apply list_elem_of_further. }
    split; [done|]. exists (ext ++ ext'). by rewrite Hext', Hext, <- app_assoc.
Qed.

Lemma fireLoop_gated run q :
  keepsGated run →
  ∀ w tasks w' b, fireLoop run q w tasks = Some (w', b) →
    gated hooks w0 (trace w) →
    (∀ cb, cb ∈ q → released [] cb) →
    gated hooks w0 (trace w').
Proof.
  intros Hrun. induction q as [|cb q IH]; intros w tasks w' b; simpl.
  - by intros [= <- <-].
  - destruct (run cb w) as [[w2 p]|] eqn:Hcb; [|done].
    intros Hrest Hg Hrel.
    destruct (Hrun cb w w2 p Hcb) as (Hg2 & _); [done| |].
    { apply (released_app [] (trace w)). apply Hrel, list_elem_of_here. }
    eapply IH; [done|done|]. intros cb' Hin. by apply Hrel, list_elem_of_further.
Qed.

(** The completion of hook [i]: its [Done] is recorded and its name is
    emitted. *)
Lemma emit_after_done run i el w ev w2 w' b :
  keepsGated run → hooks !! i = Some el →
  emittedName random el (observe (Done i) w) = (ev, w2) →
  emit run e ev w2 = Some (w', b) →
  gated hooks w0 (trace w) →
  gated hooks w0 (trace w') ∧ ∃ ext, trace w' = trace w ++ ext.
Proof.
  intros Hrun Hel Hname Hemit Hg.
  apply emittedName_name in Hname as [Ht Hev]. simpl in Ht.
  unfold emit in Hemit.
  destruct (events e !! ev) as [o|] eqn:Ho.
  - apply (emitLoop_gated run ev o Hrun) in Hemit as (Hg' & ext & Hext).
    + split; [done|]. exists ([Done i] ++ ext). by rewrite Hext, Ht, <- app_assoc.
    + rewrite Ht. by apply gated_app_done.
    + intros l cb Hin elc Hcb Hne.
      destruct (listeners_await ev o l cb Ho Hin) as (elc' & Hcb' & Hafter & Hmem).
      assert (elc' = elc) as -> by congruence.
      exists (length (trace w)), i, el. split_and!; [|done|].
      * rewrite Ht. by rewrite lookup_app_r, Nat.sub_diag.
      * destruct Hev as [?|Hn]; [by left|right].
        exists ev. split; [done|]. unfold awaited. by rewrite Hafter.
  - injection Hemit as <- <-. split.
    + rewrite Ht. by apply gated_app_done.
    + exists [Done i]. by rewrite Ht.
Qed.

Lemma callback_gated fuel : keepsGated (callback random fuel hooks e).
Proof.
  induction fuel as [|fuel IH]; intros i w w' b; simpl; [done|].
  destruct (hooks !! i) as [el|] eqn:Hel; [|done].
  destruct (fn el).
  - destruct (emittedName random el (observe (Done i) (observe (Start i) w)))
      as [ev w2] eqn:Hname.
    intros Hemit Hg Hrel.
    destruct (emit_after_done _ i el (observe (Start i) w) ev w2 w' b IH Hel Hname Hemit)
      as (Hg' & ext & Hext).
    + simpl. by apply gated_app_start.
    + split; [done|]. exists ([Start i] ++ ext).
      simpl in Hext. by rewrite Hext, <- app_assoc.
  - intros [= <- <-] Hg Hrel. simpl. split.
    + by apply gated_app_start.
    + by exists [Start i].
Qed.

Lemma settle_gated fuel i w w' b :
  settle random fuel hooks e i w = Some (w', b) →
  gated hooks w0 (trace w) → gated hooks w0 (trace w').
Proof.
  unfold settle. destruct (hooks !! i) as [el|] eqn:Hel; [|done].
  case_bool_decide; [|done].
  destruct (emittedName random el _) as [ev w2] eqn:Hname.
  intros Hemit Hg.
  by destruct (emit_after_done _ i el
                 (with_pending w (removeFirst i (pending w))) ev w2 w' b
                 (callback_gated fuel) Hel Hname Hemit Hg) as [Hg' _].
Qed.

Lemma settleAll_gated fuel ids w w' :
  settleAll random fuel hooks e ids w = Some w' →
  gated hooks w0 (trace w) → gated hooks w0 (trace w').
Proof.
  revert w. induction ids as [|i ids IH]; intros w; simpl.
  - by intros [= <-].
  - destruct (settle random fuel hooks e i w) as [[w1 b]|] eqn:Hs; [|done].
    intros Hrest Hg. eapply IH; [done|]. by eapply settle_gated.
Qed.

End HooksGated.

Section HooksRegister.

Import Hooks HookOrder.

Variable hooks : list HookDescriptor.
Variable w : World.

Lemma register_fold_listeners l i el names evs :
  hooks !! i = Some el → after el = Some l →
  (∀ v, v ∈ names → v ∈ members w l) →
  (∀ ev o l' cb, evs !! ev = Some o → (l', cb) ∈ o →
     ∃ el', hooks !! cb = Some el' ∧ after el' = Some l' ∧ ev ∈ members w l') →
  ∀ ev o l' cb,
    fold_left
      (λ (evs : gmap string (list (loc * nat))) v,
         <[v := match evs !! v with
                | Some o => o
                | None => []
                end ++ [(l, i)]]> evs) names evs !! ev = Some o →
    (l', cb) ∈ o →
    ∃ el', hooks !! cb = Some el' ∧ after el' = Some l' ∧ ev ∈ members w l'.
Proof.
  intros Hi Hafter. revert evs.
  induction names as [|v names IH]; intros evs Hnames Hevs; simpl; [done|].
  apply IH; [intros v' Hv'; by apply Hnames, list_elem_of_further|].
  intros ev o l' cb. destruct (decide (v = ev)) as [->|Hne].
  - rewrite lookup_insert_eq. intros [= <-] [Hin|Hin%list_elem_of_singleton]%elem_of_app.
    + destruct (evs !! ev) as [o|] eqn:Ho; [by eapply Hevs|by apply elem_of_nil in Hin].
    + injection Hin as Hl Hcb. subst l' cb. exists el. split_and!; [done|done|].
      apply Hnames, list_elem_of_here.
  - rewrite lookup_insert_ne by done. apply Hevs.
Qed.

Lemma register_listeners rest i e :
  (∀ k el, rest !! k = Some el → hooks !! (i + k) = Some el) →
  (∀ ev o l cb, events e !! ev = Some o → (l, cb) ∈ o →
     ∃ el, hooks !! cb = Some el ∧ after el = Some l ∧ ev ∈ members w l) →
  (∀ cb, cb ∈ queue e → ∃ el, hooks !! cb = Some el ∧ awaited w el = []) →
  (∀ ev o l cb, events (register w i rest e) !! ev = Some o → (l, cb) ∈ o →
     ∃ el, hooks !! cb = Some el ∧ after el = Some l ∧ ev ∈ members w l)
  ∧ (∀ cb, cb ∈ queue (register w i rest e) →
       ∃ el, hooks !! cb = Some el ∧ awaited w el = []).
Proof.
  revert i e. induction rest as [|el rest IH]; intros i e Hrest Hev Hq; simpl; [done|].
  assert (Hi : hooks !! i = Some el).
  { specialize (Hrest 0 el eq_refl). by rewrite Nat.add_0_r in Hrest. }
  apply IH.
  - intros k el' Hk. specialize (Hrest (S k) el' Hk).
    by replace (S i + k) with (i + S k) by lia.
  - unfold on. destruct (after el) as [l|] eqn:Hafter; [|done].
    case_bool_decide; [|done]. simpl.
    by apply (register_fold_listeners l i el).
  - unfold on. destruct (after el) as [l|] eqn:Hafter.
    + case_bool_decide as Hlen; [done|]. simpl.
      intros cb [Hcb|Hcb%list_elem_of_singleton]%elem_of_app; [by apply Hq|].
      subst cb.
      exists el. split; [done|]. unfold awaited. rewrite Hafter.
      apply nil_length_inv. destruct (length (members w l)); [done|].
      destruct Hlen. lia.
    + simpl.
      intros cb [Hcb|Hcb%list_elem_of_singleton]%elem_of_app; [by apply Hq|].
      subst cb.
      exists el. split; [done|]. unfold awaited. by rewrite Hafter.
Qed.

End HooksRegister.

Lemma runHook_settled_gated (random : nat → string) (fuel : nat)
    (stage : string) (hooksOf : gmap string (list Hooks.HookDescriptor))
    (w : Hooks.World) hooks sig e w' ids w'' :
  hooksOf !! stage = Some hooks →
  Hooks.trace w = [] →
  Hooks.runHook random fuel stage hooksOf w = Hooks.Returned sig e w' →
  HookOrder.settleAll random fuel hooks e ids w' = Some w'' →
  HookOrder.gated hooks w (Hooks.trace w'').
Proof.
  intros Hstage Htrace. unfold Hooks.runHook. rewrite Hstage.
  set (w0 := {| Hooks.sets := Hooks.sets w; Hooks.hook := Some stage;
                Hooks.logged := Hooks.logged w ++ [stage];
                Hooks.trace := Hooks.trace w; Hooks.pending := Hooks.pending w;
                Hooks.draws := Hooks.draws w |}).
  assert (Hg0 : HookOrder.gated hooks w0 (Hooks.trace w0)).
  { simpl. rewrite Htrace. intros k i el Hk. by rewrite lookup_nil in Hk. }
  change (HookOrder.gated hooks w (Hooks.trace w''))
    with (HookOrder.gated hooks w0 (Hooks.trace w'')).
  case_bool_decide as Hlen.
  - intros [= <- <- <-] Hsettle.
    refine (settleAll_gated random hooks w0 _ _ fuel ids _ w'' Hsettle Hg0).
    intros ev o l cb Hev. simpl in Hev. by rewrite lookup_empty in Hev.
  - set (e0 := Hooks.register w0 0 hooks _).
    destruct (register_listeners hooks w0 hooks 0
                {| Hooks.queue := []; Hooks.events := ∅ |}) as [Hev Hq].
    { intros k el Hk. done. }
    { intros ev o l cb Hev. simpl in Hev. by rewrite lookup_empty in Hev. }
    { intros cb Hcb. simpl in Hcb. by apply elem_of_nil in Hcb. }
    destruct (Hooks.fireLoop _ _ _ _) as [[w1 b]|] eqn:Hfire; [|done].
    assert (Hg1 : HookOrder.gated hooks w0 (Hooks.trace w1)).
    { eapply (fireLoop_gated hooks w0); [|exact Hfire|exact Hg0|].
      - by apply callback_gated.
      - intros cb Hcb el Hel Hne. destruct (Hq cb Hcb) as (el' & Hel' & Hnil).
        congruence. }
    destruct b; intros [= <- <- <-] Hsettle;
      (eapply (settleAll_gated random hooks w0); [exact Hev|exact Hsettle|exact Hg1]).
Qed.



(** ** The synchronous completion signal *)

(** X8.  An exception thrown by the [resolve] callback of [then] does
    not escape: on a signal without error, [then] calls [resolve] once
    with the value; if it throws [x], then [x] is passed to [reject] when
    one is given, and otherwise becomes the error of the returned signal,
    which a following [catch] hands to its callback. *)
Theorem then_routes_thrown_error (p : Hooks.SyncPromise)
    (resolve reject cb : Hooks.Callback) (x : val) :
  Hooks.sp_err p = VUndefined →
  Hooks.cb_run resolve [Hooks.sp_val p] = Hooks.Throw x →
  Hooks.then_ p (Some resolve) None
  = ([(Hooks.cb_id resolve, [Hooks.sp_val p])],
     inl (Hooks.createSyncPromise VUndefined x))
  ∧ (Hooks.catch_ (Hooks.createSyncPromise VUndefined x) cb).1
    = [(Hooks.cb_id cb, [x])]
  ∧ (Hooks.then_ p (Some resolve) (Some reject)).1
    = [(Hooks.cb_id resolve, [Hooks.sp_val p]); (Hooks.cb_id reject, [x])].
Proof.
  intros Herr Hthrow. unfold Hooks.then_, Hooks.catch_, Hooks.rejected, Hooks.invoke.
  rewrite Herr, Hthrow. simpl. split_and!; [done| |].
  - by destruct (Hooks.cb_run cb [x]).
  - by destruct (Hooks.cb_run reject [x]).
Qed.


(** ** Metadata store *)

Section MetaMore.

Import Meta.

(** What the copying loop leaves in the new table for each key. *)
Lemma copyLists_mirror hops h o p keys :
  closed h → h !! o = None → is_Some (h !! p) →
  ∀ hc props ho,
    h ⊆ hc → hc !! o = Some (Obj None props) →
    copyLists hops keys o p hc = Some ho →
    ∃ props', ho !! o = Some (Obj None props')
      ∧ ∀ key,
          (key ∉ keys ∨ truthy (get hops h p key) = false →
           assoc props' key = assoc props key)
          ∧ (key ∈ keys → ∀ a, get hops h p key = VRef a →
             ∃ a', assoc props' key = Some (VRef a'))
          ∧ (key ∈ keys → truthy (get hops h p key) = true →
             (∀ a, get hops h p key ≠ VRef a) →
             assoc props' key = Some (get hops h p key)).
Proof.
  intros Hc Ho Hp. induction keys as [|key0 keys IH]; intros hc props ho Hsub Hoc; simpl.
  - intros [= <-]. exists props. split; [done|]. intros key.
    split_and!; [done|by intros ?%elem_of_nil..].
  - rewrite (get_mono hops h hc p key0) by done.
    destruct (truthy (get hops h p key0)) eqn:Htr.
    2: { intros Hrest. destruct (IH _ _ _ Hsub Hoc Hrest) as (props' & Ho' & Hkeys).
         exists props'. split; [done|]. intros key.
         destruct (Hkeys key) as (H1 & H2 & H3). split_and!.
         - intros [Hnot|Hf]; apply H1; [|by right].
           left. intros Hin. apply Hnot. by apply list_elem_of_further.
         - intros [->|Hin]%elem_of_cons a Ha; [by rewrite Ha in Htr|by eapply H2].
         - intros [->|Hin]%elem_of_cons Ht; [congruence|by apply H3]. }
    assert (Hstep : ∀ v' h1,
      h ⊆ h1 → h1 !! o = Some (Obj None props) →
      (∀ a, get hops h p key0 = VRef a → ∃ a', v' = VRef a') →
      ((∀ a, get hops h p key0 ≠ VRef a) → v' = get hops h p key0) →
      match set_prop h1 o key0 v' with
      | Some h2 => copyLists hops keys o p h2
      | None => None
      end = Some ho →
      ∃ props', ho !! o = Some (Obj None props')
        ∧ ∀ key,
            (key ∉ key0 :: keys ∨ truthy (get hops h p key) = false →
             assoc props' key = assoc props key)
            ∧ (key ∈ key0 :: keys → ∀ a, get hops h p key = VRef a →
               ∃ a', assoc props' key = Some (VRef a'))
            ∧ (key ∈ key0 :: keys → truthy (get hops h p key) = true →
               (∀ a, get hops h p key ≠ VRef a) →
               assoc props' key = Some (get hops h p key))).
    { intros v' h1 Hsub1 Ho1 Href Hother. unfold set_prop. rewrite Ho1. intros Hrest.
      destruct (IH (<[o:=Obj None (assoc_set props key0 v')]> h1)
                  (assoc_set props key0 v') ho) as (props' & Ho' & Hkeys);
        [by apply insert_subseteq_r|by rewrite lookup_insert_eq|done|].
      exists props'. split; [done|]. intros key.
      destruct (Hkeys key) as (H1 & H2 & H3).
      destruct (decide (key ∈ keys)) as [Hin|Hnin].
      - split_and!.
        + intros [Hnot|Hf]; [destruct Hnot; by apply list_elem_of_further|].
          rewrite H1 by (by right). rewrite assoc_set_lookup.
          destruct (String.eqb_spec key0 key) as [->|_]; [congruence|done].
        + intros _. by apply H2.
        + intros _. by apply H3.
      - rewrite H1 by (by left). rewrite assoc_set_lookup.
        destruct (String.eqb_spec key0 key) as [->|Hne].
        + split_and!.
          * intros [Hnot|Hf]; [destruct Hnot; apply list_elem_of_here|congruence].
          * intros _ a Ha. destruct (Href a Ha) as [a' ->]. by exists a'.
          * intros _ _ Hnr. f_equal. by apply Hother.
        + split_and!; [done|..].
          * intros [?|?]%elem_of_cons; [congruence|done].
          * intros [?|?]%elem_of_cons; [congruence|done]. }
    destruct (get hops h p key0) as [| | | |str|a] eqn:Hget; simpl; try done.
    + apply Hstep; [done|done|done|done].
    + destruct (get_closed _ _ _ _ _ Hc Hget) as [c Ha].
      rewrite (lookup_weaken _ _ _ _ Ha Hsub).
      destruct c as [|items]; [done|].
      assert (Ha' : hc !! fresh (dom hc) = None)
        by (apply not_elem_of_dom, is_fresh).
      revert Ha'. generalize (fresh (dom hc)). intros a' Ha'.
      assert (Hne : a' ≠ o) by (intros ->; congruence).
      apply Hstep.
      * apply insert_subseteq_r; [|done]. by eapply lookup_weaken_None.
      * by rewrite lookup_insert_ne.
      * intros a0 _. by exists a'.
      * intros Hnr. by destruct (Hnr a).
Qed.

Lemma copyTable_mirror hops h table meta parent o hc ho proto mprops :
  closed h → is_Some (h !! parent) → h ⊆ hc →
  hc !! meta = Some (Obj proto mprops) → assoc mprops table = Some (VRef o) →
  h !! o = None → hc !! o = Some (Obj None []) →
  copyTable hops table meta parent hc = Some ho →
  ∃ p pproto pprops props,
    get hops h parent table = VRef p
    ∧ h !! p = Some (Obj pproto pprops)
    ∧ ho !! o = Some (Obj None props)
    ∧ ∀ key,
        (key ∉ pprops.*1 ∨ truthy (get hops h p key) = false →
         assoc props key = None)
        ∧ (key ∈ pprops.*1 → ∀ a, get hops h p key = VRef a →
           ∃ a', assoc props key = Some (VRef a'))
        ∧ (key ∈ pprops.*1 → truthy (get hops h p key) = true →
           (∀ a, get hops h p key ≠ VRef a) →
           assoc props key = Some (get hops h p key)).
Proof.
  intros Hc Hparent Hsub Hmeta Htable Ho Hoc. unfold copyTable.
  rewrite (get_own _ _ _ _ _ _ _ Hmeta Htable).
  rewrite (get_mono hops h hc parent table) by done.
  destruct (get hops h parent table) as [| | | | |p] eqn:Hp; try done.
  destruct (get_closed _ _ _ _ _ Hc Hp) as [c Hpc].
  unfold ownKeys. rewrite (lookup_weaken _ _ _ _ Hpc Hsub).
  destruct c as [pproto pprops|]; [|done]. intros Hcopy.
  destruct (copyLists_mirror hops h o p pprops.*1 Hc Ho (mk_is_Some _ _ Hpc)
              hc [] ho Hsub Hoc Hcopy) as (props & Hprops & Hkeys).
  by exists p, pproto, pprops, props.
Qed.

(** The two tables of the child: each has, for every own key of the
    parent's table, what the copying loop made of the parent's entry. *)
Lemma createMeta_tables hops h parent child h' table :
  closed h → is_Some (h !! parent) →
  createMeta hops h parent = Some (child, h') →
  table ∈ ["hooks"; "watchers"] →
  ∃ o p pproto pprops props,
    get (S hops) h' child table = VRef o
    ∧ get hops h parent table = VRef p
    ∧ h !! p = Some (Obj pproto pprops)
    ∧ h' !! o = Some (Obj None props)
    ∧ copiedFrom hops h h' p props
    ∧ ∀ key,
        (key ∉ pprops.*1 ∨ truthy (get hops h p key) = false →
         assoc props key = None)
        ∧ (key ∈ pprops.*1 → ∀ a, get hops h p key = VRef a →
           ∃ a', assoc props key = Some (VRef a'))
        ∧ (key ∈ pprops.*1 → truthy (get hops h p key) = true →
           (∀ a, get hops h p key ≠ VRef a) →
           assoc props key = Some (get hops h p key)).
Proof.
  intros Hc Hparent Hcreate Htable.
  destruct (createMeta_shape _ _ _ _ _ Hc Hparent Hcreate)
    as (Hsub & Hchild & ow & oh & Hmeta
        & (pw & wprops & Hpw & How & Hcopw) & (ph & hprops & Hph & Hoh & Hcoph)).
  revert Hcreate. unfold createMeta.
  destruct (alloc h _) as [meta h1] eqn:E1. apply alloc_spec in E1 as [Hm ->].
  destruct (alloc _ (Obj None [])) as [ow' h2] eqn:E2.
  apply alloc_spec in E2 as [Hw ->].
  destruct (alloc _ (Obj None [])) as [oh' h3] eqn:E3.
  apply alloc_spec in E3 as [Hh ->].
  apply lookup_insert_None in Hw as [Hw Hmw].
  apply lookup_insert_None in Hh as [Hh Hwh].
  apply lookup_insert_None in Hh as [Hh Hmh].
  set (M := Obj (Some parent) [("watchers", VRef ow'); ("hooks", VRef oh')]).
  set (h4 := <[meta := M]> _).
  assert (Hsub4 : h ⊆ h4).
  { unfold h4. repeat (apply insert_subseteq_r; [done|]). done. }
  assert (Hmeta4 : h4 !! meta = Some M) by (unfold h4; by rewrite lookup_insert_eq).
  assert (Hoh4 : h4 !! oh' = Some (Obj None [])).
  { unfold h4. rewrite lookup_insert_ne by done. by rewrite lookup_insert_eq. }
  assert (How4 : h4 !! ow' = Some (Obj None [])).
  { unfold h4. rewrite !lookup_insert_ne by done. by rewrite lookup_insert_eq. }
  destruct (copyTable hops "hooks" meta parent h4) as [h5|] eqn:E5; [|done].
  pose proof E5 as E5'.
  eapply (copyTable_spec hops h "hooks" meta parent oh' h4 h5) in E5'
    as (Hsub5 & _ & Hframe5); try done.
  eapply (copyTable_mirror hops h "hooks" meta parent oh' h4 h5) in E5
    as (ph' & phproto & phprops & hprops' & Hph' & Hphc & Hoh5 & Hmirh); try done.
  assert (Hmeta5 : h5 !! meta = Some M).
  { rewrite Hframe5; [done|congruence|by rewrite Hmeta4]. }
  assert (How5 : h5 !! ow' = Some (Obj None [])).
  { rewrite Hframe5; [done|congruence|by rewrite How4]. }
  destruct (copyTable hops "watchers" meta parent h5) as [h6|] eqn:E6; [|done].
  pose proof E6 as E6'.
  eapply (copyTable_spec hops h "watchers" meta parent ow' h5 h6) in E6'
    as (Hsub6 & _ & Hframe6); try done.
  eapply (copyTable_mirror hops h "watchers" meta parent ow' h5 h6) in E6
    as (pw' & pwproto & pwprops & wprops' & Hpw' & Hpwc & How6 & Hmirw); try done.
  intros [= <- <-].
  assert (Hmeta6 : h6 !! meta = Some M).
  { rewrite Hframe6; [done|congruence|by rewrite Hmeta5]. }
  rewrite Hmeta6 in Hmeta. injection Hmeta as <- <-.
  assert (Hoh6 : h6 !! oh' = Some (Obj None hprops')).
  { rewrite Hframe6; [done|congruence|by rewrite Hoh5]. }
  apply elem_of_cons in Htable as [->|Htable].
  - exists oh', ph, phproto, phprops, hprops.
    assert (ph' = ph) as -> by congruence.
    assert (hprops' = hprops) as -> by congruence.
    split_and!; try done.
    by apply (get_own _ _ _ _ _ _ _ Hmeta6).
  - apply list_elem_of_singleton in Htable as ->.
    exists ow', pw, pwproto, pwprops, wprops.
    assert (pw' = pw) as -> by congruence.
    assert (wprops' = wprops) as -> by congruence.
    split_and!; try done.
    by apply (get_own _ _ _ _ _ _ _ Hmeta6).
Qed.

(** Replacing the items of an array changes no property lookup. *)
Lemma get_insert_arr n (h : gmap loc Cell) a items items' l key :
  h !! a = Some (Arr items) →
  get n (<[a := Arr items']> h) l key = get n h l key.
Proof.
  intros Ha. revert l. induction n as [|n IH]; intros l; simpl.
  - destruct (decide (l = a)) as [->|Hne].
    + by rewrite lookup_insert_eq, Ha.
    + by rewrite lookup_insert_ne.
  - destruct (decide (l = a)) as [->|Hne].
    + by rewrite lookup_insert_eq, Ha.
    + rewrite lookup_insert_ne by done.
      destruct (h !! l) as [[proto props|]|]; try done.
      destruct (assoc props key); [done|]. destruct proto; [apply IH|done].
Qed.

(** X10.  Let [createMeta] return the child meta object for a parent in a
    closed heap, and let [table] be [hooks] or [watchers].  The loop
    copies the own keys of the parent's table and no other: for an own
    key the child's list has the items of the parent's list, and for any
    other key, even one the parent's table inherits, the child has no
    list. *)
Theorem createMeta_copies_own_keys hops (h : gmap loc Cell) parent child
    (h' : gmap loc Cell) table key :
  closed h → is_Some (h !! parent) →
  createMeta hops h parent = Some (child, h') →
  table ∈ ["hooks"; "watchers"] →
  ∃ p pproto pprops,
    get hops h parent table = VRef p
    ∧ h !! p = Some (Obj pproto pprops)
    ∧ listAt (S hops) h' child table key
      = if bool_decide (key ∈ pprops.*1)
        then listAt hops h parent table key else None.
Proof.
  intros Hc Hparent Hcreate Htable.
  destruct (createMeta_tables _ _ _ _ _ _ Hc Hparent Hcreate Htable)
    as (o & p & pproto & pprops & props & Hgo & Hgp & Hp & Ho & Hcop & Hmir).
  exists p, pproto, pprops. split_and!; [done..|].
  unfold listAt. rewrite Hgo, Hgp, (get_own_only _ _ _ _ _ Ho).
  destruct (Hmir key) as (H1 & H2 & H3).
  case_bool_decide as Hin.
  - destruct (truthy (get hops h p key)) eqn:Htr.
    + destruct (get hops h p key) as [| | | | |a] eqn:Hget;
        try (rewrite H3 by done; done).
      destruct (H2 Hin a eq_refl) as [a' Ha']. rewrite Ha'.
      destruct (Hcop _ _ Ha') as (_ & a0 & items & Hg0 & Ha0 & Hitems).
      rewrite Hget in Hg0. injection Hg0 as <-. by rewrite Hitems, Ha0.
    + rewrite H1 by by right.
      by destruct (get hops h p key).
  - by rewrite H1 by by left.
Qed.

(** X11.  After [createMeta], appending [x] to a hook list or watcher
    list of the parent extends the parent's list and leaves every list of
    the child as it was: the child holds copies, not the parent's
    arrays. *)
Theorem createMeta_parent_push_leaves_child hops (h : gmap loc Cell) parent
    child (h' : gmap loc Cell) table key x (h'' : gmap loc Cell) table' key' :
  closed h → is_Some (h !! parent) →
  createMeta hops h parent = Some (child, h') →
  pushAt hops h' parent table key x = Some h'' →
  table' ∈ ["hooks"; "watchers"] →
  listAt (S hops) h'' child table' key' = listAt (S hops) h' child table' key'
  ∧ ∃ items, listAt hops h parent table key = Some items
             ∧ listAt hops h'' parent table key = Some (items ++ [x]).
Proof.
  intros Hc Hparent Hcreate Hpush Htable.
  destruct (createMeta_tables _ _ _ _ _ _ Hc Hparent Hcreate Htable)
    as (o & p & pproto & pprops & props & Hgo & Hgp & Hp & Ho & Hcop & Hmir).
  destruct (createMeta_shape _ _ _ _ _ Hc Hparent Hcreate) as (Hsub & _).
  unfold pushAt in Hpush.
  rewrite (get_mono hops h h' parent table) in Hpush by done.
  destruct (get hops h parent table) as [| | | | |pt] eqn:Hpt; try done.
  pose proof (get_closed _ _ _ _ _ Hc Hpt) as Hptc.
  rewrite (get_mono hops h h' pt key) in Hpush by done.
  destruct (get hops h pt key) as [| | | | |a] eqn:Ha; try done.
  destruct (get_closed _ _ _ _ _ Hc Ha) as [c Hac].
  unfold push in Hpush. rewrite (lookup_weaken _ _ _ _ Hac Hsub) in Hpush.
  destruct c as [|items]; [done|]. injection Hpush as <-.
  pose proof (lookup_weaken _ _ _ _ Hac Hsub) as Hac'.
  split.
  - unfold listAt.
    rewrite (get_insert_arr _ _ _ _ _ child table' Hac'), Hgo.
    rewrite (get_insert_arr _ _ _ _ _ o key' Hac').
    rewrite (get_own_only _ _ _ _ _ Ho).
    destruct (assoc props key') as [[| | | | |a']|] eqn:Hkey; try done.
    destruct (Hcop _ _ Hkey) as (Hfresh & _).
    rewrite lookup_insert_ne; [done|]. intros ->. congruence.
  - exists items. unfold listAt.
    rewrite (get_insert_arr _ _ _ _ _ parent table Hac').
    rewrite (get_mono hops h h' parent table) by done.
    rewrite Hpt, (get_insert_arr _ _ _ _ _ pt key Hac').
    rewrite (get_mono hops h h' pt key) by done.
    by rewrite Ha, Hac, lookup_insert_eq.
Qed.

(** *** The heap [createMeta] leaves *)

Lemma cellClosed_mono (h h' : gmap loc Cell) c :
  (∀ l, is_Some (h !! l) → is_Some (h' !! l)) →
  cellClosed h c = true → cellClosed h' c = true.
Proof.
  intros Hdom. destruct c as [proto props|]; [|done]. simpl.
  intros [Hproto Hprops]%andb_true_iff. apply andb_true_iff. split.
  - destruct proto; [|done].
    apply bool_decide_eq_true in Hproto. by apply bool_decide_eq_true, Hdom.
  - clear Hproto. induction props as [|[k v] props IH]; [done|].
    simpl in *. apply andb_true_iff in Hprops as [Hv Hrest].
    apply andb_true_iff. split; [|by apply IH].
    destruct v; try done.
    apply bool_decide_eq_true in Hv. by apply bool_decide_eq_true, Hdom.
Qed.

Lemma cellClosed_assoc_set (h : gmap loc Cell) props key v :
  cellClosed h (Obj None props) = true →
  match v with VRef r => is_Some (h !! r) | _ => True end →
  cellClosed h (Obj None (assoc_set props key v)) = true.
Proof.
  simpl. intros Hprops Hv.
  induction props as [|[k x] props IH]; simpl in *.
  - apply andb_true_iff. split; [|done].
    destruct v; try done. by apply bool_decide_eq_true_2.
  - apply andb_true_iff in Hprops as [Hx Hrest].
    destruct (String.eqb k key); simpl; apply andb_true_iff; split; try done.
    + destruct v; try done. by apply bool_decide_eq_true_2.
    + by apply IH.
Qed.

(** The cells the copying loop leaves: the new table refers to allocated
    cells only, no cell is removed, and every cell that is new is an
    array. *)
Lemma copyLists_cells hops keys o p :
  ∀ (hc : gmap loc Cell) props ho,
    hc !! o = Some (Obj None props) →
    cellClosed hc (Obj None props) = true →
    copyLists hops keys o p hc = Some ho →
    (∃ props', ho !! o = Some (Obj None props')
               ∧ cellClosed ho (Obj None props') = true)
    ∧ (∀ l, is_Some (hc !! l) → is_Some (ho !! l))
    ∧ (∀ l c, ho !! l = Some c → l ≠ o →
         hc !! l = Some c ∨ (hc !! l = None ∧ ∃ items, c = Arr items)).
Proof.
  induction keys as [|key0 keys IH]; intros hc props ho Hoc Hcl; simpl.
  - intros [= <-]. split_and!; [by exists props|done|by left].
  - destruct (truthy (get hops hc p key0)); [|by apply (IH hc props)].
    assert (Hstep : ∀ v' (h1 : gmap loc Cell),
      h1 !! o = Some (Obj None props) →
      (∀ l, is_Some (hc !! l) → is_Some (h1 !! l)) →
      (∀ l c, h1 !! l = Some c →
         hc !! l = Some c ∨ (hc !! l = None ∧ ∃ items, c = Arr items)) →
      match v' with VRef r => is_Some (h1 !! r) | _ => True end →
      match set_prop h1 o key0 v' with
      | Some h2 => copyLists hops keys o p h2
      | None => None
      end = Some ho →
      (∃ props', ho !! o = Some (Obj None props')
                 ∧ cellClosed ho (Obj None props') = true)
      ∧ (∀ l, is_Some (hc !! l) → is_Some (ho !! l))
      ∧ (∀ l c, ho !! l = Some c → l ≠ o →
           hc !! l = Some c ∨ (hc !! l = None ∧ ∃ items, c = Arr items))).
    { intros v' h1 Ho1 Hdom1 Hnew1 Hv'. unfold set_prop. rewrite Ho1.
      intros Hrest.
      set (h2 := <[o := Obj None (assoc_set props key0 v')]> h1) in *.
      assert (Hdom2 : ∀ l, is_Some (h1 !! l) → is_Some (h2 !! l)).
      { intros l Hl. unfold h2. destruct (decide (l = o)) as [->|Hne].
        - rewrite lookup_insert_eq. by eexists.
        - by rewrite lookup_insert_ne. }
      assert (Hcl2 : cellClosed h2 (Obj None (assoc_set props key0 v')) = true).
      { apply (cellClosed_mono h1); [done|].
        apply cellClosed_assoc_set; [|done].
        by apply (cellClosed_mono hc). }
      assert (Ho2 : h2 !! o = Some (Obj None (assoc_set props key0 v')))
        by (unfold h2; by rewrite lookup_insert_eq).
      destruct (IH _ _ _ Ho2 Hcl2 Hrest) as (Hprops & Hdom & Hnew).
      split_and!; [done|by auto|].
      intros l c Hl Hne. destruct (Hnew l c Hl Hne) as [H2|[H2 Harr]].
      - unfold h2 in H2. rewrite lookup_insert_ne in H2 by done.
        by apply Hnew1.
      - right. split; [|done].
        unfold h2 in H2. rewrite lookup_insert_ne in H2 by done.
        destruct (hc !! l) eqn:Hcl'; [|done].
        destruct (Hdom1 l) as [? Hx]; [by eexists|congruence]. }
    unfold slice.
    destruct (get hops hc p key0) as [| | | |str|a]; try done.
    + apply (Hstep (VStr str) hc); [done|done|by left|done].
    + destruct (hc !! a) as [[|items]|] eqn:Ha; try done.
      destruct (alloc hc (Arr items)) as [a' h1] eqn:Hal.
      apply alloc_spec in Hal as [Hfresh ->].
      assert (Hne : a' ≠ o) by (intros ->; congruence).
      apply (Hstep (VRef a') (<[a' := Arr items]> hc)).
      * by rewrite lookup_insert_ne.
      * intros l Hl. destruct (decide (l = a')) as [->|Hn].
        -- rewrite lookup_insert_eq. by eexists.
        -- by rewrite lookup_insert_ne.
      * intros l c. destruct (decide (l = a')) as [->|Hn].
        -- rewrite lookup_insert_eq. intros [= <-]. right. by eauto.
        -- rewrite lookup_insert_ne by done. by left.
      * rewrite lookup_insert_eq. by eexists.
Qed.

Lemma copyTable_cells hops table meta parent o (hc ho : gmap loc Cell)
    proto mprops :
  hc !! meta = Some (Obj proto mprops) → assoc mprops table = Some (VRef o) →
  hc !! o = Some (Obj None []) →
  copyTable hops table meta parent hc = Some ho →
  (∃ props', ho !! o = Some (Obj None props')
             ∧ cellClosed ho (Obj None props') = true)
  ∧ (∀ l, is_Some (hc !! l) → is_Some (ho !! l))
  ∧ (∀ l c, ho !! l = Some c → l ≠ o →
       hc !! l = Some c ∨ (hc !! l = None ∧ ∃ items, c = Arr items)).
Proof.
  intros Hmeta Htable Hoc. unfold copyTable.
  rewrite (get_own _ _ _ _ _ _ _ Hmeta Htable).
  destruct (get hops hc parent table) as [| | | | |p]; try done.
  destruct (ownKeys hc p) as [keys|]; [|done].
  by apply (copyLists_cells hops keys o p hc []).
Qed.

(** [createMeta] leaves a heap without dangling references. *)
Lemma createMeta_closed hops (h : gmap loc Cell) parent child h' :
  closed h → is_Some (h !! parent) →
  createMeta hops h parent = Some (child, h') → closed h'.
Proof.
  intros Hc Hparent. unfold createMeta.
  destruct (alloc h _) as [meta h1] eqn:E1. apply alloc_spec in E1 as [Hm ->].
  destruct (alloc _ (Obj None [])) as [ow h2] eqn:E2.
  apply alloc_spec in E2 as [Hw ->].
  destruct (alloc _ (Obj None [])) as [oh h3] eqn:E3.
  apply alloc_spec in E3 as [Hh ->].
  apply lookup_insert_None in Hw as [Hw Hmw].
  apply lookup_insert_None in Hh as [Hh Hwh].
  apply lookup_insert_None in Hh as [Hh Hmh].
  set (M := Obj (Some parent) [("watchers", VRef ow); ("hooks", VRef oh)]).
  set (h4 := <[meta := M]> _).
  assert (Hsub4 : h ⊆ h4).
  { unfold h4. repeat (apply insert_subseteq_r; [done|]). done. }
  assert (Hmeta4 : h4 !! meta = Some M) by (unfold h4; by rewrite lookup_insert_eq).
  assert (Hoh4 : h4 !! oh = Some (Obj None [])).
  { unfold h4. rewrite lookup_insert_ne by done. by rewrite lookup_insert_eq. }
  assert (How4 : h4 !! ow = Some (Obj None [])).
  { unfold h4. rewrite !lookup_insert_ne by done. by rewrite lookup_insert_eq. }
  destruct (copyTable hops "hooks" meta parent h4) as [h5|] eqn:E5; [|done].
  eapply (copyTable_cells hops "hooks" meta parent oh h4 h5) in E5
    as ((hprops & Hoh5 & Hclh) & Hdom5 & Hnew5); try done.
  assert (Hmeta5 : h5 !! meta = Some M).
  { destruct (Hdom5 meta) as [c Hc5]; [by eexists|].
    destruct (Hnew5 _ _ Hc5) as [H4|[H4 _]]; congruence. }
  assert (How5 : h5 !! ow = Some (Obj None [])).
  { destruct (Hdom5 ow) as [c Hc5]; [by eexists|].
    destruct (Hnew5 _ _ Hc5) as [H4|[H4 _]]; congruence. }
  destruct (copyTable hops "watchers" meta parent h5) as [h6|] eqn:E6; [|done].
  eapply (copyTable_cells hops "watchers" meta parent ow h5 h6) in E6
    as ((wprops & How6 & Hclw) & Hdom6 & Hnew6); try done.
  intros [= <- <-].
  assert (Hdom : ∀ l, is_Some (h !! l) → is_Some (h6 !! l)).
  { intros l [c Hl]. apply Hdom6, Hdom5. exists c.
    by apply (lookup_weaken _ _ _ _ Hl Hsub4). }
  intros l c Hl. simpl.
  destruct (decide (l = ow)) as [->|Hnw]; [congruence|].
  destruct (Hnew6 _ _ Hl Hnw) as [Hl5|[_ [items ->]]]; [|done].
  destruct (decide (l = oh)) as [->|Hnh].
  { apply (cellClosed_mono h5); [done|]. congruence. }
  destruct (Hnew5 _ _ Hl5 Hnh) as [Hl4|[_ [items ->]]]; [|done].
  destruct (decide (l = meta)) as [->|Hnm].
  { assert (c = M) as -> by congruence. unfold M. simpl.
    rewrite !andb_true_iff. split_and!; [| | |done].
    - by apply bool_decide_eq_true_2, Hdom.
    - apply bool_decide_eq_true_2. by eexists.
    - apply bool_decide_eq_true_2, Hdom6. by eexists. }
  unfold h4 in Hl4. rewrite !lookup_insert_ne in Hl4 by done.
  apply (cellClosed_mono h); [done|]. by apply (Hc l c).
Qed.

(** X12.  [createMeta] is total on meta objects and yields a meta object
    again: for a parent whose [hooks] and [watchers] are dictionaries of
    lists in a closed heap, the call returns, the heap it leaves is
    closed, and the child's [hooks] and [watchers] are dictionaries of
    lists, so that the child can be the parent of a further call. *)
Theorem createMeta_yields_metaObject hops (h : gmap loc Cell) parent :
  metaObject hops h parent →
  ∃ child h', createMeta hops h parent = Some (child, h')
              ∧ metaObject (S hops) h' child.
Proof.
  intros Hmo. destruct (createMeta_total _ _ _ Hmo) as [[child h'] Hcreate].
  destruct Hmo as (Hc & Hparent & Hhooks & Hwatchers).
  exists child, h'. split; [done|].
  destruct (createMeta_shape _ _ _ _ _ Hc Hparent Hcreate)
    as (_ & _ & ow & oh & Hmeta & _).
  assert (Htab : ∀ table, table ∈ ["hooks"; "watchers"] →
            (∃ p, get hops h parent table = VRef p ∧ listTable hops h p) →
            ∃ o, get (S hops) h' child table = VRef o ∧ listTable (S hops) h' o).
  { intros table Htable (p0 & Hp0 & pproto0 & pprops0 & Hcell0 & Hlists).
    destruct (createMeta_tables _ _ _ _ _ _ Hc Hparent Hcreate Htable)
      as (o & p & pproto & pprops & props & Hgo & Hgp & Hp & Ho & Hcop & Hmir).
    assert (p0 = p) as -> by congruence.
    assert (pprops0 = pprops) as -> by congruence.
    exists o. split; [done|]. exists None, props. split; [done|].
    intros key Hin Htr. rewrite (get_own_only _ _ _ _ _ Ho) in *.
    destruct (assoc_elem_Some _ _ Hin) as [v Hv]. rewrite Hv in *.
    destruct (Hmir key) as (H1 & H2 & H3).
    destruct (decide (key ∈ pprops.*1)) as [Hk|Hk].
    2: { rewrite H1 in Hv; [done|by left]. }
    destruct (truthy (get hops h p key)) eqn:Hpt.
    2: { rewrite H1 in Hv; [done|by right]. }
    destruct (Hlists key Hk Hpt) as [(a & items & Ha & Hitems)|[str Hstr]].
    - destruct (H2 Hk a Ha) as [a' Ha']. left.
      destruct (Hcop _ _ Ha') as (_ & a0 & items0 & _ & _ & Hi).
      exists a', items0. split; [congruence|done].
    - right. exists str. rewrite H3 in Hv; [congruence|done|done|].
      intros a. by rewrite Hstr. }
  split_and!.
  - by eapply createMeta_closed.
  - by eexists.
  - apply Htab; [set_solver|done].
  - apply Htab; [set_solver|done].
Qed.

End MetaMore.

Lemma createMeta_copies_own_keys_witness :
  ∃ p pproto pprops,
    Meta.get 1 MetaSamples.parentHeap 1%positive "hooks" = VRef p
    ∧ MetaSamples.parentHeap !! p = Some (Meta.Obj pproto pprops)
    ∧ Meta.listAt 2 MetaSamples.childHeap MetaSamples.child "hooks" "created"
      = if bool_decide ("created" ∈ pprops.*1)
        then Meta.listAt 1 MetaSamples.parentHeap 1%positive "hooks" "created"
        else None.
Proof.
  apply (createMeta_copies_own_keys 1 MetaSamples.parentHeap 1%positive
           MetaSamples.child MetaSamples.childHeap "hooks" "created").
  - apply (bool_decide_unpack _). vm_compute. exact I.
  - vm_compute. eauto.
  - vm_compute. reflexivity.
  - set_solver.
Defined.

Lemma createMeta_parent_push_leaves_child_witness :
  Meta.listAt 2 MetaSamples.parentPushedHeap MetaSamples.child "hooks" "created"
  = Meta.listAt 2 MetaSamples.childHeap MetaSamples.child "hooks" "created"
  ∧ ∃ items,
      Meta.listAt 1 MetaSamples.parentHeap 1%positive "hooks" "created"
      = Some items
      ∧ Meta.listAt 1 MetaSamples.parentPushedHeap 1%positive "hooks" "created"
        = Some (items ++ [VStr "late"]).
Proof.
  apply (createMeta_parent_push_leaves_child 1 MetaSamples.parentHeap
           1%positive MetaSamples.child MetaSamples.childHeap
           "hooks" "created" (VStr "late") MetaSamples.parentPushedHeap
           "hooks" "created").
  - apply (bool_decide_unpack _). vm_compute. exact I.
  - vm_compute. eauto.
  - vm_compute. reflexivity.
  - vm_compute. reflexivity.
  - set_solver.
Defined.

Lemma createMeta_yields_metaObject_witness :
  ∃ child h',
    Meta.createMeta 1 MetaSamples.parentHeap 1%positive = Some (child, h')
    ∧ Meta.metaObject 2 h' child.
Proof.
  apply (createMeta_yields_metaObject 1 MetaSamples.parentHeap 1%positive).
  split_and!.
  - apply (bool_decide_unpack _). vm_compute. exact I.
  - vm_compute. eauto.
  - exists 2%positive. split; [reflexivity|].
    exists None, [("created", VRef 4%positive)]. split; [reflexivity|].
    intros key Hin _. left. apply list_elem_of_singleton in Hin. subst key.
    exists 4%positive, [VStr "onCreated"]. split; reflexivity.
  - exists 3%positive. split; [reflexivity|].
    exists None, [("foo", VRef 5%positive)]. split; [reflexivity|].
    intros key Hin _. left. apply list_elem_of_singleton in Hin. subst key.
    exists 5%positive, [VStr "onFoo"]. split; reflexivity.
Defined.

(** ** Watcher binder *)

Section WatchersOnce.

Import Watchers WatcherKeys.

Context {W : Type}.
Variable ctx : val.
Variable ctxGet globalGet : string → val.
Variable dasherize : string → string.
Variable ctxIsEmitter : bool.

Abbreviation bindKey' := (bindKey (W:=W) ctx ctxGet globalGet dasherize ctxIsEmitter).
Abbreviation bindWatchers' :=
  (bindWatchers (W:=W) ctx ctxGet globalGet dasherize ctxIsEmitter).

(** What the three passes make of one key. *)
Lemma bindKey_three_stages key ws :
  (λ s, (sourceOf s, watcherOf s))
    <$> (bindKey' "beforeCreate" key ws ++ bindKey' "created" key ws
         ++ bindKey' "mounted" key ws)
  = (λ el, (key, el)) <$> default [] ws.
Proof.
  unfold bindKey. destruct ws as [els|];
    [|by destruct (customWatcherRgxp key) as [[[m l] rest]|]].
  destruct (customWatcherRgxp key) as [[[m l] rest]|]; simpl.
  - destruct (String.eqb_spec m "!") as [->|Hne]; simpl.
    + rewrite app_nil_r, <- list_fmap_compose. apply list_fmap_ext.
      intros i el _. simpl. by case_match.
    + destruct (String.eqb m "?"); simpl;
        rewrite ?app_nil_r, <- list_fmap_compose; apply list_fmap_ext;
        intros i el _; simpl; by case_match.
  - rewrite app_nil_r, <- list_fmap_compose. by apply list_fmap_ext.
Qed.

(** X13.  Over the three stages [beforeCreate], [created] and [mounted],
    [bindWatchers] asks for exactly one subscription per declared
    watcher: the subscriptions of the three passes together are, up to
    order, the watchers of [meta.watchers], each under its key, with
    their multiplicities. *)
Theorem bindWatchers_each_watcher_once
    (watchers : list (string * option (list W))) :
  (λ s, (sourceOf s, watcherOf s))
    <$> (bindWatchers' "beforeCreate" watchers
         ++ bindWatchers' "created" watchers
         ++ bindWatchers' "mounted" watchers)
  ≡ₚ entries watchers.
Proof.
  unfold bindWatchers, entries.
  change (attachStage "beforeCreate") with true.
  change (attachStage "created") with true.
  change (attachStage "mounted") with true. cbv iota. simpl negb. cbv iota.
  induction watchers as [|[key ws] watchers IH]; [done|].
  simpl. rewrite <- IH, <- bindKey_three_stages.
  rewrite !fmap_app. solve_Permutation.
Qed.

End WatchersOnce.

(** ** Instances *)

Lemma interleaved_quiet : Fields.quiet Samples.interleaved.
Proof.
  intros key el f d Hin Hf. unfold Samples.interleaved in Hin.
  repeat (apply elem_of_cons in Hin as [[= -> ->]|Hin]);
    [..|by apply elem_of_nil in Hin]; discriminate.
Qed.

Lemma chain_quiet : Fields.quiet MoreSamples.chain.
Proof.
  intros key el f d Hin Hf. unfold MoreSamples.chain in Hin.
  repeat (apply elem_of_cons in Hin as [[= -> ->]|Hin]);
    [..|by apply elem_of_nil in Hin]; [|discriminate].
  injection Hf as <-. by eexists.
Qed.

Lemma chain_validGraph : Fields.validGraph MoreSamples.chain.
Proof.
  exists MoreSamples.chainRank. intros key el w Hin Hw.
  unfold MoreSamples.chain in Hin.
  repeat (apply elem_of_cons in Hin as [[= -> ->]|Hin]);
    [..|by apply elem_of_nil in Hin]; simpl in Hw.
  - apply list_elem_of_singleton in Hw as ->.
    eexists. split; [reflexivity|]. split; [vm_compute; lia|done].
  - by apply elem_of_nil in Hw.
Qed.

Lemma initDataObject_frame_witness :
  match Fields.initDataObject (Fields.literals id) 3 Samples.interleaved ∅
          {[ "kept" := VNum 9 ]} with
  | Fields.Returned d | Fields.Threw _ d =>
      {[ "kept" := VNum 9 ]} ⊆ d
      ∧ dom d ⊆ dom ({[ "kept" := VNum 9 ]} : gmap string val)
                ∪ list_to_set Samples.interleaved.*1
  | Fields.OutOfFuel => True
  end.
Proof.
  apply (initDataObject_frame (Fields.literals id) Samples.interleaved ∅
           {[ "kept" := VNum 9 ]} 3).
  - exact interleaved_quiet.
  - reflexivity.
Defined.

Lemma initDataObject_complete_witness :
  ∃ fuel d, Fields.initDataObject (Fields.literals id) fuel MoreSamples.chain ∅ ∅
            = Fields.Returned d
            ∧ ∀ key, key ∈ MoreSamples.chain.*1 →
                     Fields.inData (Fields.literals id) d key = true.
Proof.
  apply (initDataObject_complete (Fields.literals id) MoreSamples.chain ∅ ∅).
  - exact chain_quiet.
  - reflexivity.
  - exact chain_validGraph.
  - intros k el Hin Hatom. unfold MoreSamples.chain in Hin.
    repeat (apply elem_of_cons in Hin as [[= -> ->]|Hin]);
      [..|by apply elem_of_nil in Hin]; discriminate.
Defined.

Lemma initDataObject_sweep_bound_witness :
  ∃ d, ∀ fuel, length Samples.interleaved < fuel →
         Fields.initDataObject (Fields.literals id) fuel Samples.interleaved ∅ ∅
         = Fields.Returned d.
Proof.
  apply (initDataObject_sweep_bound (Fields.literals id) Samples.interleaved ∅ ∅).
  - exact interleaved_quiet.
  - reflexivity.
  - exact interleaved_validGraph.
Defined.




Lemma then_routes_thrown_error_witness :
  Hooks.then_ (Hooks.createSyncPromise (VNum 1) VUndefined)
    (Some HookRuns.thrower) None
  = ([(Hooks.cb_id HookRuns.thrower,
       [Hooks.sp_val (Hooks.createSyncPromise (VNum 1) VUndefined)])],
     inl (Hooks.createSyncPromise VUndefined (VStr "boom")))
  ∧ (Hooks.catch_ (Hooks.createSyncPromise VUndefined (VStr "boom"))
       HookSamples.stderr).1
    = [(Hooks.cb_id HookSamples.stderr, [VStr "boom"])]
  ∧ (Hooks.then_ (Hooks.createSyncPromise (VNum 1) VUndefined)
       (Some HookRuns.thrower) (Some HookSamples.stderr)).1
    = [(Hooks.cb_id HookRuns.thrower,
        [Hooks.sp_val (Hooks.createSyncPromise (VNum 1) VUndefined)]);
       (Hooks.cb_id HookSamples.stderr, [VStr "boom"])].
Proof.
  apply (then_routes_thrown_error (Hooks.createSyncPromise (VNum 1) VUndefined)
           HookRuns.thrower HookSamples.stderr HookSamples.stderr (VStr "boom")).
  - reflexivity.
  - reflexivity.
Defined.

